(** * dataset-pipeline-pro: the text pipeline of [pipeline_engine.py]

    A shallow embedding of the core of [run_pipeline]
    (src/server/python_src/pipeline_engine.py): the text normalizer, the
    dictionary join and split passes, the sentence-to-chunk assembler and
    the pair / split exporter, followed by the properties proved about
    them.

    Python [str] values are sequences of Unicode code points, so a string
    is a list of code points here and [len], slicing and concatenation are
    the list operations.  The lexicon ([word_set]) is a finite set of
    strings.  The process-wide [random] generator is an explicit state that
    is threaded through the exporter. *)

From Stdlib Require Import ZArith NArith List Lia Ascii String.
From stdpp Require Import base option list sets gmap.

Local Open Scope N_scope.
Local Open Scope nat_scope.
Local Open Scope list_scope.

(** ** Python strings *)

Module PyStr.

Abbreviation char := N (only parsing).
Abbreviation str := (list N) (only parsing).

(** An ASCII literal as a Python string. *)
Definition lit (s : string) : str :=
  List.map N_of_ascii (list_ascii_of_string s).

Definition SPACE : char := 32%N.
Definition TAB : char := 9%N.
Definition NEWLINE : char := 10%N.

(** [str.isspace] of one character, which is also what [str.split()]
    with no argument and the regex classes [\s] / [\S] use. *)
Definition isspace (c : char) : bool :=
  (((9 <=? c) && (c <=? 13)) || ((28 <=? c) && (c <=? 32))
   || (c =? 133) || (c =? 160) || (c =? 5760)
   || ((8192 <=? c) && (c <=? 8202))
   || (c =? 8232) || (c =? 8233) || (c =? 8239) || (c =? 8287)
   || (c =? 12288))%N.

(** [s.split()]: maximal runs of non-whitespace characters; [acc] is the
    token being read. *)
Fixpoint split_from (acc : str) (s : str) : list str :=
  match s with
  | [] => match acc with [] => [] | _ => [acc] end
  | c :: r =>
      if isspace c
      then match acc with
           | [] => split_from [] r
           | _ => acc :: split_from [] r
           end
      else split_from (acc ++ [c]) r
  end.

Definition split (s : str) : list str := split_from [] s.

(** [sep.join(l)] *)
Fixpoint join (sep : str) (l : list str) : str :=
  match l with
  | [] => []
  | [x] => x
  | x :: r => x ++ sep ++ join sep r
  end.

(** [s.replace(k, v)] for a key [k] that is a single character, as all
    keys of the tables of the pipeline are. *)
Definition replace1 (k : char) (v : str) (s : str) : str :=
  List.flat_map (fun c => if (c =? k)%N then v else [c]) s.

(** [for k, v in table.items(): text = text.replace(k, v)] *)
Definition replace_table (table : list (char * str)) (s : str) : str :=
  List.fold_left (fun t kv => replace1 (fst kv) (snd kv) t) table s.

(** [l[-n:]] for a positive [n]: the last [n] elements, all of [l] when
    it is shorter. *)
Definition tail_slice {A} (n : nat) (l : list A) : list A :=
  drop (length l - n) l.

(** What [split] returns: non-empty strings without whitespace. *)
Definition is_word (w : str) : Prop :=
  w <> [] /\ Forall (fun c => isspace c = false) w.

End PyStr.
Import PyStr.

(** ** Unicode tables

    [str.isalpha], [str.lower] and the regex class [\d] consult the
    Unicode character database of the interpreter.  The database is not
    part of the repository, so it is an interface; every general theorem
    below holds for all of its instances. *)

Class UnicodeDB := {
  (** the character test behind [str.isalpha] *)
  isalpha_char : char -> bool;
  (** the character test behind the regex class [\d] *)
  isdecimal_char : char -> bool;
  (** [str.lower]; it may change the length of a string *)
  lower : str -> str
}.

(** [s.isalpha()]: at least one character and all of them alphabetic. *)
Definition isalpha {U : UnicodeDB} (s : str) : bool :=
  match s with
  | [] => false
  | _ => forallb isalpha_char s
  end.

(** The database restricted to ASCII, used to evaluate the pipeline on
    ASCII inputs. *)
Definition ascii_upper (c : char) : bool := ((65 <=? c) && (c <=? 90))%N.
Definition ascii_lower (c : char) : bool := ((97 <=? c) && (c <=? 122))%N.
Definition ascii_digit (c : char) : bool := ((48 <=? c) && (c <=? 57))%N.

Definition AsciiDB : UnicodeDB := {|
  isalpha_char c := ascii_upper c || ascii_lower c;
  isdecimal_char c := ascii_digit c;
  lower s := List.map (fun c => if ascii_upper c then (c + 32)%N else c) s
|}.

(** ** Regular expressions: [re.sub]

    Every pattern of the pipeline is a sequence of character classes, each
    taken once, optionally ([?]), or repeated greedily ([*], [+]).
    [re_match p s] is the backtracking matcher anchored at the start of
    [s]; it returns the length of the match. *)

Module Re.

Inductive quant := One | Opt | Star | Plus.

Definition item : Type := (char -> bool) * quant.
Definition pattern : Type := list item.

(** Greedy repetition of [cls] followed by the continuation [k]:
    take as many characters as possible, give them back one by one
    while [k] fails. *)
Fixpoint re_star (cls : char -> bool) (k : str -> option nat)
    (s : str) : option nat :=
  match s with
  | c :: r =>
      if cls c
      then match re_star cls k r with
           | Some n => Some (S n)
           | None => k s
           end
      else k s
  | [] => k []
  end.

Fixpoint re_match (p : pattern) : str -> option nat :=
  match p with
  | [] => fun _ => Some 0
  | (cls, q) :: p' =>
      let k := re_match p' in
      match q with
      | One => fun s =>
          match s with
          | c :: r => if cls c then S <$> k r else None
          | [] => None
          end
      | Opt => fun s =>
          match s with
          | c :: r =>
              if cls c
              then match k r with
                   | Some n => Some (S n)
                   | None => k s
                   end
              else k s
          | [] => k []
          end
      | Star => re_star cls k
      | Plus => fun s =>
          match s with
          | c :: r => if cls c then S <$> re_star cls k r else None
          | [] => None
          end
      end
  end.

(** [re.sub(p, repl, s)], scanning left to right.  [skip] counts the
    characters of the current match that are still to be consumed.  No
    pattern of the pipeline matches the empty string, so a match of
    length 0 is not a case of the scan.  [repl] receives the matched
    text. *)
Fixpoint sub_from (p : pattern) (repl : str -> str) (skip : nat)
    (s : str) : str :=
  match s with
  | [] => []
  | c :: r =>
      match skip with
      | S k => sub_from p repl k r
      | O =>
          match re_match p s with
          | Some (S n) => repl (take (S n) s) ++ sub_from p repl n r
          | _ => c :: sub_from p repl 0 r
          end
      end
  end.

Definition sub (p : pattern) (repl : str -> str) (s : str) : str :=
  sub_from p repl 0 s.

(** character classes *)
Definition chr (c : char) : item := (fun x => (x =? c)%N, One).
Definition is_nocase (lo up : char) : item :=
  (fun x => (x =? lo)%N || (x =? up)%N, One).

End Re.

(** ** TextNormalizer (BLOCK 4, character normalize to hyphen fix) *)

Module Normalizer.
Import Re.

Definition ligatures : list (char * str) :=
  [ (64257%N, lit "fi"); (64258%N, lit "fl"); (64256%N, lit "ff");
    (64259%N, lit "ffi"); (64260%N, lit "ffl") ].

Definition APOSTROPHE : str := [39%N].
Definition DQUOTE : str := [34%N].
Definition HYPHEN : char := 45%N.

Definition quotes : list (char * str) :=
  [ (8217%N, APOSTROPHE); (8216%N, APOSTROPHE);
    (8220%N, DQUOTE); (8221%N, DQUOTE);
    (8211%N, [HYPHEN]); (8212%N, [HYPHEN]); (8722%N, [HYPHEN]) ].

(** the class of U+200B to U+200D and U+FEFF *)
Definition zero_width (c : char) : bool :=
  (((8203 <=? c) && (c <=? 8205)) || (c =? 65279))%N.
Definition re_zero_width : pattern := [ (zero_width, One) ].

Definition nonspace (c : char) : bool := negb (isspace c).

(** [http[s]?://\S+] *)
Definition re_http : pattern :=
  [ chr 104%N; chr 116%N; chr 116%N; chr 112%N; (fun c => (c =? 115)%N, Opt);
    chr 58%N; chr 47%N; chr 47%N; (nonspace, Plus) ].

(** [www\.\S+] *)
Definition re_www : pattern :=
  [ chr 119%N; chr 119%N; chr 119%N; chr 46%N; (nonspace, Plus) ].

(** [Page \d+] under [re.I]: each letter matches in both cases, and no
    other code point folds to one of these four letters. *)
Definition re_page {U : UnicodeDB} : pattern :=
  [ is_nocase 112%N 80%N; is_nocase 97%N 65%N; is_nocase 103%N 71%N;
    is_nocase 101%N 69%N; chr SPACE; (isdecimal_char, Plus) ].

(** [[ \t]+] *)
Definition blank (c : char) : bool := ((c =? SPACE) || (c =? TAB))%N.
Definition re_blanks : pattern := [ (blank, Plus) ].

(** [ *\n *] *)
Definition space (c : char) : bool := (c =? SPACE)%N.
Definition re_newline : pattern :=
  [ (space, Star); chr NEWLINE; (space, Star) ].

(** [([a-z])-\n([a-z])] *)
Definition re_hyphen_break : pattern :=
  [ (ascii_lower, One); chr HYPHEN; chr NEWLINE; (ascii_lower, One) ].

Definition erase (_ : str) : str := [].
Definition const (v : str) (_ : str) : str := v.
(** the template [\1\2] for [re_hyphen_break]: group 1 is the first and
    group 2 the fourth character of the four-character match *)
Definition groups_1_2 (m : str) : str := take 1 m ++ drop 3 m.

Definition character_normalize (text : str) : str :=
  let text := replace_table ligatures text in
  let text := replace_table quotes text in
  sub re_zero_width erase text.

Definition remove_artifacts {U : UnicodeDB} (text : str) : str :=
  let text := sub re_http erase text in
  let text := sub re_www erase text in
  sub re_page erase text.

Definition collapse_blanks (text : str) : str :=
  sub re_blanks (const [SPACE]) text.

Definition trim_newlines (text : str) : str :=
  sub re_newline (const [NEWLINE]) text.

Definition whitespace_normalize (text : str) : str :=
  let text := collapse_blanks text in
  trim_newlines text.

Definition hyphen_fix (text : str) : str :=
  sub re_hyphen_break groups_1_2 text.

Definition normalize {U : UnicodeDB} (text : str) : str :=
  hyphen_fix (whitespace_normalize
                (remove_artifacts (character_normalize text))).

(** *** Shapes of text used in the analysis *)

(** The length of the longest prefix of [s] in the class [cls]. *)
Fixpoint run (cls : char -> bool) (s : str) : nat :=
  match s with
  | c :: r => if cls c then S (run cls r) else 0
  | [] => 0
  end.

(** No two neighbours of [s] form a pair in [bad]. *)
Fixpoint no_adjacent (bad : char -> char -> bool) (s : str) : Prop :=
  match s with
  | a :: r =>
      match r with
      | b :: _ => bad a b = false
      | [] => True
      end /\ no_adjacent bad r
  | [] => True
  end.

Definition space_space (a b : char) : bool :=
  ((a =? SPACE) && (b =? SPACE))%N.

(** two spaces, or a space next to a newline *)
Definition untidy_pair (a b : char) : bool :=
  ((a =? SPACE) && (b =? SPACE) || (a =? SPACE) && (b =? NEWLINE)
   || (a =? NEWLINE) && (b =? SPACE))%N.

(** What whitespace normalization leaves: no tab, no run of spaces, no
    space around a newline. *)
Definition tidy (s : str) : Prop :=
  Forall (fun c => c <> TAB) s /\ no_adjacent untidy_pair s.

(** A character that character normalization neither replaces nor
    removes. *)
Definition plain (c : char) : Prop :=
  ~ In c (List.map fst ligatures) /\ ~ In c (List.map fst quotes)
  /\ zero_width c = false.

End Normalizer.

(** ** DictionaryRepairer (BLOCK 4, join and split passes) *)

Module Repairer.

(** *** Join pass *)

(** The variables of the [while] loop: [i], [fixed] and the two
    counters. *)
Record join_state := {
  js_i : nat;
  js_fixed : list str;
  js_broken : nat;
  js_joins : nat
}.

Definition join_init : join_state :=
  {| js_i := 0; js_fixed := []; js_broken := 0; js_joins := 0 |}.

(** One run of the loop body.  The loop enters it with
    [i < len(tokens)], so [tokens[i]] exists; [tokens !! (i+1)] is
    [Some b] exactly when [i+1 < len(tokens)]. *)
Definition join_step {U : UnicodeDB} (word_set : gset str)
    (tokens : list str) (st : join_state) : join_state :=
  let i := js_i st in
  match tokens !! i with
  | None => st
  | Some a =>
      let keep broken :=
        {| js_i := i + 1; js_fixed := js_fixed st ++ [a];
           js_broken := broken; js_joins := js_joins st |} in
      match tokens !! (i + 1) with
      | Some b =>
          if (length a <=? 2) && isalpha a && isalpha b
          then
            let merged := lower (a ++ b) in
            if bool_decide (merged ∈ word_set)
            then {| js_i := i + 2; js_fixed := js_fixed st ++ [a ++ b];
                    js_broken := js_broken st + 1;
                    js_joins := js_joins st + 1 |}
            else keep (js_broken st + 1)
          else keep (js_broken st)
      | None => keep (js_broken st)
      end
  end.

(** [while i < len(tokens): body]; every iteration advances [i], so
    [len(tokens)] iterations always suffice. *)
Fixpoint join_while {U : UnicodeDB} (fuel : nat) (word_set : gset str)
    (tokens : list str) (st : join_state) : join_state :=
  match fuel with
  | O => st
  | S fuel' =>
      if js_i st <? length tokens
      then join_while fuel' word_set tokens (join_step word_set tokens st)
      else st
  end.

Definition join_tokens {U : UnicodeDB} (word_set : gset str)
    (tokens : list str) : join_state :=
  join_while (length tokens) word_set tokens join_init.

(** The join pass: the new text, [broken_pairs] and [joins].
    [if word_set:] holds exactly when the set is not empty. *)
Definition join_pass {U : UnicodeDB} (word_set : gset str) (text : str)
    : str * nat * nat :=
  if decide (word_set = ∅) then (text, 0, 0)
  else
    let st := join_tokens word_set (split text) in
    (join [SPACE] (js_fixed st), js_broken st, js_joins st).

(** *** Split pass *)

(** [for cut in range(1, len(tok))] with its [break]: the first cut, in
    the order of [cuts], whose two halves of [low] are both known. *)
Fixpoint split_search (word_set : gset str) (low : str)
    (cuts : list nat) : option str :=
  match cuts with
  | [] => None
  | cut :: cuts' =>
      let left := take cut low in
      let right := drop cut low in
      if bool_decide (left ∈ word_set) && bool_decide (right ∈ word_set)
      then Some (left ++ [SPACE] ++ right)
      else split_search word_set low cuts'
  end.

(** The body of [for tok in tokens]: what is appended to [fixed], and
    whether [split_fixes] is incremented. *)
Definition split_token {U : UnicodeDB} (word_set : gset str) (tok : str)
    : str * bool :=
  let low := lower tok in
  if bool_decide (low ∈ word_set) || negb (isalpha tok)
     || (length tok <? 4)
  then (tok, false)
  else
    match split_search word_set low (seq 1 (length tok - 1)) with
    | Some repaired => (repaired, true)
    | None => (tok, false)
    end.

Definition split_tokens {U : UnicodeDB} (word_set : gset str)
    (tokens : list str) : list str * nat :=
  List.fold_left
    (fun acc tok =>
       let '(piece, fixed_one) := split_token word_set tok in
       (fst acc ++ [piece], if fixed_one then snd acc + 1 else snd acc))
    tokens ([], 0).

Definition split_pass {U : UnicodeDB} (word_set : gset str) (text : str)
    : str * nat :=
  if decide (word_set = ∅) then (text, 0)
  else
    let '(fixed, split_fixes) := split_tokens word_set (split text) in
    (join [SPACE] fixed, split_fixes).

(** Both passes in sequence, with the three counters. *)
Record repaired := {
  rp_text : str;
  rp_broken_pairs : nat;
  rp_joins : nat;
  rp_split_fixes : nat
}.

Definition repair {U : UnicodeDB} (word_set : gset str) (text : str)
    : repaired :=
  let '(text1, broken_pairs, joins) := join_pass word_set text in
  let '(text2, split_fixes) := split_pass word_set text1 in
  {| rp_text := text2; rp_broken_pairs := broken_pairs;
     rp_joins := joins; rp_split_fixes := split_fixes |}.

(** *** The passes as the specification words them *)

(** A broken-pair candidate that the lexicon confirms. *)
Definition mergeable {U : UnicodeDB} (word_set : gset str) (a b : str)
    : Prop :=
  length a <= 2 /\ isalpha a = true /\ isalpha b = true
  /\ lower (a ++ b) ∈ word_set.

(** Left-to-right scan: merge [a], [b] and advance by two when the pair
    is mergeable, otherwise keep [a] and advance by one. *)
Inductive joins_to {U : UnicodeDB} (word_set : gset str)
    : list str -> list str -> Prop :=
| joins_nil : joins_to word_set [] []
| joins_last a : joins_to word_set [a] [a]
| joins_merge a b rest out :
    mergeable word_set a b ->
    joins_to word_set rest out ->
    joins_to word_set (a :: b :: rest) ((a ++ b) :: out)
| joins_keep a b rest out :
    ~ mergeable word_set a b ->
    joins_to word_set (b :: rest) out ->
    joins_to word_set (a :: b :: rest) (a :: out).

(** A token the split pass looks at. *)
Definition splittable {U : UnicodeDB} (word_set : gset str) (tok : str)
    : Prop :=
  (lower tok ∉ word_set) /\ isalpha tok = true /\ 4 <= length tok.

(** A cut position both of whose lowercase halves are in the lexicon. *)
Definition valid_cut {U : UnicodeDB} (word_set : gset str) (tok : str)
    (cut : nat) : Prop :=
  (1 <= cut < length tok)
  /\ take cut (lower tok) ∈ word_set
  /\ drop cut (lower tok) ∈ word_set.

End Repairer.

(** ** ChunkAssembler (BLOCKS 5 and 6, word-bound chunks) *)

Module Assembler.

Definition CHUNK_WORDS : nat := 180.
Definition OVERLAP_WORDS : nat := 30.
Definition MIN_WORDS : nat := 80.

(** The body of [for sent in good]: the state is [chunks] and
    [current_words]. *)
Definition chunk_step (st : list str * list str) (sent : str)
    : list str * list str :=
  let '(chunks, current_words) := st in
  let w := split sent in
  if length current_words + length w <=? CHUNK_WORDS
  then (chunks, current_words ++ w)
  else
    (if MIN_WORDS <? length current_words
     then chunks ++ [join [SPACE] current_words] else chunks,
     tail_slice OVERLAP_WORDS current_words ++ w).

Definition chunk_loop (st : list str * list str) (good : list str)
    : list str * list str :=
  List.fold_left chunk_step good st.

(** The last chunk. *)
Definition flush (st : list str * list str) : list str :=
  let '(chunks, current_words) := st in
  if MIN_WORDS <? length current_words
  then chunks ++ [join [SPACE] current_words] else chunks.

(** [chunks] at the end of BLOCKS 5 and 6, from the kept sentences. *)
Definition assemble (good : list str) : list str :=
  flush (chunk_loop ([], []) good).

(** The same loop on word lists, keeping each emitted buffer as the
    list of its words; [assemble] is its image under [join].  The loop
    only measures, slices and concatenates its lists, so it is written
    for lists of any elements: it runs on the words of the sentences,
    and as well on the positions of these words in the text, which tell
    the occurrences of a repeated word apart. *)
Definition words_step {A} (st : list (list A) * list A) (w : list A)
    : list (list A) * list A :=
  let '(emitted, current_words) := st in
  if length current_words + length w <=? CHUNK_WORDS
  then (emitted, current_words ++ w)
  else
    (if MIN_WORDS <? length current_words
     then emitted ++ [current_words] else emitted,
     tail_slice OVERLAP_WORDS current_words ++ w).

Definition words_loop {A} (st : list (list A) * list A)
    (ws : list (list A)) : list (list A) * list A :=
  List.fold_left words_step ws st.

Definition words_flush {A} (st : list (list A) * list A)
    : list (list A) :=
  let '(emitted, current_words) := st in
  if MIN_WORDS <? length current_words
  then emitted ++ [current_words] else emitted.

Definition assemble_words {A} (sentences : list (list A))
    : list (list A) :=
  words_flush (words_loop ([], []) sentences).

Definition join_all (emitted : list (list str)) : list str :=
  List.map (join [SPACE]) emitted.

(** No buffer is lost between the emission of chunk [k] and that of
    chunk [k + 1]: while [k + 1] chunks have been emitted, a sentence
    that overflows the buffer finds more than [MIN_WORDS] words in it,
    so that the buffer is emitted and not cut down unseen. *)
Definition no_drop_after {A} (k : nat) (ws : list (list A)) : Prop :=
  forall before w after,
    ws = before ++ w :: after ->
    let st := words_loop ([], []) before in
    length (fst st) = k + 1 ->
    CHUNK_WORDS < length (snd st) + length w ->
    MIN_WORDS < length (snd st).

(** The loop invariant behind the overlap carry-over, for the state
    reached after the sentences [read]: the emitted buffers have more
    than [MIN_WORDS] words; two consecutive ones overlap when no buffer
    was lost between them; and the buffer starts with the tail of the
    last emitted one when none was lost since. *)
Definition carry_inv {A} (read : list (list A))
    (st : list (list A) * list A) : Prop :=
  Forall (fun b => MIN_WORDS < length b) (fst st)
  /\ (forall k b1 b2,
        fst st !! k = Some b1 -> fst st !! (k + 1) = Some b2 ->
        no_drop_after k read ->
        take OVERLAP_WORDS b2 = tail_slice OVERLAP_WORDS b1)
  /\ (forall b,
        last (fst st) = Some b ->
        no_drop_after (length (fst st) - 1) read ->
        take OVERLAP_WORDS (snd st) = tail_slice OVERLAP_WORDS b).

(** The positions of the words of the text: sentence by sentence, each
    word is replaced by its number, the words being counted from
    [start] in the order of the text. *)
Fixpoint number_from {A} (start : nat) (ws : list (list A))
    : list (list nat) :=
  match ws with
  | [] => []
  | w :: rest => seq start (length w) :: number_from (start + length w) rest
  end.

Definition positions {A} (ws : list (list A)) : list (list nat) :=
  number_from 0 ws.

(** [b] is the words found at the positions [p] of the text [all]. *)
Definition words_at {A} (all : list A) (p : list nat) (b : list A) : Prop :=
  Forall2 (fun i x => all !! i = Some x) p b.

End Assembler.

(** ** DatasetExporter (BLOCK 8) *)

(** The [random] module.  [random.seed(a)] replaces the state of the
    process-wide generator by one that depends on [a] only;
    [random.sample(population, 2)] picks two positions of the population
    and returns the elements found there; [random.shuffle] reorders a
    list.  The generator is the interpreter's, not the repository's, so it
    is an interface. *)
Class PyRandom := {
  rng : Type;
  seed : Z -> rng;
  (** the two positions picked in a population of the given length *)
  sample2 : nat -> rng -> (nat * nat) * rng;
  shuffle : forall A : Type, list A -> rng -> list A * rng
}.

(** What the library documents of [random.sample(population, 2)] when
    the population has at least two elements: two different positions of
    the population. *)
Definition sample_contract (R : PyRandom) : Prop :=
  forall (n : nat) (g : rng),
    2 <= n ->
    let '(i, j, _) := sample2 n g in i < n /\ j < n /\ i <> j.

Module Exporter.

Record record := {
  r_id : nat;
  r_text : str;
  r_word_count : nat
}.

Record instruction := {
  i_instruction : str;
  i_input : str;
  i_output : str
}.

Record pair := {
  text_a : str;
  text_b : str;
  label : Z
}.

Record artifacts := {
  a_chunks : list str;
  a_records : list record;
  a_corpus : str;
  a_instruct : list instruction;
  a_pairs : list pair;
  a_train : list record;
  a_val : list record;
  a_test : list record
}.

(** The replacements applied to every loaded chunk. *)
Definition clean_chunk (c : str) : str :=
  replace1 8212%N [45%N]
    (replace1 8217%N [39%N]
       (replace1 8216%N [39%N]
          (replace1 8221%N [34%N] (replace1 8220%N [34%N] c)))).

Definition make_records (chunks : list str) : list record :=
  imap (fun i c =>
          {| r_id := i; r_text := c; r_word_count := length (split c) |})
       chunks.

Definition make_corpus (chunks : list str) : str :=
  List.concat (List.map (fun c => c ++ [NEWLINE; NEWLINE]) chunks).

Definition INSTRUCTION : str :=
  lit "Study the following passage and learn its content.".

Definition make_instruct (records : list record) : list instruction :=
  List.map (fun r => {| i_instruction := INSTRUCTION; i_input := [];
                        i_output := r_text r |}) records.

(** [for i in range(len(chunks) - 1)]: [chunks[i]] and [chunks[i + 1]]
    with label 1.  An index out of range raises, which is [None]. *)
Definition positive_pair (chunks : list str) (i : nat) : option pair :=
  a ← chunks !! i;
  b ← chunks !! (i + 1);
  Some {| text_a := a; text_b := b; label := 1 |}.

Definition positive_pairs (chunks : list str) : option (list pair) :=
  mapM (positive_pair chunks) (seq 0 (length chunks - 1)).

(** [for _ in range(count)]: [a, b = random.sample(chunks, 2)] with
    label 0. *)
Fixpoint negative_pairs {R : PyRandom} (chunks : list str) (count : nat)
    (g : rng) : option (list pair * rng) :=
  match count with
  | O => Some ([], g)
  | S count' =>
      let '(i, j, g1) := sample2 (length chunks) g in
      a ← chunks !! i;
      b ← chunks !! j;
      '(rest, g2) ← negative_pairs chunks count' g1;
      Some ({| text_a := a; text_b := b; label := 0 |} :: rest, g2)
  end.

(** [int(n * 0.8)] and [int(n * 0.9)]: the truncated double products,
    which for the length of a list are the integer quotients of [8 n]
    and [9 n] by 10. *)
Definition train_end (n : nat) : nat := n * 8 / 10.
Definition val_end (n : nat) : nat := n * 9 / 10.

(** BLOCK 8 from the raw chunks, started with the process-wide
    generator in state [g0]; the result carries the state it leaves. *)
Definition export {R : PyRandom} (raw_chunks : list str) (g0 : rng)
    : option (artifacts * rng) :=
  let chunks := List.map clean_chunk raw_chunks in
  let records := make_records chunks in
  positives ← positive_pairs chunks;
  let g1 := seed 42 in
  '(negatives, g2) ←
    (if 2 <=? length chunks
     then negative_pairs chunks (length chunks) g1
     else Some ([], g1));
  let pairs := positives ++ negatives in
  let g3 := seed 42 in
  let '(shuffled, g4) := shuffle record records g3 in
  let n := length shuffled in
  Some ({| a_chunks := chunks;
           a_records := records;
           a_corpus := make_corpus chunks;
           a_instruct := make_instruct records;
           a_pairs := pairs;
           a_train := take (train_end n) shuffled;
           a_val := drop (train_end n) (take (val_end n) shuffled);
           a_test := drop (val_end n) shuffled |}, g4).

(** The pair records with label 0. *)
Definition negatives_of (pairs : list pair) : list pair :=
  List.filter (fun p => (label p =? 0)%Z) pairs.

(** A pair record whose two texts sit at two different positions of
    [chunks]. *)
Definition from_distinct_positions (chunks : list str) (p : pair) : Prop :=
  exists i j, i <> j /\ chunks !! i = Some (text_a p)
              /\ chunks !! j = Some (text_b p).

End Exporter.

(** A small generator in place of the interpreter's, to run the exporter:
    a linear congruential state, [random.sample]'s pool selection for two
    elements, and a rotation for [random.shuffle]. *)
Module ToyRandom.

Definition next (g : N) : N := ((g * 1103515245 + 12345) mod 2147483648)%N.

Definition randbelow (n : nat) (g : N) : nat :=
  N.to_nat ((g / 65536) mod (N.of_nat n))%N.

Definition toy_sample2 (n : nat) (g : N) : (nat * nat) * N :=
  let g1 := next g in
  let i := randbelow n g1 in
  let g2 := next g1 in
  let j := randbelow (n - 1) g2 in
  ((i, if j =? i then n - 1 else j), g2).

Definition toy_shuffle (A : Type) (l : list A) (g : N) : list A * N :=
  let g1 := next g in
  let k := randbelow (length l) g1 in
  (drop k l ++ take k l, g1).

Definition toy : PyRandom := {|
  rng := N;
  seed a := Z.to_N (Z.abs a);
  sample2 := toy_sample2;
  shuffle := toy_shuffle
|}.

End ToyRandom.

(** ** Sample sentences and chunks

    Sentences of pairwise different words, to run the assembler and the
    exporter: word number [k] is the letter w followed by the three
    decimal digits of [k] written with the letters a to j, and a sentence
    ends with a full stop, which belongs to its last word. *)
Module Samples.

Definition word_no (k : nat) : str :=
  [ 119%N; N.of_nat (97 + k / 100 mod 10);
    N.of_nat (97 + k / 10 mod 10); N.of_nat (97 + k mod 10) ].

Definition FULL_STOP : char := 46%N.

(** the [n] words of the sentence that starts at word number [start] *)
Definition sentence_words (start n : nat) : list str :=
  List.map word_no (seq start (n - 1))
  ++ [word_no (start + n - 1) ++ [FULL_STOP]].

Definition sentence (start n : nat) : str :=
  join [SPACE] (sentence_words start n).

(** Two chunks as the assembler emits them for sentences of 60, 60 and
    70 words: 120 words, then the last 30 of these and 70 more. *)
Definition chunk_a : str :=
  join [SPACE] (sentence_words 0 60 ++ sentence_words 60 60).
Definition chunk_b : str :=
  join [SPACE] (drop 30 (sentence_words 60 60) ++ sentence_words 120 70).

End Samples.

(** ** Shapes of chunks *)

Module ChunkShapes.

(** [b] is a run of consecutive elements of [l]. *)
Definition segment_of {A} (b l : list A) : Prop :=
  exists before after, l = before ++ b ++ after.

(** The longest a chunk can be when no sentence has more than [m] words:
    a full buffer, or an overlap tail followed by one sentence. *)
Definition chunk_bound (m : nat) : nat :=
  Nat.max Assembler.CHUNK_WORDS (Assembler.OVERLAP_WORDS + m).

End ChunkShapes.

(** ** The rest of the [random] contract *)

(** What the library documents of [random.shuffle]: the list is
    reordered in place, so the result has the same elements as before. *)
Definition shuffle_contract (R : PyRandom) : Prop :=
  forall (A : Type) (l : list A) (g : rng),
    Permutation (fst (shuffle A l g)) l.

(** ** QualityReporter (BLOCK 9) *)

Module Reporter.
Import Exporter.

Definition word_counts (chunks : list str) : list nat :=
  List.map (fun c => length (split c)) chunks.

Definition char_counts (chunks : list str) : list nat :=
  List.map (fun c => length c) chunks.

(** [min(counts)] and [max(counts)] for a list that is not empty, and
    the zeros of the [else] branch for an empty one.  The mean and the
    median of the report are floating-point values and are left out. *)
Definition min_of (counts : list nat) : nat :=
  match counts with
  | [] => 0
  | x :: l => List.fold_left Nat.min l x
  end.

Definition max_of (counts : list nat) : nat :=
  match counts with
  | [] => 0
  | x :: l => List.fold_left Nat.max l x
  end.

(** [sum(1 for w in word_counts if w < 80)] *)
Definition short_chunks (chunks : list str) : nat :=
  length (List.filter (fun w => w <? 80) (word_counts chunks)).

(** [len(chunks) - len(set(chunks))] *)
Definition duplicate_chunks (chunks : list str) : nat :=
  length chunks - size (list_to_set chunks : gset str).

(** [vocab]: every token of every lowercased chunk *)
Definition vocab {U : UnicodeDB} (chunks : list str) : gset str :=
  list_to_set (List.concat (List.map (fun c => split (lower c)) chunks)).

(** [Counter(labels)] as a dictionary: a label is a key once it has been
    seen, with the number of times it has been seen. *)
Definition counter (labels : list Z) : gmap Z nat :=
  List.fold_left
    (fun m k => <[k := S (default 0 (m !! k))]> m) labels ∅.

Definition pair_label_balance (pairs : list pair) : gmap Z nat :=
  counter (List.map label pairs).

Record report := {
  total_chunks : nat;
  total_records : nat;
  word_min : nat;
  word_max : nat;
  char_min : nat;
  char_max : nat;
  short_chunks_under_80w : nat;
  report_duplicate_chunks : nat;
  vocab_size_estimate : nat;
  report_pair_label_balance : gmap Z nat;
  split_train : nat;
  split_val : nat;
  split_test : nat
}.

(** The report from the files BLOCK 9 loads: the chunks as saved by the
    assembler, and the records, pairs and splits saved by the export. *)
Definition build_report {U : UnicodeDB} (chunks : list str)
    (a : artifacts) : report :=
  {| total_chunks := length chunks;
     total_records := length (a_records a);
     word_min := min_of (word_counts chunks);
     word_max := max_of (word_counts chunks);
     char_min := min_of (char_counts chunks);
     char_max := max_of (char_counts chunks);
     short_chunks_under_80w := short_chunks chunks;
     report_duplicate_chunks := duplicate_chunks chunks;
     vocab_size_estimate := size (vocab chunks);
     report_pair_label_balance := pair_label_balance (a_pairs a);
     split_train := length (a_train a);
     split_val := length (a_val a);
     split_test := length (a_test a) |}.

(** BLOCK 8 followed by BLOCK 9 on the same [chunks.json]. *)
Definition export_and_report {U : UnicodeDB} {R : PyRandom}
    (chunks : list str) (g0 : rng) : option report :=
  '(a, _) ← export chunks g0;
  Some (build_report chunks a).

End Reporter.

(** ** SentenceSegmenter and the whole chunking stage (BLOCKS 5 and 6) *)

Module Segmenter.
Import Normalizer.

(** The replacements made on the cleaned text before it is split. *)
Definition unquote (text : str) : str :=
  replace1 8230%N (lit "...")
    (replace1 8212%N [45%N]
       (replace1 8217%N [39%N]
          (replace1 8216%N [39%N]
             (replace1 8221%N [34%N] (replace1 8220%N [34%N] text))))).

(** [[.!?]] *)
Definition sentence_end (c : char) : bool :=
  ((c =? 46) || (c =? 33) || (c =? 63))%N.

(** [re.split(r'(?<=[.!?])\s+', text)].  A separator is a maximal run of
    whitespace whose first character follows a sentence end.  [InGap] is
    the scan inside such a run; [InText after_end] is the scan of a
    piece, [after_end] telling whether the last character read is a
    sentence end.  [acc] is the piece being read. *)
Inductive scan := InGap | InText (after_end : bool).

Fixpoint split_sentences_from (mode : scan) (acc : str) (s : str)
    : list str :=
  match s with
  | [] => [acc]
  | c :: r =>
      match mode with
      | InGap =>
          if isspace c then split_sentences_from InGap [] r
          else split_sentences_from (InText (sentence_end c)) [c] r
      | InText after_end =>
          if after_end && isspace c
          then acc :: split_sentences_from InGap [] r
          else split_sentences_from (InText (sentence_end c))
                 (acc ++ [c]) r
      end
  end.

Definition split_sentences (text : str) : list str :=
  split_sentences_from (InText false) [] text.

(** [s.strip()] *)
Definition lstrip (s : str) : str := drop (run isspace s) s.
Definition rstrip (s : str) : str :=
  take (length s - run isspace (reverse s)) s.
Definition strip (s : str) : str := rstrip (lstrip s).

(** [sum(not c.isalnum() and not c.isspace() for c in s)]; [isalnum_char]
    is the character test behind [str.isalnum], from the interpreter's
    Unicode database. *)
Definition symbol_count (isalnum_char : char -> bool) (s : str) : nat :=
  length (List.filter (fun c => negb (isalnum_char c) && negb (isspace c)) s).

(** The two tests of the loop after the strip.  The ratio test
    [symbols / max(len(s), 1) > 0.25] is reached with [len(s) >= 40] and
    is the comparison [len(s) < 4 * symbols] of integers. *)
Definition keeps (isalnum_char : char -> bool) (s : str) : bool :=
  negb (length s <? 40)
  && negb (length s <? 4 * symbol_count isalnum_char s).

(** [good] *)
Definition good_sentences (isalnum_char : char -> bool) (text : str)
    : list str :=
  List.filter (keeps isalnum_char) (List.map strip (split_sentences text)).

(** [chunks] from the cleaned text: BLOCKS 5 and 6. *)
Definition chunk_text (isalnum_char : char -> bool) (text : str)
    : list str :=
  Assembler.assemble (good_sentences isalnum_char (unquote text)).

(** [str.isalnum] on ASCII, used to evaluate the stage on ASCII text. *)
Definition ascii_alnum (c : char) : bool :=
  ascii_upper c || ascii_lower c || ascii_digit c.

(** A cleaned text of three sentences of 60, 60 and 70 words. *)
Definition sample_text : str :=
  Samples.sentence 0 60 ++ [NEWLINE]
  ++ Samples.sentence 60 60 ++ [SPACE; SPACE] ++ Samples.sentence 120 70.

End Segmenter.

(** ** Boundary protection (BLOCK 4, after the repairs) *)

Module Cleaner.
Import Re.

Definition ascii_letter (c : char) : bool := ascii_upper c || ascii_lower c.

(** [([a-z])([A-Z])] *)
Definition re_lower_upper : pattern :=
  [ (ascii_lower, One); (ascii_upper, One) ].

(** [([A-Za-z])(\d)] *)
Definition re_letter_digit {U : UnicodeDB} : pattern :=
  [ (ascii_letter, One); (isdecimal_char, One) ].

(** [(\d)([A-Za-z])] *)
Definition re_digit_letter {U : UnicodeDB} : pattern :=
  [ (isdecimal_char, One); (ascii_letter, One) ].

(** the template [\1 \2] for a match of two characters *)
Definition spaced (m : str) : str := take 1 m ++ [SPACE] ++ drop 1 m.

Definition protect_boundaries {U : UnicodeDB} (text : str) : str :=
  let text := sub re_lower_upper spaced text in
  let text := sub re_letter_digit spaced text in
  sub re_digit_letter spaced text.




End Cleaner.

(** ** Loading the dictionary (BLOCK 4) *)

Module Lexicon.
Import Segmenter.

(** One turn of the loop over the lines of the dictionary file:
    [w = line.strip().split()[0].lower()], then [word_set.add(w)] when
    [w] is not empty.  [None] is the [IndexError] that [split()[0]]
    raises on a line without a token; nothing in the pipeline catches
    it. *)
Definition add_line {U : UnicodeDB} (word_set : gset str) (line : str)
    : option (gset str) :=
  match split (strip line) with
  | [] => None
  | first :: _ =>
      let w := lower first in
      Some (match w with
            | [] => word_set
            | _ => {[ w ]} ∪ word_set
            end)
  end.

Fixpoint load_from {U : UnicodeDB} (word_set : gset str)
    (lines : list str) : option (gset str) :=
  match lines with
  | [] => Some word_set
  | line :: rest =>
      word_set ← add_line word_set line;
      load_from word_set rest
  end.

(** [word_set] after the loading; [lines] is [None] when the file does
    not exist. *)
Definition load {U : UnicodeDB} (lines : option (list str))
    : option (gset str) :=
  match lines with
  | Some lines => load_from ∅ lines
  | None => Some ∅
  end.

(** A line without a token: empty or all whitespace. *)
Definition blank_line (line : str) : Prop :=
  Forall (fun c => isspace c = true) line.

(** The entry a line contributes: its first token, lowercased. *)
Definition entry_of {U : UnicodeDB} (line : str) (w : str) : Prop :=
  exists first rest, split line = first :: rest /\ lower first = w.

End Lexicon.

(** ** Drop-cap repair (BLOCK 4) *)

Module DropCap.
Import Re Normalizer.

(** [[\n\.!\?]] *)
Definition boundary_char (c : char) : bool :=
  ((c =? NEWLINE) || (c =? 46) || (c =? 33) || (c =? 63))%N.

(** [([a-z])\s+([a-z]+)]: the pattern after the alternative [^] *)
Definition re_at_start : pattern :=
  [ (ascii_lower, One); (isspace, Plus); (ascii_lower, Plus) ].

(** [[\n\.!\?]\s+([a-z])\s+([a-z]+)]: the pattern after the other
    alternative *)
Definition re_after_boundary : pattern :=
  [ (boundary_char, One); (isspace, Plus) ] ++ re_at_start.

(** What replaces group 2: [In], [The], [I], or the letter in upper
    case. *)
Definition capital (first : char) : str :=
  if (first =? 110)%N then lit "In"
  else if (first =? 116)%N then lit "The"
  else if (first =? 105)%N then lit "I"
  else [(first - 32)%N].

(** [_dropcap_repl] on a match of [re_at_start]: group 1 is empty, group
    2 the first character, group 3 what follows the whitespace. *)
Definition repl_at_start (m : str) : str :=
  match m with
  | first :: r => capital first ++ [SPACE] ++ drop (run isspace r) r
  | [] => []
  end.

(** [_dropcap_repl] on a match of [re_after_boundary]: group 1 is the
    boundary character and the whitespace after it. *)
Definition repl_after_boundary (m : str) : str :=
  let k := 1 + run isspace (drop 1 m) in
  take k m ++ repl_at_start (drop k m).

(** The number of matches that [sub_from] replaces: the number of calls
    of the replacement function. *)
Fixpoint count_from (p : pattern) (skip : nat) (s : str) : nat :=
  match s with
  | [] => 0
  | c :: r =>
      match skip with
      | S k => count_from p k r
      | O =>
          match re_match p s with
          | Some (S n) => S (count_from p n r)
          | _ => count_from p 0 r
          end
      end
  end.

(** [pattern.sub(_dropcap_repl, text)] with the counter
    [dropcap_fixes].  The pattern has no [re.M]: the alternative [^]
    matches at the start of the text only, and is tried first there. *)
Definition dropcap (text : str) : str * nat :=
  match re_match re_at_start text with
  | Some (S n) =>
      let rest := drop (S n) text in
      (repl_at_start (take (S n) text)
         ++ sub re_after_boundary repl_after_boundary rest,
       S (count_from re_after_boundary 0 rest))
  | _ =>
      (sub re_after_boundary repl_after_boundary text,
       count_from re_after_boundary 0 text)
  end.

(** What the repair does to a token: nothing, or a token of one
    lowercase letter becomes its capital form. *)
Definition repaired (t t' : str) : Prop :=
  t' = t \/ exists c, ascii_lower c = true /\ t = [c] /\ t' = capital c.

(** The token that [split] ends at a whitespace character. *)
Definition emit (acc : str) : list str :=
  match acc with [] => [] | _ => [acc] end.

(** The number of positions at which two token lists differ. *)
Fixpoint changed (l l' : list str) : nat :=
  match l, l' with
  | t :: l, t' :: l' => (if decide (t = t') then 0 else 1) + changed l l'
  | _, _ => 0
  end.

End DropCap.

(** ** BLOCK 4 as a whole *)

Module Block4.

(** The cleaned text: normalization, the two dictionary passes, the
    drop-cap repair and the boundary protection, in this order. *)
Definition clean {U : UnicodeDB} (word_set : gset str) (text : str)
    : str :=
  let text := Normalizer.normalize text in
  let text := Repairer.rp_text (Repairer.repair word_set text) in
  let text := fst (DropCap.dropcap text) in
  Cleaner.protect_boundaries text.


End Block4.

(** ** From the extracted text to the report (BLOCKS 4 to 9) *)

Module Pipeline.

(** The part of [run_pipeline] after the extraction, on the contents of
    the files it reads: the lines of the dictionary file ([None] when it
    does not exist) and the extracted text.  Each block reads what the
    block before it has saved; the files are taken to be read back as
    they were written.  [None] is an exception that ends the run. *)
Definition run_text {U : UnicodeDB} {R : PyRandom}
    (isalnum_char : char -> bool) (dictionary : option (list str))
    (raw_text : str) (g0 : rng) : option Reporter.report :=
  word_set ← Lexicon.load dictionary;
  let cleaned := Block4.clean word_set raw_text in
  let chunks := Segmenter.chunk_text isalnum_char cleaned in
  Reporter.export_and_report chunks g0.

End Pipeline.

(** * Properties *)

(** A decidable closed proposition, settled by evaluating its decision. *)
Ltac decide_by_compute :=
  refine (bool_decide_unpack _ _); vm_compute; exact I.

(** ** Splitting and joining *)

Section PyStrFacts.

Lemma split_from_nonspace (w acc rest : str) :
  Forall (fun c => isspace c = false) w ->
  split_from acc (w ++ rest) = split_from (acc ++ w) rest.
Proof.
  intros Hw. revert acc.
  induction Hw as [|c w Hc _ IH]; intros acc.
  - now rewrite app_nil_r.
  - cbn. rewrite Hc, IH. now rewrite <- app_assoc.
Qed.

Lemma split_from_words (s acc : str) :
  Forall (fun c => isspace c = false) acc ->
  Forall is_word (split_from acc s).
Proof.
  revert acc. induction s as [|c r IH]; intros acc Hacc; cbn.
  - destruct acc; constructor; [|constructor]. split; [discriminate|exact Hacc].
  - destruct (isspace c) eqn:Hc.
    + destruct acc.
      * apply IH. constructor.
      * constructor; [split; [discriminate|exact Hacc]|].
        apply IH. constructor.
    + apply IH. apply Forall_app. split; [exact Hacc|].
      constructor; [exact Hc|constructor].
Qed.

Lemma split_words (s : str) : Forall is_word (split s).
Proof. apply split_from_words. constructor. Qed.

(** Splitting what [join] made of words gives the words back. *)
Lemma split_join (l : list str) :
  Forall is_word l -> split (join [SPACE] l) = l.
Proof.
  unfold split. induction 1 as [|w l [Hne Hw] Hl IH]; [reflexivity|].
  destruct l as [|w' l].
  - cbn [join]. rewrite <- (app_nil_r w) at 1.
    rewrite split_from_nonspace by exact Hw. cbn.
    destruct w; [contradiction|reflexivity].
  - change (join [SPACE] (w :: w' :: l))
      with (w ++ [SPACE] ++ join [SPACE] (w' :: l)).
    rewrite split_from_nonspace by exact Hw. cbn [app split_from].
    change (isspace SPACE) with true. cbn iota.
    rewrite IH. destruct w; [contradiction|reflexivity].
Qed.

Lemma elem_of_join (sep : str) (l : list str) (c : char) :
  c ∈ join sep l -> c ∈ sep \/ exists w, w ∈ l /\ c ∈ w.
Proof.
  induction l as [|w l IH]; cbn [join].
  - intros Hc. inversion Hc.
  - destruct l as [|w' l].
    + intros Hc. right. exists w. split; [constructor|exact Hc].
    + intros Hc. apply elem_of_app in Hc as [Hc|Hc].
      * right. exists w. split; [constructor|exact Hc].
      * apply elem_of_app in Hc as [Hc|Hc]; [now left|].
        destruct (IH Hc) as [Hs|(x & Hx & Hcx)]; [now left|].
        right. exists x. split; [now constructor|exact Hcx].
Qed.

(** When the only whitespace inside the pieces is the space character,
    so it is in their join by single spaces. *)
Lemma join_pieces_whitespace (l : list str) (c : char) :
  Forall (Forall (fun c => isspace c = true -> c = SPACE)) l ->
  c ∈ join [SPACE] l -> isspace c = true -> c = SPACE.
Proof.
  intros Hl Hc Hs.
  destruct (elem_of_join _ _ _ Hc) as [H|(w & Hw & Hcw)].
  - apply list_elem_of_singleton in H. exact H.
  - rewrite Forall_forall in Hl. specialize (Hl w Hw).
    rewrite Forall_forall in Hl. exact (Hl c Hcw Hs).
Qed.

(** In words joined by single spaces the only whitespace is the
    separating spaces. *)
Lemma join_words_whitespace (l : list str) (c : char) :
  Forall (Forall (fun c => isspace c = false)) l ->
  c ∈ join [SPACE] l -> isspace c = true -> c = SPACE.
Proof.
  intros Hl. apply join_pieces_whitespace.
  eapply Forall_impl; [exact Hl|]. intros w Hw.
  eapply Forall_impl; [exact Hw|]. intros x Hx Hx'. congruence.
Qed.

End PyStrFacts.

(** ** DatasetExporter *)

Section ExporterFacts.
Import Exporter.
Context {R : PyRandom}.

Lemma positive_pair_in_range (chunks : list str) (i : nat) :
  i + 1 < length chunks ->
  exists a b, chunks !! i = Some a /\ chunks !! (i + 1) = Some b
    /\ positive_pair chunks i
       = Some {| text_a := a; text_b := b; label := 1 |}.
Proof.
  intros Hi.
  destruct (lookup_lt_is_Some_2 chunks i) as [a Ha]; [lia|].
  destruct (lookup_lt_is_Some_2 chunks (i + 1)) as [b Hb]; [lia|].
  exists a, b. unfold positive_pair. rewrite Ha, Hb. auto.
Qed.

(** The positive loop never indexes out of range and yields one record
    per consecutive pair, each with label 1. *)
Lemma positive_pairs_total (chunks : list str) :
  exists ps, positive_pairs chunks = Some ps
    /\ length ps = length chunks - 1
    /\ Forall (fun p => label p = 1%Z) ps.
Proof.
  unfold positive_pairs.
  assert (Hall : Forall (fun i => i + 1 < length chunks)
                        (seq 0 (length chunks - 1))).
  { apply Forall_forall. intros i Hi.
    apply list_elem_of_In, in_seq in Hi. lia. }
  assert (Hlen : length (seq 0 (length chunks - 1)) = length chunks - 1)
    by apply length_seq.
  revert Hall Hlen. generalize (seq 0 (length chunks - 1)) as idx.
  intros idx Hall Hlen.
  assert (exists ps, mapM (positive_pair chunks) idx = Some ps
                     /\ length ps = length idx
                     /\ Forall (fun p => label p = 1%Z) ps) as (ps & E & L & F).
  { clear Hlen. induction Hall as [|i idx Hi _ IH].
    - exists []. repeat split; constructor.
    - destruct IH as (ps & E & L & F).
      destruct (positive_pair_in_range chunks i Hi) as (a & b & _ & _ & Ep).
      exists ({| text_a := a; text_b := b; label := 1 |} :: ps).
      cbn. rewrite Ep. cbn. rewrite E. cbn.
      repeat split; [lia | constructor; auto]. }
  exists ps. repeat split; [exact E | lia | exact F].
Qed.

Lemma negative_pairs_total (chunks : list str) (count : nat) (g : rng) :
  sample_contract R ->
  2 <= length chunks ->
  exists ns g', negative_pairs chunks count g = Some (ns, g')
    /\ length ns = count
    /\ Forall (fun p => label p = 0%Z
                        /\ from_distinct_positions chunks p) ns.
Proof.
  intros HR Hn. revert g.
  induction count as [|count IH]; intros g.
  - exists [], g. repeat split; constructor.
  - cbn [negative_pairs].
    specialize (HR (length chunks) g Hn).
    destruct (sample2 (length chunks) g) as [[i j] g1].
    destruct HR as (Hi & Hj & Hij).
    destruct (lookup_lt_is_Some_2 chunks i Hi) as [a Ha].
    destruct (lookup_lt_is_Some_2 chunks j Hj) as [b Hb].
    destruct (IH g1) as (ns & g' & E & L & F).
    exists ({| text_a := a; text_b := b; label := 0 |} :: ns), g'.
    rewrite Ha, Hb. cbn. rewrite E. cbn.
    repeat split; [lia|].
    constructor; [|exact F].
    split; [reflexivity|]. exists i, j. auto.
Qed.

(** The negative loop does not depend on the contract to keep its
    labels: whatever it returns is labelled 0. *)
Lemma negative_pairs_labels (chunks : list str) (count : nat) (g : rng)
    ns g' :
  negative_pairs chunks count g = Some (ns, g') ->
  Forall (fun p => label p = 0%Z) ns.
Proof.
  revert g ns g'. induction count as [|count IH]; intros g ns g' E.
  - cbn in E. injection E as <- <-. constructor.
  - cbn [negative_pairs] in E.
    destruct (sample2 (length chunks) g) as [[i j] g1].
    destruct (chunks !! i) as [a|]; [|discriminate].
    destruct (chunks !! j) as [b|]; [|discriminate].
    cbn in E.
    destruct (negative_pairs chunks count g1) as [[rest g2]|] eqn:E1;
      [|discriminate].
    cbn in E. injection E as <- <-.
    constructor; [reflexivity | eauto].
Qed.

(** The shape of a successful export: the pairs are the positive ones
    followed by what the negative loop returns from the state
    [seed 42]. *)
Lemma export_pairs_shape (raw : list str) (g0 : rng) a g' :
  export raw g0 = Some (a, g') ->
  a_chunks a = List.map clean_chunk raw
  /\ exists ps ns g2,
       positive_pairs (a_chunks a) = Some ps
       /\ (if 2 <=? length (a_chunks a)
           then negative_pairs (a_chunks a) (length (a_chunks a)) (seed 42)
           else Some ([], seed 42)) = Some (ns, g2)
       /\ a_pairs a = ps ++ ns.
Proof.
  unfold export. intros E.
  apply bind_Some in E as (ps & Ep & E).
  apply bind_Some in E as ([ns g2] & En & E).
  destruct (shuffle record (make_records (List.map clean_chunk raw))
              (seed 42)) as [shuffled g4].
  injection E as <- <-. cbn [a_chunks a_pairs].
  split; [reflexivity|]. exists ps, ns, g2. auto.
Qed.

(** Under the contract of [random.sample] the export always returns. *)
Lemma export_total (raw : list str) (g0 : rng) :
  sample_contract R ->
  exists a g', export raw g0 = Some (a, g').
Proof.
  intros HR. unfold export.
  destruct (positive_pairs_total (List.map clean_chunk raw))
    as (ps & Ep & _ & _).
  rewrite Ep.
  assert (exists ns g2,
             (if 2 <=? length (List.map clean_chunk raw)
              then negative_pairs (List.map clean_chunk raw)
                     (length (List.map clean_chunk raw)) (seed 42)
              else Some ([], seed 42)) = Some (ns, g2))
    as (ns & g2 & En).
  { destruct (2 <=? length (List.map clean_chunk raw)) eqn:En; [|eauto].
    apply Nat.leb_le in En.
    destruct (negative_pairs_total (List.map clean_chunk raw)
                (length (List.map clean_chunk raw)) (seed 42) HR En)
      as (ns & g2 & E & _ & _).
    eauto. }
  rewrite En. simpl.
  destruct (shuffle record _ (seed 42)) as [shuffled g4]. eauto.
Qed.

End ExporterFacts.

Section ExporterClaims.
Import Exporter Samples.

(** The toy generator honours the contract of [random.sample]. *)
Lemma toy_sample_contract : sample_contract ToyRandom.toy.
Proof.
  intros n g Hn. cbn. unfold ToyRandom.toy_sample2, ToyRandom.randbelow.
  set (g1 := ToyRandom.next g). set (g2 := ToyRandom.next g1).
  assert (H1 : (N.to_nat ((g1 / 65536) mod N.of_nat n) < n)%nat).
  { pose proof (N.mod_lt (g1 / 65536) (N.of_nat n)). lia. }
  assert (H2 : (N.to_nat ((g2 / 65536) mod N.of_nat (n - 1)) < n - 1)%nat).
  { pose proof (N.mod_lt (g2 / 65536) (N.of_nat (n - 1))). lia. }
  destruct (Nat.eqb_spec (N.to_nat ((g2 / 65536) mod N.of_nat (n - 1)))
              (N.to_nat ((g1 / 65536) mod N.of_nat n))); lia.
Qed.

(** C7.  The export returns, and the number of pair records is
    [(len(chunks) - 1) + len(chunks)] when there are at least two chunks
    and [max(len(chunks) - 1, 0)] otherwise. *)
Theorem C7_pair_count {R : PyRandom} (raw_chunks : list str) (g0 : rng) :
  sample_contract R ->
  exists a g',
    export raw_chunks g0 = Some (a, g')
    /\ length (a_chunks a) = length raw_chunks
    /\ let n := Z.of_nat (length (a_chunks a)) in
       Z.of_nat (length (a_pairs a))
       = if (2 <=? n)%Z then ((n - 1) + n)%Z else Z.max (n - 1) 0.
Proof.
  intros HR.
  destruct (export_total raw_chunks g0 HR) as (a & g' & E).
  exists a, g'. split; [exact E|].
  destruct (export_pairs_shape _ _ _ _ E) as (Hc & ps & ns & g2 & Ep & En & ->).
  split; [rewrite Hc; apply length_map|].
  destruct (positive_pairs_total (a_chunks a)) as (ps' & Ep' & Lp & _).
  rewrite Ep in Ep'. injection Ep' as <-.
  cbn zeta. rewrite length_app.
  destruct (2 <=? length (a_chunks a)) eqn:E2.
  - apply Nat.leb_le in E2.
    destruct (negative_pairs_total (a_chunks a) (length (a_chunks a))
                (seed 42) HR E2) as (ns' & g2' & En' & Ln & _).
    rewrite En in En'. injection En' as <- <-.
    destruct (Z.leb_spec 2 (Z.of_nat (length (a_chunks a)))); lia.
  - apply Nat.leb_gt in E2. injection En as <- <-. cbn [length].
    destruct (Z.leb_spec 2 (Z.of_nat (length (a_chunks a)))); lia.
Qed.

Lemma C7_pair_count_witness :
  exists a g',
    export (R := ToyRandom.toy) [chunk_a; chunk_b; chunk_a] 5%N
    = Some (a, g')
    /\ length (a_chunks a) = 3
    /\ let n := Z.of_nat (length (a_chunks a)) in
       Z.of_nat (length (a_pairs a))
       = if (2 <=? n)%Z then ((n - 1) + n)%Z else Z.max (n - 1) 0.
Proof.
  exact (C7_pair_count (R := ToyRandom.toy) [chunk_a; chunk_b; chunk_a]
           5%N toy_sample_contract).
Defined.

(** C8.  Two runs of the export on the same chunks give the same
    negative pairs and the same train / val / test partition, whatever
    state the process-wide generator was in before each run: both
    random stages start from [random.seed(42)]. *)
Theorem C8_two_run_determinism {R : PyRandom} (raw_chunks : list str)
    (g g' : rng) :
  let run1 := fst <$> export raw_chunks g in
  let run2 := fst <$> export raw_chunks g' in
  (fun a => negatives_of (a_pairs a)) <$> run1
  = (fun a => negatives_of (a_pairs a)) <$> run2
  /\ (fun a => (a_train a, a_val a, a_test a)) <$> run1
     = (fun a => (a_train a, a_val a, a_test a)) <$> run2.
Proof.
  assert (E : export raw_chunks g = export raw_chunks g').
  { unfold export.
    destruct (positive_pairs (List.map clean_chunk raw_chunks));
      reflexivity. }
  cbn zeta. rewrite E. split; reflexivity.
Qed.

(** With two chunks there is no choice: under any generator every
    negative pair is made of the two chunks, which are adjacent. *)
Lemma two_chunks_negatives_adjacent {R : PyRandom} (c0 c1 : str)
    (g0 : rng) a g' :
  export [c0; c1] g0 = Some (a, g') ->
  forall p i j,
    p ∈ a_pairs a -> label p = 0%Z ->
    i <> j ->
    a_chunks a !! i = Some (text_a p) ->
    a_chunks a !! j = Some (text_b p) ->
    j = i + 1 \/ i = j + 1.
Proof.
  intros E p i j _ _ Hij Hi Hj.
  destruct (export_pairs_shape _ _ _ _ E) as (Hc & _).
  rewrite Hc in Hi, Hj. cbn [List.map] in Hi, Hj.
  apply lookup_lt_Some in Hi, Hj. cbn [length] in Hi, Hj. lia.
Qed.

(** C1, as amended.  Every pair record with label 0 is made of the
    texts at two different positions of the chunk sequence; the two
    positions may be adjacent. *)
Theorem C1_negatives_from_distinct_positions {R : PyRandom}
    (raw_chunks : list str) (g0 : rng) a g' :
  sample_contract R ->
  2 <= length raw_chunks ->
  export raw_chunks g0 = Some (a, g') ->
  forall p, p ∈ a_pairs a -> label p = 0%Z ->
    from_distinct_positions (a_chunks a) p.
Proof.
  intros HR Hn E p Hp Hl.
  destruct (export_pairs_shape _ _ _ _ E) as (Hc & ps & ns & g2 & Ep & En & Ea).
  assert (Hlen : 2 <= length (a_chunks a))
    by (rewrite Hc, length_map; exact Hn).
  destruct (positive_pairs_total (a_chunks a)) as (ps' & Ep' & _ & Fp).
  rewrite Ep in Ep'. injection Ep' as <-.
  apply Nat.leb_le in Hlen as Hb. rewrite Hb in En.
  destruct (negative_pairs_total (a_chunks a) (length (a_chunks a))
              (seed 42) HR Hlen) as (ns' & g2' & En' & _ & Fn).
  rewrite En in En'. injection En' as <- <-.
  rewrite Ea in Hp. apply elem_of_app in Hp as [Hp|Hp].
  - rewrite Forall_forall in Fp. specialize (Fp p Hp). lia.
  - rewrite Forall_forall in Fn. exact (proj2 (Fn p Hp)).
Qed.

Lemma C1_negatives_from_distinct_positions_witness :
  from_distinct_positions [chunk_a; chunk_b]
    {| text_a := chunk_b; text_b := chunk_a; label := 0 |}.
Proof.
  refine (C1_negatives_from_distinct_positions (R := ToyRandom.toy)
            [chunk_a; chunk_b] 7%N
            {| a_chunks := [chunk_a; chunk_b];
               a_records := _; a_corpus := _; a_instruct := _;
               a_pairs :=
                 [ {| text_a := chunk_a; text_b := chunk_b; label := 1 |};
                   {| text_a := chunk_b; text_b := chunk_a; label := 0 |};
                   {| text_a := chunk_b; text_b := chunk_a; label := 0 |} ];
               a_train := _; a_val := _; a_test := _ |} _
            toy_sample_contract (le_n 2) _
            {| text_a := chunk_b; text_b := chunk_a; label := 0 |} _ eq_refl).
  - vm_compute. reflexivity.
  - apply list_elem_of_In. right. left. reflexivity.
Defined.

Lemma swapped_pair_adjacent (x y : str) :
  x <> y ->
  forall i j,
    [x; y] !! i = Some y -> [x; y] !! j = Some x -> j = i + 1 \/ i = j + 1.
Proof.
  intros Hne i j Hi Hj.
  destruct i as [|[|i]]; destruct j as [|[|j]]; cbn in Hi, Hj;
    try discriminate; try lia.
  - injection Hi as Hi. contradiction.
  - injection Hj as Hj. symmetry in Hj. contradiction.
Qed.

(** C1, as stated, fails: for the two chunks [chunk_a], [chunk_b] (which
    differ) the export produces a pair record with label 0, and its two
    texts can only come from positions 0 and 1, which are consecutive. *)
Lemma C1_counterexample :
  exists a g',
    export (R := ToyRandom.toy) [chunk_a; chunk_b] 7%N = Some (a, g')
    /\ a_chunks a = [chunk_a; chunk_b]
    /\ chunk_a <> chunk_b
    /\ 2 <= length (a_chunks a)
    /\ exists p,
         p ∈ a_pairs a /\ label p = 0%Z
         /\ (exists i j, a_chunks a !! i = Some (text_a p)
                         /\ a_chunks a !! j = Some (text_b p))
         /\ forall i j,
              a_chunks a !! i = Some (text_a p) ->
              a_chunks a !! j = Some (text_b p) ->
              j = i + 1 \/ i = j + 1.
Proof.
  assert (Hne : chunk_a <> chunk_b).
  { intros E. vm_compute in E. discriminate. }
  destruct (export (R := ToyRandom.toy) [chunk_a; chunk_b] 7%N)
    as [[a g']|] eqn:E; [|vm_compute in E; discriminate].
  exists a, g'. split; [reflexivity|].
  assert (Ha : a = {| a_chunks := [chunk_a; chunk_b];
                      a_records := a_records a; a_corpus := a_corpus a;
                      a_instruct := a_instruct a;
                      a_pairs :=
                        [ {| text_a := chunk_a; text_b := chunk_b;
                             label := 1 |};
                          {| text_a := chunk_b; text_b := chunk_a;
                             label := 0 |};
                          {| text_a := chunk_b; text_b := chunk_a;
                             label := 0 |} ];
                      a_train := a_train a; a_val := a_val a;
                      a_test := a_test a |}).
  { vm_compute in E. injection E as <- _. vm_compute. reflexivity. }
  rewrite Ha. cbn [a_chunks a_pairs].
  split; [reflexivity|]. split; [exact Hne|]. split; [cbn; lia|].
  exists {| text_a := chunk_b; text_b := chunk_a; label := 0 |}.
  cbn [text_a text_b label].
  split; [apply list_elem_of_In; right; left; reflexivity|].
  split; [reflexivity|].
  split; [exists 1, 0; split; reflexivity|].
  apply swapped_pair_adjacent, Hne.
Qed.

End ExporterClaims.

(** ** DictionaryRepairer *)

Section RepairerFacts.
Import Repairer.
Context {U : UnicodeDB}.
Variable word_set : gset str.

(** The test of the loop body is the specification's condition. *)
Lemma mergeable_test (a b : str) :
  mergeable word_set a b <->
  (length a <=? 2) && isalpha a && isalpha b = true
  /\ bool_decide (lower (a ++ b) ∈ word_set) = true.
Proof.
  unfold mergeable.
  rewrite !andb_true_iff, Nat.leb_le, bool_decide_eq_true. tauto.
Qed.

Lemma joins_to_functional (tokens out1 out2 : list str) :
  joins_to word_set tokens out1 -> joins_to word_set tokens out2 ->
  out1 = out2.
Proof.
  intros H1. revert out2.
  induction H1; intros out2 H2; inversion H2; subst;
    try reflexivity; try contradiction; f_equal; auto.
Qed.

Lemma joins_to_length (tokens out : list str) :
  joins_to word_set tokens out -> length out <= length tokens.
Proof. induction 1; cbn in *; lia. Qed.

(** A scan that shortens nothing merged nothing. *)
Lemma joins_to_same_length (tokens out : list str) :
  joins_to word_set tokens out -> length out = length tokens ->
  out = tokens.
Proof.
  induction 1 as [| |a b rest out Hm Hj IH|a b rest out Hm Hj IH];
    cbn; intros Hl; try reflexivity.
  - apply joins_to_length in Hj. lia.
  - f_equal. apply IH. cbn. lia.
Qed.

Lemma joins_to_preserves (P : str -> Prop) (tokens out : list str) :
  (forall a b, P a -> P b -> P (a ++ b)) ->
  joins_to word_set tokens out -> Forall P tokens -> Forall P out.
Proof.
  intros HP. induction 1; intros HF; auto.
  - inversion HF as [|? ? Ha HF']; subst.
    inversion HF' as [|? ? Hb HF'']; subst. constructor; auto.
  - inversion HF; subst. constructor; auto.
Qed.

(** The [while] loop from a state at index [i] scans the rest of the
    tokens as the specification says, appends the result to [fixed],
    counts one join per merge, and leaves the loop ([i] has reached
    [len(tokens)]) within the fuel. *)
Lemma join_while_scan (tokens : list str) (fuel : nat) (st : join_state) :
  length tokens - js_i st <= fuel ->
  let st' := join_while fuel word_set tokens st in
  exists out,
    joins_to word_set (drop (js_i st) tokens) out
    /\ js_fixed st' = js_fixed st ++ out
    /\ js_joins st' + length out
       = js_joins st + length (drop (js_i st) tokens)
    /\ length tokens <= js_i st'.
Proof.
  revert st. induction fuel as [|fuel IH]; intros st Hfuel; cbn zeta.
  - exists []. rewrite drop_ge by lia. cbn.
    rewrite app_nil_r.
    split; [apply joins_nil|]. split; [reflexivity|]. split; lia.
  - cbn [join_while].
    destruct (Nat.ltb_spec (js_i st) (length tokens)) as [Hi|Hi].
    2:{ exists []. rewrite drop_ge by lia. cbn.
        rewrite app_nil_r.
    split; [apply joins_nil|]. split; [reflexivity|]. split; lia. }
    destruct (lookup_lt_is_Some_2 tokens (js_i st) Hi) as [a Ha].
    rewrite (drop_S tokens a (js_i st) Ha).
    unfold join_step. rewrite Ha.
    destruct (tokens !! (js_i st + 1)) as [b|] eqn:Hb.
    + assert (Hd : drop (S (js_i st)) tokens
                   = b :: drop (S (S (js_i st))) tokens).
      { apply drop_S. rewrite <- Hb. f_equal. lia. }
      rewrite Hd.
      assert (Hd2 : drop (js_i st + 2) tokens
                    = drop (S (S (js_i st))) tokens) by (f_equal; lia).
      assert (Hd1 : drop (js_i st + 1) tokens
                    = drop (S (js_i st)) tokens) by (f_equal; lia).
      apply lookup_lt_Some in Hb as Hlt.
      destruct ((length a <=? 2) && isalpha a && isalpha b) eqn:Hg;
        [destruct (bool_decide (lower (a ++ b) ∈ word_set)) eqn:Hm|].
      * match goal with |- context [join_while fuel _ _ ?s] =>
          destruct (IH s) as (out & Hj & Hf & Hc & He) end.
        { cbn. lia. }
        cbn [js_i js_fixed js_joins] in Hj, Hf, Hc.
        rewrite Hd2 in Hj, Hc.
        exists ((a ++ b) :: out). repeat split.
        -- apply joins_merge; [|exact Hj]. apply mergeable_test. auto.
        -- rewrite Hf, <- app_assoc. reflexivity.
        -- cbn [length] in *. lia.
        -- exact He.
      * match goal with |- context [join_while fuel _ _ ?s] =>
          destruct (IH s) as (out & Hj & Hf & Hc & He) end.
        { cbn. lia. }
        cbn [js_i js_fixed js_joins] in Hj, Hf, Hc.
        rewrite Hd1, Hd in Hj, Hc.
        exists (a :: out). repeat split.
        -- apply joins_keep; [|exact Hj].
           rewrite mergeable_test. intros [_ H']. congruence.
        -- rewrite Hf, <- app_assoc. reflexivity.
        -- cbn [length] in *. lia.
        -- exact He.
      * match goal with |- context [join_while fuel _ _ ?s] =>
          destruct (IH s) as (out & Hj & Hf & Hc & He) end.
        { cbn. lia. }
        cbn [js_i js_fixed js_joins] in Hj, Hf, Hc.
        rewrite Hd1, Hd in Hj, Hc.
        exists (a :: out). repeat split.
        -- apply joins_keep; [|exact Hj].
           rewrite mergeable_test. intros [H' _]. congruence.
        -- rewrite Hf, <- app_assoc. reflexivity.
        -- cbn [length] in *. lia.
        -- exact He.
    + apply lookup_ge_None in Hb.
      match goal with |- context [join_while fuel _ _ ?s] =>
        destruct (IH s) as (out & Hj & Hf & Hc & He) end.
      { cbn. lia. }
      cbn [js_i js_fixed js_joins] in Hj, Hf, Hc.
      rewrite drop_ge in Hj, Hc by lia. inversion Hj; subst.
      rewrite (drop_ge tokens (S (js_i st))) by lia.
      exists [a]. repeat split.
      * constructor.
      * rewrite Hf, <- app_assoc. reflexivity.
      * cbn [length] in *. lia.
      * exact He.
Qed.

Lemma join_tokens_scan (tokens : list str) :
  exists out,
    joins_to word_set tokens out
    /\ js_fixed (join_tokens word_set tokens) = out
    /\ js_joins (join_tokens word_set tokens) + length out = length tokens
    /\ length tokens <= js_i (join_tokens word_set tokens).
Proof.
  destruct (join_while_scan tokens (length tokens) join_init)
    as (out & Hj & Hf & Hc & He); [cbn; lia|].
  exists out. cbn in Hj, Hf, Hc. rewrite drop_0 in *. auto.
Qed.

(** The [for tok in tokens] loop of the split pass, token by token. *)
Lemma split_tokens_map (tokens : list str) :
  split_tokens word_set tokens
  = (List.map (fun tok => fst (split_token word_set tok)) tokens,
     length (List.filter (fun tok => snd (split_token word_set tok))
               tokens)).
Proof.
  unfold split_tokens.
  assert (G : forall acc n,
    List.fold_left
      (fun acc tok =>
         let '(piece, fixed_one) := split_token word_set tok in
         (fst acc ++ [piece], if fixed_one then snd acc + 1 else snd acc))
      tokens (acc, n)
    = (acc ++ List.map (fun tok => fst (split_token word_set tok)) tokens,
       n + length (List.filter
                     (fun tok => snd (split_token word_set tok)) tokens))).
  { induction tokens as [|tok tokens IH]; intros acc n; cbn.
    - now rewrite app_nil_r, Nat.add_0_r.
    - destruct (split_token word_set tok) as [piece [|]]; cbn;
        rewrite IH, <- app_assoc; cbn; f_equal; lia. }
  apply G.
Qed.

Lemma split_search_first (low : str) (cuts : list nat) :
  match split_search word_set low cuts with
  | Some repaired =>
      exists before cut after,
        cuts = before ++ cut :: after
        /\ repaired = take cut low ++ [SPACE] ++ drop cut low
        /\ take cut low ∈ word_set /\ drop cut low ∈ word_set
        /\ Forall (fun c => ~ (take c low ∈ word_set
                              /\ drop c low ∈ word_set)) before
  | None =>
      Forall (fun c => ~ (take c low ∈ word_set
                          /\ drop c low ∈ word_set)) cuts
  end.
Proof.
  induction cuts as [|cut cuts IH]; cbn; [constructor|].
  destruct (bool_decide (take cut low ∈ word_set)
            && bool_decide (drop cut low ∈ word_set)) eqn:E.
  - apply andb_true_iff in E as [E1 E2].
    apply bool_decide_eq_true in E1, E2.
    exists [], cut, cuts. repeat split; auto.
  - assert (Hn : ~ (take cut low ∈ word_set /\ drop cut low ∈ word_set)).
    { intros [H1 H2].
      rewrite (bool_decide_eq_true_2 _ H1), (bool_decide_eq_true_2 _ H2)
        in E. discriminate. }
    destruct (split_search word_set low cuts) as [repaired|].
    + destruct IH as (before & c & after & -> & Hr & H1 & H2 & HF).
      exists (cut :: before), c, after. repeat split; auto.
    + constructor; auto.
Qed.

Lemma splittable_test (tok : str) :
  splittable word_set tok <->
  bool_decide (lower tok ∈ word_set) || negb (isalpha tok)
  || (length tok <? 4) = false.
Proof.
  unfold splittable.
  rewrite !orb_false_iff, negb_false_iff, Nat.ltb_ge,
    bool_decide_eq_false. tauto.
Qed.

End RepairerFacts.

Section RepairerClaims.
Import Repairer.

Lemma split_token_unrepaired {U : UnicodeDB} (word_set : gset str)
    (tok : str) :
  snd (split_token word_set tok) = false ->
  fst (split_token word_set tok) = tok.
Proof.
  unfold split_token.
  destruct (bool_decide (lower tok ∈ word_set) || negb (isalpha tok)
            || (length tok <? 4)); [reflexivity|].
  destruct (split_search word_set (lower tok) (seq 1 (length tok - 1)));
    [discriminate|reflexivity].
Qed.

Lemma map_unrepaired {U : UnicodeDB} (word_set : gset str)
    (tokens : list str) :
  length (List.filter (fun tok => snd (split_token word_set tok)) tokens)
  = 0 ->
  List.map (fun tok => fst (split_token word_set tok)) tokens = tokens.
Proof.
  induction tokens as [|tok tokens IH]; cbn; [reflexivity|].
  destruct (snd (split_token word_set tok)) eqn:E; cbn; [discriminate|].
  intros H. rewrite (split_token_unrepaired _ _ E), IH; auto.
Qed.

(** C6.  With an empty lexicon both passes return the text as it is
    and the three counters are zero. *)
Theorem C6_empty_lexicon_noop {U : UnicodeDB} (word_set : gset str)
    (text : str) :
  word_set = ∅ ->
  join_pass word_set text = (text, 0, 0)
  /\ split_pass word_set text = (text, 0)
  /\ repair word_set text
     = {| rp_text := text; rp_broken_pairs := 0; rp_joins := 0;
          rp_split_fixes := 0 |}.
Proof.
  intros ->.
  assert (Ej : join_pass ∅ text = (text, 0, 0)).
  { unfold join_pass. rewrite decide_True; reflexivity. }
  assert (Es : split_pass ∅ text = (text, 0)).
  { unfold split_pass. rewrite decide_True; reflexivity. }
  split; [exact Ej|]. split; [exact Es|].
  unfold repair. rewrite Ej, Es. reflexivity.
Qed.

Lemma C6_empty_lexicon_noop_witness :
  join_pass (U := AsciiDB) ∅ (lit "t he cat") = (lit "t he cat", 0, 0)
  /\ split_pass (U := AsciiDB) ∅ (lit "t he cat") = (lit "t he cat", 0)
  /\ repair (U := AsciiDB) ∅ (lit "t he cat")
     = {| rp_text := lit "t he cat"; rp_broken_pairs := 0; rp_joins := 0;
          rp_split_fixes := 0 |}.
Proof.
  exact (C6_empty_lexicon_noop (U := AsciiDB) ∅ (lit "t he cat") eq_refl).
Defined.

(** C4, as amended.  In the join pass with a non-empty lexicon, the
    pair [a], [b] at the scan position is merged into [a + b] (and the
    scan advances by two) if and only if [a] has at most two
    characters, [a] and [b] are purely alphabetic and
    [(a + b).lower()] is in the lexicon; otherwise [a] is kept and the
    scan advances by one.  The whole pass is that left-to-right scan of
    the whitespace-split tokens, rejoined with single spaces, and the
    join counter is the number of merges. *)
Theorem C4_join_pass_merges {U : UnicodeDB} (word_set : gset str)
    (text : str) :
  word_set <> ∅ ->
  (forall (st : join_state) (a b : str),
      split text !! js_i st = Some a ->
      split text !! (js_i st + 1) = Some b ->
      (join_step word_set (split text) st
       = {| js_i := js_i st + 2; js_fixed := js_fixed st ++ [a ++ b];
            js_broken := js_broken st + 1;
            js_joins := js_joins st + 1 |}
       <-> mergeable word_set a b)
      /\ (~ mergeable word_set a b ->
          js_i (join_step word_set (split text) st) = js_i st + 1
          /\ js_fixed (join_step word_set (split text) st)
             = js_fixed st ++ [a]
          /\ js_joins (join_step word_set (split text) st)
             = js_joins st))
  /\ exists out,
       joins_to word_set (split text) out
       /\ fst (fst (join_pass word_set text)) = join [SPACE] out
       /\ snd (join_pass word_set text) + length out
          = length (split text).
Proof.
  intros Hne. split.
  - intros st a b Ha Hb. unfold join_step. rewrite Ha, Hb.
    pose proof (mergeable_test word_set a b) as Hm.
    destruct ((length a <=? 2) && isalpha a && isalpha b);
      [destruct (bool_decide (lower (a ++ b) ∈ word_set))|].
    + split; [split; [intros _; apply Hm; auto|reflexivity]|].
      intros Hn. exfalso. apply Hn, Hm. auto.
    + split.
      * split; [intros E; apply (f_equal js_i) in E; cbn in E; lia|].
        intros H. apply Hm in H as [_ H]. discriminate.
      * intros _. cbn. auto.
    + split.
      * split; [intros E; apply (f_equal js_i) in E; cbn in E; lia|].
        intros H. apply Hm in H as [H _]. discriminate.
      * intros _. cbn. auto.
  - destruct (join_tokens_scan word_set (split text))
      as (out & Hj & Hf & Hc & _).
    exists out. unfold join_pass. rewrite decide_False by exact Hne.
    cbn [fst snd]. rewrite Hf. auto.
Qed.

Lemma C4_join_pass_merges_witness :
  exists out,
    joins_to (U := AsciiDB) {[ lit "the" ]} (split (lit "t he cat")) out
    /\ fst (fst (join_pass (U := AsciiDB) {[ lit "the" ]}
                   (lit "t he cat")))
       = join [SPACE] out
    /\ snd (join_pass (U := AsciiDB) {[ lit "the" ]} (lit "t he cat"))
       + length out
       = length (split (lit "t he cat")).
Proof.
  refine (proj2 (C4_join_pass_merges (U := AsciiDB) {[ lit "the" ]}
                   (lit "t he cat") _)).
  intros E. apply (f_equal (fun s : gset str => bool_decide (lit "the" ∈ s)))
    in E. vm_compute in E. discriminate.
Defined.

(** C4, as stated, fails.
    With the lexicon {"there"} the adjacent tokens "the" and "re"
    concatenate to a lexicon word, yet the pass leaves them apart,
    because "the" has more than two characters. *)
Lemma C4_counterexample :
  let word_set : gset str := {[ lit "there" ]} in
  word_set <> ∅
  /\ split (lit "the re") = [lit "the"; lit "re"]
  /\ lower (UnicodeDB := AsciiDB) (lit "the" ++ lit "re") ∈ word_set
  /\ join_pass (U := AsciiDB) word_set (lit "the re")
     = (lit "the re", 0, 0).
Proof.
  cbn zeta. split; [|split; [reflexivity|split]].
  - intros E.
    apply (f_equal (fun s : gset str => bool_decide (lit "there" ∈ s)))
      in E. vm_compute in E. discriminate.
  - decide_by_compute.
  - vm_compute. reflexivity.
Qed.

Lemma seq_split_middle (s n : nat) (before : list nat) (cut : nat)
    (after : list nat) :
  seq s n = before ++ cut :: after ->
  cut = s + length before /\ before = seq s (length before).
Proof.
  revert s n. induction before as [|b before IH]; intros s n E.
  - destruct n; [discriminate|]. cbn in E. injection E as <- _.
    cbn. split; [lia|reflexivity].
  - destruct n; [discriminate|]. cbn in E. injection E as <- E.
    destruct (IH _ _ E) as [-> Hb]. cbn [length seq].
    split; [lia|]. f_equal. exact Hb.
Qed.

(** C5.  In the split pass with a non-empty lexicon the output is the
    tokens' images rejoined with single spaces and the counter is the
    number of repaired tokens.  A token that is not in the lexicon in
    lowercase, purely alphabetic and at least four characters long is
    replaced by [left + " " + right] exactly when some cut position
    from 1 to its length minus one has both lowercase halves in the
    lexicon, with the lowest such cut; every other token is passed
    through unchanged. *)
Theorem C5_split_pass {U : UnicodeDB} (word_set : gset str) (text : str) :
  word_set <> ∅ ->
  split_pass word_set text
  = (join [SPACE]
       (List.map (fun tok => fst (split_token word_set tok)) (split text)),
     length (List.filter (fun tok => snd (split_token word_set tok))
               (split text)))
  /\ forall tok : str,
       (~ splittable word_set tok ->
        split_token word_set tok = (tok, false))
       /\ (splittable word_set tok ->
           (forall cut, ~ valid_cut word_set tok cut) ->
           split_token word_set tok = (tok, false))
       /\ (splittable word_set tok ->
           forall cut,
             valid_cut word_set tok cut ->
             (forall c, c < cut -> ~ valid_cut word_set tok c) ->
             split_token word_set tok
             = (take cut (lower tok) ++ [SPACE] ++ drop cut (lower tok),
                true)).
Proof.
  intros Hne. split.
  { unfold split_pass. rewrite decide_False by exact Hne.
    rewrite split_tokens_map. reflexivity. }
  intros tok.
  pose proof (splittable_test word_set tok) as Ht.
  pose proof (split_search_first word_set (lower tok)
                (seq 1 (length tok - 1))) as Hs.
  unfold split_token.
  destruct (bool_decide (lower tok ∈ word_set) || negb (isalpha tok)
            || (length tok <? 4)).
  { split; [reflexivity|].
    split; intros H; apply Ht in H; discriminate. }
  split; [intros H; exfalso; apply H, Ht; reflexivity|].
  destruct (split_search word_set (lower tok) (seq 1 (length tok - 1)))
    as [repaired|].
  - destruct Hs as (before & cut0 & after & Hseq & -> & H1 & H2 & HF).
    assert (Hin0 : In cut0 (seq 1 (length tok - 1))).
    { rewrite Hseq. apply in_or_app. right. left. reflexivity. }
    apply in_seq in Hin0.
    assert (Hbefore : forall c, In c before <-> 1 <= c < cut0).
    { intros c.
      destruct (seq_split_middle _ _ _ _ _ Hseq) as [Hc Hb].
      rewrite Hb, in_seq. lia. }
    split.
    + intros _ Hno. exfalso. apply (Hno cut0).
      unfold valid_cut. repeat split; auto; lia.
    + intros _ cut (Hr & Hl & Hrt) Hmin.
      assert (cut = cut0) as ->; [|reflexivity].
      destruct (Nat.lt_trichotomy cut cut0) as [Hlt|[Heq|Hgt]];
        [|exact Heq|].
      * exfalso. rewrite Forall_forall in HF.
        apply (HF cut); [|auto].
        apply list_elem_of_In, Hbefore. lia.
      * exfalso. apply (Hmin cut0 Hgt).
        unfold valid_cut. repeat split; auto; lia.
  - split; [reflexivity|].
    intros _ cut (Hr & Hl & Hrt) _. exfalso.
    rewrite Forall_forall in Hs. apply (Hs cut); [|auto].
    apply list_elem_of_In, in_seq. lia.
Qed.

Lemma C5_split_pass_witness :
  split_pass (U := AsciiDB) {[ lit "as"; lit "he" ]} (lit "Ashe went")
  = (lit "as he went", 1).
Proof.
  refine (eq_trans
            (proj1 (C5_split_pass (U := AsciiDB) {[ lit "as"; lit "he" ]}
                      (lit "Ashe went") _)) _).
  - intros E.
    apply (f_equal (fun s : gset str => bool_decide (lit "as" ∈ s))) in E.
    vm_compute in E. discriminate.
  - vm_compute. reflexivity.
Defined.

(** What the split pass appends for a token without whitespace has no
    whitespace but the space of a split, as long as [str.lower] brings
    no whitespace into a string that has none. *)
Lemma split_token_whitespace {U : UnicodeDB} (word_set : gset str)
    (tok : str) :
  (forall s, Forall (fun c => isspace c = false) s ->
             Forall (fun c => isspace c = false) (lower s)) ->
  Forall (fun c => isspace c = false) tok ->
  Forall (fun c => isspace c = true -> c = SPACE)
         (fst (split_token word_set tok)).
Proof.
  intros Hlow Htok.
  assert (Hweak : forall s, Forall (fun c => isspace c = false) s ->
                            Forall (fun c => isspace c = true -> c = SPACE) s).
  { intros s Hs. eapply Forall_impl; [exact Hs|]. intros x Hx Hx'.
    congruence. }
  unfold split_token.
  destruct (bool_decide (lower tok ∈ word_set) || negb (isalpha tok)
            || (length tok <? 4)); [apply Hweak, Htok|].
  pose proof (split_search_first word_set (lower tok)
                (seq 1 (length tok - 1))) as Hs.
  destruct (split_search word_set (lower tok) (seq 1 (length tok - 1)))
    as [repaired|]; [|apply Hweak, Htok].
  destruct Hs as (_ & cut & _ & _ & -> & _). cbn [fst].
  specialize (Hlow tok Htok).
  apply Forall_app. split; [apply Hweak, Forall_take, Hlow|].
  apply Forall_app. split; [constructor; [auto|constructor]|].
  apply Hweak, Forall_drop, Hlow.
Qed.

(** The ASCII database is a case of it. *)
Lemma ascii_lower_keeps_nonspace (s : str) :
  Forall (fun c => isspace c = false) s ->
  Forall (fun c => isspace c = false) (lower (UnicodeDB := AsciiDB) s).
Proof.
  assert (Hup : forall c, ascii_upper c = true -> isspace (c + 32) = false).
  { intros c Hc. unfold ascii_upper in Hc.
    apply andb_true_iff in Hc as [H1 H2]. apply N.leb_le in H1, H2.
    assert (Hall : forallb (fun n => negb (isspace (N.of_nat n + 32)))
                     (seq 65 26) = true) by (vm_compute; reflexivity).
    rewrite forallb_forall in Hall.
    specialize (Hall (N.to_nat c)).
    rewrite N2Nat.id in Hall. apply negb_true_iff, Hall, in_seq. lia. }
  intros Hs. cbn. induction Hs as [|c s Hc _ IH]; cbn; [constructor|].
  constructor; [|exact IH].
  destruct (ascii_upper c) eqn:Hu; [apply Hup, Hu|exact Hc].
Qed.

(** *** Counting the spaces of a joined text *)

Lemma count_join_cons (x : str) (l : list str) :
  count_occ N.eq_dec (join [SPACE] (x :: l)) SPACE
  = count_occ N.eq_dec x SPACE
    + match l with
      | [] => 0
      | _ => 1 + count_occ N.eq_dec (join [SPACE] l) SPACE
      end.
Proof.
  destruct l as [|y l]; cbn [join]; [lia|].
  rewrite !count_occ_app. reflexivity.
Qed.

Lemma count_word (w : str) :
  Forall (fun c => isspace c = false) w ->
  count_occ N.eq_dec w SPACE = 0.
Proof.
  intros Hw. apply count_occ_not_In. intros Hin.
  rewrite Forall_forall in Hw.
  specialize (Hw _ (proj2 (list_elem_of_In _ _) Hin)). discriminate.
Qed.

(** Words joined by single spaces have one space less than words. *)
Lemma count_join_words (l : list str) :
  Forall is_word l ->
  count_occ N.eq_dec (join [SPACE] l) SPACE = length l - 1.
Proof.
  induction 1 as [|x l [_ Hx] Hl IH]; [reflexivity|].
  rewrite count_join_cons, (count_word x Hx), IH.
  destruct l; cbn [length]; lia.
Qed.

(** Every split brings one more space at least. *)
Lemma count_join_pieces {U : UnicodeDB} (word_set : gset str)
    (tokens : list str) :
  length tokens - 1
  + length (List.filter (fun tok => snd (split_token word_set tok)) tokens)
  <= count_occ N.eq_dec
       (join [SPACE]
          (List.map (fun tok => fst (split_token word_set tok)) tokens))
       SPACE.
Proof.
  induction tokens as [|tok tokens IH]; [cbn; lia|].
  cbn [List.map List.filter]. rewrite count_join_cons.
  assert (Hp : (if snd (split_token word_set tok) then 1 else 0)
               <= count_occ N.eq_dec (fst (split_token word_set tok))
                    SPACE).
  { unfold split_token.
    destruct (bool_decide (lower tok ∈ word_set) || negb (isalpha tok)
              || (length tok <? 4)); [cbn; lia|].
    pose proof (split_search_first word_set (lower tok)
                  (seq 1 (length tok - 1))) as Hs.
    destruct (split_search word_set (lower tok) (seq 1 (length tok - 1)))
      as [piece|]; [|cbn; lia].
    destruct Hs as (_ & cut & _ & _ & -> & _). cbn [fst snd].
    rewrite !count_occ_app. cbn [count_occ].
    destruct (N.eq_dec SPACE SPACE); [lia|contradiction]. }
  destruct (snd (split_token word_set tok));
    destruct tokens; cbn [List.map List.filter length] in *; lia.
Qed.

(** C9, as amended.  With a non-empty lexicon the join pass returns the
    tokens it has built (the tokens of the input with the confirmed
    pairs merged) rejoined with single spaces, and the split pass the
    images of the tokens rejoined with single spaces.  The output is
    the tokens of the input rejoined with single spaces exactly when no
    join (no split) is made.  The output of the join pass never has a
    newline or a tab, nor has that of the split pass when it makes no
    split, or in any case when [str.lower] brings no whitespace into a
    token. *)
Theorem C9_passes_rejoin_tokens {U : UnicodeDB} (word_set : gset str)
    (text : str) :
  word_set <> ∅ ->
  let '(joined, _, joins) := join_pass word_set text in
  let '(splitted, split_fixes) := split_pass word_set text in
  split joined = js_fixed (join_tokens word_set (split text))
  /\ join [SPACE] (split joined) = joined
  /\ (forall c, c ∈ joined -> isspace c = true -> c = SPACE)
  /\ (NEWLINE ∉ joined) /\ (TAB ∉ joined)
  /\ (joined = join [SPACE] (split text) <-> joins = 0)
  /\ splitted
     = join [SPACE]
         (List.map (fun tok => fst (split_token word_set tok))
            (split text))
  /\ (splitted = join [SPACE] (split text) <-> split_fixes = 0)
  /\ (split_fixes = 0 -> (NEWLINE ∉ splitted) /\ (TAB ∉ splitted))
  /\ ((forall s, Forall (fun c => isspace c = false) s ->
                 Forall (fun c => isspace c = false) (lower s)) ->
      (forall c, c ∈ splitted -> isspace c = true -> c = SPACE)
      /\ (NEWLINE ∉ splitted) /\ (TAB ∉ splitted)).
Proof.
  intros Hne.
  destruct (join_tokens_scan word_set (split text))
    as (out & Hj & Hf & Hc & _).
  unfold join_pass, split_pass. rewrite !decide_False by exact Hne.
  rewrite split_tokens_map, Hf.
  pose proof (split_words text) as Hwords.
  assert (Hsplit : Forall (Forall (fun c => isspace c = false))
                     (split text)).
  { eapply Forall_impl; [exact Hwords|]. intros w [_ Hw]. exact Hw. }
  assert (Hout : Forall is_word out).
  { eapply joins_to_preserves; [|exact Hj|exact Hwords].
    intros a b [Ha1 Ha2] [Hb1 Hb2]. split.
    - destruct a; [contradiction|discriminate].
    - apply Forall_app. auto. }
  assert (Hws : forall l,
             Forall (Forall (fun c => isspace c = true -> c = SPACE)) l ->
             (forall c, c ∈ join [SPACE] l -> isspace c = true -> c = SPACE)
             /\ (NEWLINE ∉ join [SPACE] l) /\ (TAB ∉ join [SPACE] l)).
  { intros l Hl.
    assert (H0 := fun c => join_pieces_whitespace l c Hl).
    split; [exact H0|].
    split; intros Hin; specialize (H0 _ Hin eq_refl); discriminate. }
  assert (Hweak : forall l,
             Forall is_word l ->
             Forall (Forall (fun c => isspace c = true -> c = SPACE)) l).
  { intros l Hl. eapply Forall_impl; [exact Hl|]. intros w [_ Hw].
    eapply Forall_impl; [exact Hw|]. intros x Hx Hx'. congruence. }
  destruct (Hws out (Hweak _ Hout)) as (W1 & W2 & W3).
  destruct (Hws (split text) (Hweak _ Hwords)) as (_ & T2 & T3).
  split; [apply split_join, Hout|].
  split; [rewrite (split_join out Hout); reflexivity|].
  split; [exact W1|]. split; [exact W2|]. split; [exact W3|].
  split.
  { split.
    - intros E. apply (f_equal split) in E.
      rewrite (split_join out Hout), (split_join _ Hwords) in E.
      rewrite E in Hc. lia.
    - intros H0. rewrite H0 in Hc. cbn in Hc.
      rewrite (joins_to_same_length word_set _ _ Hj Hc). reflexivity. }
  split; [reflexivity|].
  split.
  { split.
    - intros E.
      pose proof (count_join_pieces word_set (split text)) as Hp.
      rewrite E, (count_join_words _ Hwords) in Hp. lia.
    - intros H0. rewrite (map_unrepaired word_set _ H0). reflexivity. }
  split.
  { intros H0. rewrite (map_unrepaired word_set _ H0). auto. }
  intros Hlow. apply Hws.
  apply Forall_forall. intros piece Hp.
  apply list_elem_of_In, in_map_iff in Hp as (tok & <- & Htok).
  apply split_token_whitespace; [exact Hlow|].
  rewrite Forall_forall in Hsplit. apply Hsplit, list_elem_of_In, Htok.
Qed.

Lemma C9_passes_rejoin_tokens_witness :
  let text := lit "t he" ++ [NEWLINE; TAB] ++ lit "cat" in
  join_pass (U := AsciiDB) {[ lit "the" ]} text = (lit "the cat", 1, 1)
  /\ split_pass (U := AsciiDB) {[ lit "the" ]} text = (lit "t he cat", 0)
  /\ let '(joined, _, joins) :=
       join_pass (U := AsciiDB) {[ lit "the" ]} text in
     let '(splitted, split_fixes) :=
       split_pass (U := AsciiDB) {[ lit "the" ]} text in
     split joined
     = js_fixed (join_tokens (U := AsciiDB) {[ lit "the" ]} (split text))
     /\ join [SPACE] (split joined) = joined
     /\ (forall c, c ∈ joined -> isspace c = true -> c = SPACE)
     /\ (NEWLINE ∉ joined) /\ (TAB ∉ joined)
     /\ (joined = join [SPACE] (split text) <-> joins = 0)
     /\ splitted
        = join [SPACE]
            (List.map
               (fun tok =>
                  fst (split_token (U := AsciiDB) {[ lit "the" ]} tok))
               (split text))
     /\ (splitted = join [SPACE] (split text) <-> split_fixes = 0)
     /\ (split_fixes = 0 -> (NEWLINE ∉ splitted) /\ (TAB ∉ splitted))
     /\ ((forall s, Forall (fun c => isspace c = false) s ->
                    Forall (fun c => isspace c = false)
                           (lower (UnicodeDB := AsciiDB) s)) ->
         (forall c, c ∈ splitted -> isspace c = true -> c = SPACE)
         /\ (NEWLINE ∉ splitted) /\ (TAB ∉ splitted)).
Proof.
  cbn zeta. split; [vm_compute; reflexivity|].
  split; [vm_compute; reflexivity|].
  refine (C9_passes_rejoin_tokens (U := AsciiDB) {[ lit "the" ]}
            (lit "t he" ++ [NEWLINE; TAB] ++ lit "cat") _).
  intros E.
  apply (f_equal (fun s : gset str => bool_decide (lit "the" ∈ s))) in E.
  vm_compute in E. discriminate.
Defined.

(** C9, as stated, fails.  With the lexicon [the], the join pass turns
    [t he cat] into [the cat], which is not the tokens [t], [he], [cat]
    of the input rejoined; with the lexicon [as], [he], the split pass
    turns [Ashe went] into [as he went], which is not the tokens
    [Ashe], [went] rejoined. *)
Lemma C9_counterexample :
  ({[ lit "the" ]} : gset str) <> ∅
  /\ join_pass (U := AsciiDB) {[ lit "the" ]} (lit "t he cat")
     = (lit "the cat", 1, 1)
  /\ join [SPACE] (split (lit "t he cat")) = lit "t he cat"
  /\ lit "the cat" <> lit "t he cat"
  /\ ({[ lit "as"; lit "he" ]} : gset str) <> ∅
  /\ split_pass (U := AsciiDB) {[ lit "as"; lit "he" ]} (lit "Ashe went")
     = (lit "as he went", 1)
  /\ join [SPACE] (split (lit "Ashe went")) = lit "Ashe went"
  /\ lit "as he went" <> lit "Ashe went".
Proof.
  split.
  { intros E.
    apply (f_equal (fun s : gset str => bool_decide (lit "the" ∈ s))) in E.
    vm_compute in E. discriminate. }
  split; [vm_compute; reflexivity|].
  split; [vm_compute; reflexivity|].
  split; [vm_compute; discriminate|].
  split.
  { intros E.
    apply (f_equal (fun s : gset str => bool_decide (lit "as" ∈ s))) in E.
    vm_compute in E. discriminate. }
  split; [vm_compute; reflexivity|].
  split; [vm_compute; reflexivity|].
  vm_compute. discriminate.
Qed.

End RepairerClaims.

(** ** ChunkAssembler *)

Section AssemblerFacts.
Import Assembler.

(** The loop on strings is the loop on word lists, chunk by chunk. *)
Lemma chunk_loop_words (good : list str) (emitted : list (list str))
    (cur : list str) :
  chunk_loop (join_all emitted, cur) good
  = (join_all (fst (words_loop (emitted, cur) (List.map split good))),
     snd (words_loop (emitted, cur) (List.map split good))).
Proof.
  revert emitted cur. induction good as [|sent good IH];
    intros emitted cur; [reflexivity|].
  cbn [chunk_loop words_loop List.fold_left List.map].
  unfold chunk_step at 2. unfold words_step at 2 4.
  destruct (length cur + length (split sent) <=? CHUNK_WORDS).
  - apply IH.
  - destruct (MIN_WORDS <? length cur).
    + replace (join_all emitted ++ [join [SPACE] cur])
        with (join_all (emitted ++ [cur]))
        by (unfold join_all; rewrite List.map_app; reflexivity).
      apply IH.
    + apply IH.
Qed.

Lemma assemble_words_join_all (good : list str) :
  assemble good = join_all (assemble_words (List.map split good)).
Proof.
  unfold assemble, assemble_words.
  change (@nil str) with (join_all []) at 1.
  rewrite chunk_loop_words.
  destruct (words_loop ([], []) (List.map split good)) as [emitted cur].
  cbn [fst snd flush words_flush].
  destruct (MIN_WORDS <? length cur); [|reflexivity].
  unfold join_all. rewrite List.map_app. reflexivity.
Qed.

(** The loop only appends to the emitted buffers, and whatever it
    emits or keeps is made of words of the buffer and of the sentences
    it read. *)
Lemma words_loop_grows {A} (ws : list (list A)) (emitted : list (list A))
    (cur : list A) :
  exists later cur',
    words_loop (emitted, cur) ws = (emitted ++ later, cur')
    /\ Forall (fun b => b ⊆ cur ++ List.concat ws) later
    /\ cur' ⊆ cur ++ List.concat ws.
Proof.
  revert emitted cur. induction ws as [|w ws IH]; intros emitted cur.
  - exists [], cur. cbn. rewrite !app_nil_r.
    split; [reflexivity|]. split; [constructor|reflexivity].
  - cbn [words_loop List.fold_left List.concat]. unfold words_step at 2.
    assert (Htail : tail_slice OVERLAP_WORDS cur ⊆ cur)
      by apply subseteq_drop.
    destruct (length cur + length w <=? CHUNK_WORDS).
    + destruct (IH emitted (cur ++ w)) as (later & cur' & E & HF & Hc).
      exists later, cur'. rewrite <- app_assoc in HF, Hc. auto.
    + assert (Hsub : (tail_slice OVERLAP_WORDS cur ++ w) ++ List.concat ws
                     ⊆ cur ++ w ++ List.concat ws).
      { rewrite <- app_assoc. intros x Hx.
        apply elem_of_app in Hx as [Hx|Hx]; apply elem_of_app; auto. }
      destruct (MIN_WORDS <? length cur).
      * destruct (IH (emitted ++ [cur]) (tail_slice OVERLAP_WORDS cur ++ w))
          as (later & cur' & E & HF & Hc).
        exists (cur :: later), cur'. rewrite <- app_assoc in E.
        split; [exact E|]. split.
        -- constructor.
           ++ intros x Hx. apply elem_of_app. auto.
           ++ eapply Forall_impl; [exact HF|].
              intros b Hb. cbn beta in Hb. etransitivity; eauto.
        -- etransitivity; eauto.
      * destruct (IH emitted (tail_slice OVERLAP_WORDS cur ++ w))
          as (later & cur' & E & HF & Hc).
        exists later, cur'. split; [exact E|]. split.
        -- eapply Forall_impl; [exact HF|].
           intros b Hb. cbn beta in Hb. etransitivity; eauto.
        -- etransitivity; eauto.
Qed.

(** Pairwise different words stay pairwise different in the buffer. *)
Lemma words_loop_NoDup {A} (ws : list (list A)) (emitted : list (list A))
    (cur : list A) :
  NoDup (cur ++ List.concat ws) ->
  NoDup (snd (words_loop (emitted, cur) ws)).
Proof.
  revert emitted cur. induction ws as [|w ws IH]; intros emitted cur Hnd.
  - cbn in *. rewrite app_nil_r in Hnd. exact Hnd.
  - cbn [words_loop List.fold_left List.concat] in *.
    unfold words_step at 2.
    destruct (length cur + length w <=? CHUNK_WORDS).
    + apply IH. rewrite <- app_assoc. exact Hnd.
    + assert (Hnd' : NoDup ((tail_slice OVERLAP_WORDS cur ++ w)
                            ++ List.concat ws)).
      { rewrite <- app_assoc. unfold tail_slice.
        rewrite <- (take_drop (length cur - OVERLAP_WORDS) cur) in Hnd
          at 1.
        rewrite <- app_assoc in Hnd. apply NoDup_app in Hnd. tauto. }
      destruct (MIN_WORDS <? length cur); apply IH; exact Hnd'.
Qed.

Lemma concat_words (good : list str) :
  Forall is_word (List.concat (List.map split good)).
Proof.
  induction good as [|sent good IH]; cbn; [constructor|].
  apply Forall_app. split; [apply split_words|exact IH].
Qed.

(** Every chunk is the join of the buffer it was emitted from, and
    splitting the chunk gives the buffer back. *)
Lemma assemble_lookup (good : list str) (k : nat) (c : str) :
  assemble good !! k = Some c ->
  exists b, assemble_words (List.map split good) !! k = Some b
            /\ c = join [SPACE] b /\ split c = b.
Proof.
  rewrite assemble_words_join_all. unfold join_all.
  change (List.map (join [SPACE]) ?l) with (join [SPACE] <$> l).
  rewrite list_lookup_fmap. intros E.
  destruct (assemble_words (List.map split good) !! k) as [b|] eqn:Eb;
    [|discriminate].
  cbn in E. injection E as <-. exists b. split; [reflexivity|].
  split; [reflexivity|]. apply split_join.
  unfold assemble_words in Eb.
  destruct (words_loop_grows (List.map split good) [] [])
    as (later & cur' & E & HF & Hc).
  rewrite E in Eb. cbn [app words_flush] in Eb, HF, Hc.
  pose proof (concat_words good) as Hw. rewrite Forall_forall in Hw.
  assert (Hb : b ⊆ List.concat (List.map split good)).
  { destruct (MIN_WORDS <? length cur').
    - apply list_elem_of_lookup_2, elem_of_app in Eb as [Hb|Hb].
      + rewrite Forall_forall in HF. apply HF, Hb.
      + apply list_elem_of_singleton in Hb. subst. exact Hc.
    - apply list_elem_of_lookup_2 in Eb.
      rewrite Forall_forall in HF. apply HF, Eb. }
  apply Forall_forall. intros x Hx. apply Hw, Hb, Hx.
Qed.

End AssemblerFacts.

(** *** Overlap carry-over *)

Section OverlapFacts.
Import Assembler Samples.
Context {A : Type}.
Implicit Types (ws read : list (list A)) (w cur b : list A).

Lemma tail_slice_length (n : nat) (l : list A) :
  n <= length l -> length (tail_slice n l) = n.
Proof. intros H. unfold tail_slice. rewrite length_drop. lia. Qed.

Lemma words_loop_snoc (st : list (list A) * list A) ws w :
  words_loop st (ws ++ [w]) = words_step (words_loop st ws) w.
Proof. unfold words_loop. rewrite List.fold_left_app. reflexivity. Qed.

(** What holds of a list of sentences holds of the sentences read
    first. *)
Lemma no_drop_after_prefix (k : nat) read ws :
  no_drop_after k (read ++ ws) -> no_drop_after k read.
Proof.
  intros H before w after E. apply (H before w (after ++ ws)).
  rewrite E, <- app_assoc. reflexivity.
Qed.

(** The invariant holds all along the loop. *)
Lemma words_loop_carry read :
  carry_inv read (words_loop ([], []) read).
Proof.
  induction read as [|w read IH] using rev_ind.
  - split; [constructor|]. split; [intros k b1 b2 H; inversion H|].
    intros b H. discriminate.
  - rewrite words_loop_snoc.
    pose proof (fun k H => no_drop_after_prefix k read [w] H) as Hpre.
    assert (Hhere : forall k, no_drop_after k (read ++ [w]) ->
              length (fst (words_loop ([], []) read)) = k + 1 ->
              CHUNK_WORDS
              < length (snd (words_loop ([], []) read)) + length w ->
              MIN_WORDS < length (snd (words_loop ([], []) read))).
    { intros k H. exact (H read w [] eq_refl). }
    destruct (words_loop ([], []) read) as [emitted cur].
    destruct IH as (Hmin & Ho & Hl). cbn [fst snd] in *.
    unfold carry_inv, words_step.
    destruct (Nat.leb_spec (length cur + length w) CHUNK_WORDS)
      as [Hfit|Hov].
    + (* the sentence fits *)
      split; [exact Hmin|]. split; [intros; eapply Ho; eauto|].
      cbn [fst snd]. intros b Hb Hnd.
      rewrite <- (Hl b Hb (Hpre _ Hnd)). apply take_app_le.
      assert (Hb' : b ∈ emitted).
      { rewrite last_lookup in Hb. eapply list_elem_of_lookup_2; eauto. }
      rewrite Forall_forall in Hmin. specialize (Hmin b Hb').
      pose proof (f_equal length (Hl b Hb (Hpre _ Hnd))) as Hlen.
      rewrite length_take, tail_slice_length in Hlen;
        unfold OVERLAP_WORDS, MIN_WORDS in *; lia.
    + destruct (Nat.ltb_spec MIN_WORDS (length cur)) as [Hbig|Hsmall];
        cbn [fst snd].
      * (* the buffer is emitted *)
        split; [|split].
        -- apply Forall_app. split; [exact Hmin|].
           constructor; [exact Hbig|constructor].
        -- intros k b1 b2 H1 H2 Hnd.
           destruct (Nat.lt_ge_cases (k + 1) (length emitted)) as [Hk|Hk].
           ++ rewrite lookup_app_l in H1, H2 by lia. eapply Ho; eauto.
           ++ apply lookup_lt_Some in H2 as Hlt. rewrite length_app in Hlt.
              cbn in Hlt. assert (k + 1 = length emitted) as Hk' by lia.
              rewrite lookup_app_l in H1 by lia.
              rewrite lookup_app_r in H2 by lia.
              replace (k + 1 - length emitted) with 0 in H2 by lia.
              cbn in H2. injection H2 as <-.
              apply Hl.
              ** rewrite last_lookup, <- H1. f_equal. lia.
              ** replace (length emitted - 1) with k by lia.
                 apply Hpre, Hnd.
        -- intros b Hb _. rewrite last_snoc in Hb. injection Hb as <-.
           apply take_app_length'. rewrite tail_slice_length;
             unfold OVERLAP_WORDS, MIN_WORDS in *; lia.
      * (* the buffer is lost *)
        split; [exact Hmin|]. split; [intros; eapply Ho; eauto|].
        intros b Hb Hnd. exfalso.
        assert (Hne : length emitted <> 0).
        { destruct emitted; [discriminate|cbn; lia]. }
        specialize (Hhere (length emitted - 1) Hnd ltac:(lia) Hov). lia.
Qed.

(** Consecutive buffers of the result overlap when no buffer was lost
    between them. *)
Lemma assemble_words_carry ws (k : nat) b1 b2 :
  assemble_words ws !! k = Some b1 ->
  assemble_words ws !! (k + 1) = Some b2 ->
  no_drop_after k ws ->
  take OVERLAP_WORDS b2 = tail_slice OVERLAP_WORDS b1
  /\ MIN_WORDS < length b1.
Proof.
  unfold assemble_words. pose proof (words_loop_carry ws) as Hinv.
  destruct (words_loop ([], []) ws) as [emitted cur].
  destruct Hinv as (Hmin & Ho & Hl). cbn [fst snd words_flush] in *.
  intros H1 H2 Hnd.
  assert (Hall : Forall (fun b => MIN_WORDS < length b)
                   (if MIN_WORDS <? length cur
                    then emitted ++ [cur] else emitted)).
  { destruct (Nat.ltb_spec MIN_WORDS (length cur)); [|exact Hmin].
    apply Forall_app. split; [exact Hmin|].
    constructor; [assumption|constructor]. }
  split.
  2:{ rewrite Forall_forall in Hall.
      exact (Hall b1 (list_elem_of_lookup_2 _ _ _ H1)). }
  destruct (MIN_WORDS <? length cur); [|eapply Ho; eauto].
  destruct (Nat.lt_ge_cases (k + 1) (length emitted)) as [Hk|Hk].
  - rewrite lookup_app_l in H1, H2 by lia. eapply Ho; eauto.
  - apply lookup_lt_Some in H2 as Hlt. rewrite length_app in Hlt.
    cbn in Hlt. assert (k + 1 = length emitted) as Hk' by lia.
    rewrite lookup_app_l in H1 by lia.
    rewrite lookup_app_r in H2 by lia.
    replace (k + 1 - length emitted) with 0 in H2 by lia.
    cbn in H2. injection H2 as <-.
    apply Hl.
    + rewrite last_lookup, <- H1. f_equal. lia.
    + replace (length emitted - 1) with k by lia. exact Hnd.
Qed.

End OverlapFacts.

Section OverlapClaim.
Import Assembler Samples.

(** C2, as amended.  Whenever chunk [k] and chunk [k+1] are both
    emitted and no buffer of at most 80 words overflowed between the
    two emissions (such a buffer is cut down to its last 30 words
    without being emitted), the last 30 words of chunk [k] are, in
    order, the first 30 words of chunk [k+1]. *)
Theorem C2_overlap_carry_over (good : list str) (k : nat) (c1 c2 : str) :
  assemble good !! k = Some c1 ->
  assemble good !! (k + 1) = Some c2 ->
  no_drop_after k (List.map split good) ->
  take 30 (split c2) = tail_slice 30 (split c1)
  /\ length (tail_slice 30 (split c1)) = 30.
Proof.
  intros H1 H2 Hnd.
  destruct (assemble_lookup good k c1 H1) as (b1 & Hb1 & _ & ->).
  destruct (assemble_lookup good (k + 1) c2 H2) as (b2 & Hb2 & _ & ->).
  destruct (assemble_words_carry _ k b1 b2 Hb1 Hb2 Hnd) as [Ho Hmin].
  split; [exact Ho|].
  apply tail_slice_length. unfold MIN_WORDS in Hmin. lia.
Qed.

(** Sentences of 150, 40 and 100 words: the second overflows a buffer
    of 150 words, which is emitted, and the third fits. *)
Lemma no_drop_after_three {A} (a b c : list A) :
  length a = 150 -> length b = 40 -> length c = 100 ->
  no_drop_after 0 [a; b; c].
Proof.
  intros Ha Hb Hc before w after E st Hlen Hov.
  assert (E1 : words_step ([], []) a = ([], a)).
  { unfold words_step. cbn [length Nat.add]. rewrite Ha. reflexivity. }
  assert (E2 : words_step ([], a) b
               = ([a], tail_slice OVERLAP_WORDS a ++ b)).
  { unfold words_step. rewrite Ha, Hb. reflexivity. }
  assert (Hn : length before < 3).
  { apply (f_equal length) in E. rewrite length_app in E. cbn in E. lia. }
  destruct before as [|s1 [|s2 [|s3 before]]]; cbn [app] in E;
    [| | |cbn in Hn; lia]; simplify_eq; subst st;
    cbn [words_loop List.fold_left] in Hlen, Hov;
    rewrite ?E1, ?E2 in Hlen, Hov; try discriminate.
  cbn [snd] in Hov. rewrite length_app in Hov. unfold tail_slice in Hov.
  rewrite length_drop in Hov. unfold CHUNK_WORDS, OVERLAP_WORDS in Hov.
  lia.
Qed.

Lemma C2_overlap_carry_over_witness :
  take 30
    (split (join [SPACE] (drop 120 (sentence_words 0 150)
                          ++ sentence_words 150 40
                          ++ sentence_words 190 100)))
  = tail_slice 30 (split (join [SPACE] (sentence_words 0 150)))
  /\ length (tail_slice 30 (split (join [SPACE] (sentence_words 0 150))))
     = 30.
Proof.
  refine (C2_overlap_carry_over
            [sentence 0 150; sentence 150 40; sentence 190 100] 0 _ _ _ _ _).
  - vm_compute. reflexivity.
  - vm_compute. reflexivity.
  - apply no_drop_after_three; vm_compute; reflexivity.
Defined.

(** C2, as stated, fails.  Sentences of 90, 90, 20 and 140 different
    words: the first two fill the buffer (180 words), the third
    overflows it, so chunk 0 is emitted and the buffer restarts with 50
    words; the fourth overflows that buffer of 50 words, which is not
    emitted and is cut down to its last 30 words.  Chunk 1 then starts
    with the last 10 words of the second sentence and the third
    sentence, while chunk 0 ends with the last 30 words of the second
    sentence. *)
Lemma C2_counterexample :
  let good := [sentence 0 90; sentence 90 90; sentence 180 20;
               sentence 200 140] in
  let chunk0 := join [SPACE] (sentence_words 0 90 ++ sentence_words 90 90) in
  let chunk1 :=
    join [SPACE] (drop 80 (sentence_words 90 90) ++ sentence_words 180 20
                  ++ sentence_words 200 140) in
  assemble good = [chunk0; chunk1]
  /\ take 30 (split chunk1)
     = drop 80 (sentence_words 90 90) ++ sentence_words 180 20
  /\ tail_slice 30 (split chunk0) = drop 60 (sentence_words 90 90)
  /\ take 30 (split chunk1) <> tail_slice 30 (split chunk0).
Proof.
  cbn zeta. split; [vm_compute; reflexivity|].
  split; [vm_compute; reflexivity|].
  split; [vm_compute; reflexivity|].
  intros E. vm_compute in E. discriminate.
Qed.

End OverlapClaim.

(** *** Buffers that are lost *)

Section LostWords.
Import Assembler.

(** *** The loop treats related lists alike *)

Lemma words_step_related {A B} (R : A -> B -> Prop)
    (st1 : list (list A) * list A) (st2 : list (list B) * list B)
    (w1 : list A) (w2 : list B) :
  Forall2 (Forall2 R) (fst st1) (fst st2) ->
  Forall2 R (snd st1) (snd st2) ->
  Forall2 R w1 w2 ->
  Forall2 (Forall2 R) (fst (words_step st1 w1)) (fst (words_step st2 w2))
  /\ Forall2 R (snd (words_step st1 w1)) (snd (words_step st2 w2)).
Proof.
  destruct st1 as [e1 c1], st2 as [e2 c2]. cbn [fst snd].
  intros He Hc Hw. unfold words_step, tail_slice.
  rewrite <- (Forall2_length _ _ _ Hc), <- (Forall2_length _ _ _ Hw).
  destruct (length c1 + length w1 <=? CHUNK_WORDS); cbn [fst snd].
  - split; [exact He|apply Forall2_app; assumption].
  - split.
    + destruct (MIN_WORDS <? length c1); [|exact He].
      apply Forall2_app; [exact He|]. constructor; [exact Hc|constructor].
    + apply Forall2_app; [|exact Hw]. apply Forall2_drop, Hc.
Qed.

Lemma words_loop_related {A B} (R : A -> B -> Prop)
    (ws1 : list (list A)) (ws2 : list (list B))
    (st1 : list (list A) * list A) (st2 : list (list B) * list B) :
  Forall2 (Forall2 R) ws1 ws2 ->
  Forall2 (Forall2 R) (fst st1) (fst st2) ->
  Forall2 R (snd st1) (snd st2) ->
  Forall2 (Forall2 R) (fst (words_loop st1 ws1)) (fst (words_loop st2 ws2))
  /\ Forall2 R (snd (words_loop st1 ws1)) (snd (words_loop st2 ws2)).
Proof.
  intros Hws. revert st1 st2.
  induction Hws as [|w1 w2 ws1 ws2 Hw _ IH]; intros st1 st2 He Hc;
    [auto|].
  cbn [words_loop List.fold_left].
  destruct (words_step_related R st1 st2 w1 w2 He Hc Hw) as [He' Hc'].
  apply IH; assumption.
Qed.

Lemma assemble_words_related {A B} (R : A -> B -> Prop)
    (ws1 : list (list A)) (ws2 : list (list B)) :
  Forall2 (Forall2 R) ws1 ws2 ->
  Forall2 (Forall2 R) (assemble_words ws1) (assemble_words ws2).
Proof.
  intros Hws. unfold assemble_words.
  destruct (words_loop_related R ws1 ws2 ([], []) ([], []) Hws)
    as [He Hc]; [constructor|constructor|].
  destruct (words_loop ([], []) ws1) as [e1 c1].
  destruct (words_loop ([], []) ws2) as [e2 c2].
  cbn [fst snd words_flush] in *.
  rewrite <- (Forall2_length _ _ _ Hc).
  destruct (MIN_WORDS <? length c1); [|exact He].
  apply Forall2_app; [exact He|]. constructor; [exact Hc|constructor].
Qed.

(** *** The positions of the words *)

Lemma number_from_app {A} (start : nat) (ws1 ws2 : list (list A)) :
  number_from start (ws1 ++ ws2)
  = number_from start ws1
    ++ number_from (start + length (List.concat ws1)) ws2.
Proof.
  revert start. induction ws1 as [|w ws1 IH]; intros start; cbn.
  - rewrite Nat.add_0_r. reflexivity.
  - rewrite IH, length_app, Nat.add_assoc. reflexivity.
Qed.

Lemma number_from_concat {A} (start : nat) (ws : list (list A)) :
  List.concat (number_from start ws) = seq start (length (List.concat ws)).
Proof.
  revert start. induction ws as [|w ws IH]; intros start; cbn;
    [reflexivity|].
  rewrite IH, length_app, seq_app. reflexivity.
Qed.

Lemma positions_NoDup {A} (ws : list (list A)) :
  NoDup (List.concat (positions ws)).
Proof. unfold positions. rewrite number_from_concat. apply NoDup_seq. Qed.

(** Each position holds its word. *)
Lemma number_from_words {A} (before : list A) (ws : list (list A)) :
  Forall2 (words_at (before ++ List.concat ws))
          (number_from (length before) ws) ws.
Proof.
  revert before. induction ws as [|w ws IH]; intros before; cbn;
    [constructor|].
  constructor.
  - unfold words_at. apply Forall2_same_length_lookup. split.
    + apply length_seq.
    + intros i p x Hp Hx. apply lookup_seq in Hp as [-> Hi].
      rewrite lookup_app_r by lia.
      replace (length before + i - length before) with i by lia.
      rewrite lookup_app_l by exact Hi. exact Hx.
  - specialize (IH (before ++ w)).
    rewrite length_app, <- app_assoc in IH. exact IH.
Qed.

Lemma positions_words {A} (ws : list (list A)) :
  Forall2 (words_at (List.concat ws)) (positions ws) ws.
Proof. exact (number_from_words [] ws). Qed.

(** *** What is shared between the buffer and the emitted buffers *)

(** When the words read are pairwise different, a word of the buffer
    that is also in an emitted buffer is in the tail carried over from
    the last emitted one. *)
Lemma words_loop_shared {A} (read : list (list A)) :
  NoDup (List.concat read) ->
  forall x b,
    x ∈ snd (words_loop ([], []) read) ->
    b ∈ fst (words_loop ([], []) read) ->
    x ∈ b ->
    exists a, last (fst (words_loop ([], []) read)) = Some a
              /\ x ∈ tail_slice OVERLAP_WORDS a.
Proof.
  induction read as [|w read IH] using rev_ind; intros Hnd x b.
  - cbn. intros H. inversion H.
  - rewrite words_loop_snoc.
    rewrite List.concat_app in Hnd. cbn [List.concat] in Hnd.
    rewrite app_nil_r in Hnd.
    apply NoDup_app in Hnd as (Hnd & Hdis & _).
    specialize (IH Hnd).
    destruct (words_loop_grows read [] []) as (later & cur & E & HF & Hc).
    rewrite E in *. cbn [app fst snd] in *.
    rewrite Forall_forall in HF.
    assert (Hfresh : forall y c, y ∈ w -> c ∈ later \/ c = cur -> y ∉ c).
    { intros y c Hy Hcin Hyc. apply (Hdis y); [|exact Hy].
      destruct Hcin as [Hcin| ->]; [exact (HF c Hcin y Hyc)|].
      exact (Hc y Hyc). }
    unfold words_step.
    destruct (length cur + length w <=? CHUNK_WORDS); cbn [fst snd].
    + intros Hx Hb Hxb. apply elem_of_app in Hx as [Hx|Hx].
      * eapply IH; eauto.
      * destruct (Hfresh x b Hx (or_introl Hb) Hxb).
    + destruct (MIN_WORDS <? length cur); cbn [fst snd].
      * intros Hx Hb Hxb. apply elem_of_app in Hx as [Hx|Hx].
        -- exists cur. rewrite last_snoc. auto.
        -- exfalso. apply (Hfresh x b Hx); [|exact Hxb].
           apply elem_of_app in Hb as [Hb|Hb]; [left; exact Hb|].
           apply list_elem_of_singleton in Hb. right. exact Hb.
      * intros Hx Hb Hxb. apply elem_of_app in Hx as [Hx|Hx].
        -- eapply IH; eauto. exact (subseteq_drop _ _ _ Hx).
        -- destruct (Hfresh x b Hx (or_introl Hb) Hxb).
Qed.

(** What happens after a buffer of at most 80 words overflows: nothing
    is emitted at that step, and every buffer emitted from then on is
    made of the last 30 words of the buffer, the new sentence and the
    sentences that follow. *)
Lemma words_after_drop {A} (wpre : list (list A)) (w : list A)
    (wpost : list (list A)) (emitted : list (list A)) (cur : list A) :
  words_loop ([], []) wpre = (emitted, cur) ->
  CHUNK_WORDS < length cur + length w ->
  length cur <= MIN_WORDS ->
  exists later,
    assemble_words (wpre ++ w :: wpost) = emitted ++ later
    /\ Forall (fun b => b ⊆ (tail_slice OVERLAP_WORDS cur ++ w)
                           ++ List.concat wpost) later.
Proof.
  intros Hpre Hov Hsmall. unfold assemble_words, words_loop.
  rewrite List.fold_left_app. fold (words_loop ([], []) wpre).
  rewrite Hpre. cbn [List.fold_left]. unfold words_step at 2.
  destruct (Nat.leb_spec (length cur + length w) CHUNK_WORDS); [lia|].
  destruct (Nat.ltb_spec MIN_WORDS (length cur)); [lia|].
  fold (words_loop (emitted, tail_slice OVERLAP_WORDS cur ++ w) wpost).
  destruct (words_loop_grows wpost emitted
              (tail_slice OVERLAP_WORDS cur ++ w))
    as (later & cur' & E & HF & Hc).
  rewrite E. cbn [words_flush].
  destruct (MIN_WORDS <? length cur').
  - exists (later ++ [cur']). rewrite app_assoc. split; [reflexivity|].
    apply Forall_app. split; [exact HF|]. constructor; [exact Hc|].
    constructor.
  - exists later. auto.
Qed.

(** The words a lost buffer loses, when the words of the text are
    pairwise different: all but its last 30 words and the tail it
    carried over from the last emitted buffer. *)
Lemma lost_words {A} (wpre : list (list A)) (w : list A)
    (wpost : list (list A)) (emitted : list (list A)) (cur : list A) :
  NoDup (List.concat (wpre ++ w :: wpost)) ->
  words_loop ([], []) wpre = (emitted, cur) ->
  CHUNK_WORDS < length cur + length w ->
  length cur <= MIN_WORDS ->
  forall x,
    x ∈ take (length cur - OVERLAP_WORDS) cur ->
    (forall a, last emitted = Some a -> x ∉ tail_slice OVERLAP_WORDS a) ->
    forall b, b ∈ assemble_words (wpre ++ w :: wpost) -> x ∉ b.
Proof.
  intros Hnd Hpre Hov Hsmall x Hx Hcarried b Hb Hxb.
  rewrite List.concat_app in Hnd. cbn [List.concat] in Hnd.
  apply NoDup_app in Hnd as (Hndpre & Hdis & _).
  destruct (words_loop_grows wpre [] []) as (l0 & c0 & E0 & _ & Hsub).
  rewrite Hpre in E0. injection E0 as _ <-. cbn [app] in Hsub.
  assert (Hndcur : NoDup cur).
  { pose proof (words_loop_NoDup wpre [] []) as H.
    rewrite Hpre in H. apply H. exact Hndpre. }
  assert (Hxcur : x ∈ cur) by exact (subseteq_take _ _ _ Hx).
  destruct (words_after_drop wpre w wpost emitted cur Hpre Hov Hsmall)
    as (later & Ea & HF).
  rewrite Ea in Hb. apply elem_of_app in Hb as [Hb|Hb].
  - pose proof (words_loop_shared wpre Hndpre x b) as Hs.
    rewrite Hpre in Hs. cbn [fst snd] in Hs.
    destruct (Hs Hxcur Hb Hxb) as (a & Ha & Hxa).
    exact (Hcarried a Ha Hxa).
  - rewrite Forall_forall in HF. specialize (HF b Hb x Hxb).
    rewrite <- app_assoc in HF. apply elem_of_app in HF as [HF|HF].
    + unfold tail_slice in HF.
      rewrite <- (take_drop (length cur - OVERLAP_WORDS) cur) in Hndcur.
      apply NoDup_app in Hndcur as (_ & Hd & _). exact (Hd x Hx HF).
    + apply (Hdis x); [apply Hsub, Hxcur|exact HF].
Qed.

End LostWords.

Section LostWordsClaim.
Import Assembler Samples.

Lemma number_from_length {A} (start : nat) (ws : list (list A)) :
  length (number_from start ws) = length ws.
Proof.
  revert start. induction ws as [|w ws IH]; intros start; cbn;
    [reflexivity|]. rewrite IH. reflexivity.
Qed.

Lemma Forall2_and_r {A B} (Q : A -> B -> Prop) (W : B -> Prop)
    (l : list A) (k : list B) :
  Forall2 Q l k -> Forall W k -> Forall2 (fun x y => Q x y /\ W y) l k.
Proof.
  induction 1 as [|x y l k Hxy _ IH]; intros HW; [constructor|].
  inversion HW; subst. constructor; auto.
Qed.

(** The buffers of the loop on the words of sentences are made of
    words. *)
Lemma words_loop_words (good : list str) :
  Forall (Forall is_word) (fst (words_loop ([], []) (List.map split good)))
  /\ Forall is_word (snd (words_loop ([], []) (List.map split good))).
Proof.
  destruct (words_loop_grows (List.map split good) [] [])
    as (later & cur & E & HF & Hc).
  rewrite E. cbn [app fst snd] in *.
  pose proof (concat_words good) as Hw. rewrite Forall_forall in Hw.
  split.
  - eapply Forall_impl; [exact HF|]. intros b Hb.
    apply Forall_forall. intros x Hx. apply Hw, Hb, Hx.
  - apply Forall_forall. intros x Hx. apply Hw, Hc, Hx.
Qed.

(** The chunks are the joins of word lists that hold the words at the
    positions the loop emits when it runs on positions. *)
Lemma joined_words_at (all : list str) (ps : list (list nat))
    (bs : list (list str)) :
  Forall2 (words_at all) ps bs ->
  Forall (Forall is_word) bs ->
  Forall2 (fun p c => words_at all p (split c)) ps (join_all bs).
Proof.
  intros H HW. unfold join_all.
  change (List.map (join [SPACE]) bs) with (join [SPACE] <$> bs).
  apply Forall2_fmap_r.
  eapply Forall2_impl; [exact (Forall2_and_r _ _ _ _ H HW)|].
  intros p b [Hp Hb]. unfold compose. rewrite (split_join b Hb). exact Hp.
Qed.

(** C10, as amended.  The occurrences of the words are told apart by
    their positions in the text: every chunk holds the words at the
    positions that the loop emits when it is run on the positions.
    Some sentence sequences lose words of kept sentences.  Whenever
    appending a sentence would push the buffer past 180 words while the
    buffer holds at most 80 words, the buffer is not emitted and is
    replaced by its last 30 words plus the new sentence; every earlier
    word of that buffer that is not in the 30-word tail carried over
    from the chunk emitted last appears in no emitted chunk. *)
Theorem C10_dropped_buffer_words :
  (forall good : list str,
      Forall2 (fun p c =>
                 words_at (List.concat (List.map split good)) p (split c))
        (assemble_words (positions (List.map split good)))
        (assemble good))
  /\ (exists (good : list str) (i : nat) (x : str),
         List.concat (List.map split good) !! i = Some x
         /\ Forall (fun p => i ∉ p)
              (assemble_words (positions (List.map split good))))
  /\ forall (pre : list str) (sent : str) (post : list str)
            (chunks : list str) (cur : list str),
       chunk_loop ([], []) pre = (chunks, cur) ->
       CHUNK_WORDS < length cur + length (split sent) ->
       length cur <= MIN_WORDS ->
       chunk_step (chunks, cur) sent
       = (chunks, tail_slice OVERLAP_WORDS cur ++ split sent)
       /\ exists (emitted_at : list (list nat)) (cur_at : list nat),
            words_loop ([], []) (positions (List.map split pre))
            = (emitted_at, cur_at)
            /\ words_at
                 (List.concat (List.map split (pre ++ sent :: post)))
                 cur_at cur
            /\ Forall2
                 (fun p c =>
                    words_at
                      (List.concat (List.map split (pre ++ sent :: post)))
                      p (split c))
                 emitted_at chunks
            /\ forall i,
                 i ∈ take (length cur_at - OVERLAP_WORDS) cur_at ->
                 (forall a, last emitted_at = Some a ->
                            i ∉ tail_slice OVERLAP_WORDS a) ->
                 forall p,
                   p ∈ assemble_words
                         (positions
                            (List.map split (pre ++ sent :: post))) ->
                   i ∉ p.
Proof.
  split; [|split].
  { intros good. rewrite assemble_words_join_all.
    apply joined_words_at.
    - apply assemble_words_related, positions_words.
    - unfold assemble_words.
      destruct (words_loop_words good) as [He Hc].
      destruct (words_loop ([], []) (List.map split good)) as [e c].
      cbn [fst snd words_flush] in *.
      destruct (MIN_WORDS <? length c); [|exact He].
      apply Forall_app. split; [exact He|].
      constructor; [exact Hc|constructor]. }
  { exists [sentence 0 50; sentence 0 150], 0, (word_no 0).
    split; [vm_compute; reflexivity|]. decide_by_compute. }
  intros pre sent post chunks cur Hpre Hov Hsmall. split.
  { unfold chunk_step.
    destruct (Nat.leb_spec (length cur + length (split sent)) CHUNK_WORDS);
      [lia|].
    destruct (Nat.ltb_spec MIN_WORDS (length cur)); [lia|reflexivity]. }
  change (@nil str) with (join_all []) in Hpre at 1.
  rewrite chunk_loop_words in Hpre.
  destruct (words_loop_words pre) as [Hwe Hwc].
  destruct (words_loop ([], []) (List.map split pre)) as [emitted cur0]
    eqn:Hw.
  cbn [fst snd] in Hpre, Hwe, Hwc. injection Hpre as <- ->.
  set (wpre := List.map split pre) in *.
  set (all := List.concat (List.map split (pre ++ sent :: post))).
  assert (Ews : List.map split (pre ++ sent :: post)
                = wpre ++ split sent :: List.map split post).
  { rewrite List.map_app. reflexivity. }
  assert (Epos : positions (List.map split (pre ++ sent :: post))
                 = positions wpre
                   ++ seq (0 + length (List.concat wpre))
                        (length (split sent))
                   :: number_from
                        (0 + length (List.concat wpre)
                         + length (split sent))
                        (List.map split post)).
  { rewrite Ews. unfold positions. rewrite number_from_app. reflexivity. }
  assert (Hrel : Forall2 (words_at all) (positions wpre) wpre).
  { pose proof (positions_words (List.map split (pre ++ sent :: post)))
      as H.
    fold all in H. rewrite Epos, Ews in H.
    apply Forall2_app_inv in H; [tauto|].
    apply number_from_length. }
  destruct (words_loop_related (fun i x => all !! i = Some x)
              (positions wpre) wpre ([], []) ([], []) Hrel)
    as [He Hc]; [constructor|constructor|].
  rewrite Hw in He, Hc.
  destruct (words_loop ([], []) (positions wpre)) as [emitted_at cur_at]
    eqn:Hwp.
  cbn [fst snd] in He, Hc.
  exists emitted_at, cur_at.
  split; [reflexivity|]. split; [exact Hc|].
  split; [apply joined_words_at; assumption|].
  pose proof (Forall2_length _ _ _ Hc) as Hlen.
  rewrite Epos.
  apply (lost_words (positions wpre) _ _ emitted_at cur_at).
  - rewrite <- Epos. apply positions_NoDup.
  - exact Hwp.
  - rewrite length_seq, Hlen. exact Hov.
  - rewrite Hlen. exact Hsmall.
Qed.

Lemma C10_dropped_buffer_words_witness :
  chunk_step ([], sentence_words 0 50) (sentence 0 150)
  = ([], tail_slice OVERLAP_WORDS (sentence_words 0 50)
         ++ split (sentence 0 150))
  /\ exists (emitted_at : list (list nat)) (cur_at : list nat),
       words_loop ([], []) (positions (List.map split [sentence 0 50]))
       = (emitted_at, cur_at)
       /\ words_at
            (List.concat
               (List.map split ([sentence 0 50] ++ sentence 0 150 :: [])))
            cur_at (sentence_words 0 50)
       /\ Forall2
            (fun p c =>
               words_at
                 (List.concat
                    (List.map split
                       ([sentence 0 50] ++ sentence 0 150 :: [])))
                 p (split c))
            emitted_at []
       /\ forall i,
            i ∈ take (length cur_at - OVERLAP_WORDS) cur_at ->
            (forall a, last emitted_at = Some a ->
                       i ∉ tail_slice OVERLAP_WORDS a) ->
            forall p,
              p ∈ assemble_words
                    (positions
                       (List.map split
                          ([sentence 0 50] ++ sentence 0 150 :: []))) ->
              i ∉ p.
Proof.
  refine (proj2 (proj2 C10_dropped_buffer_words) [sentence 0 50]
            (sentence 0 150) [] [] (sentence_words 0 50) _ _ _).
  - vm_compute. reflexivity.
  - vm_compute. lia.
  - vm_compute. lia.
Defined.

(** C10, as stated, fails.  Sentences of 90, 90, 20 and 140 pairwise
    different words: the third sentence overflows the full buffer, which
    is emitted as chunk 0, and the buffer restarts with the last 30 words
    of chunk 0 and the third sentence.  The fourth sentence overflows
    that buffer of 50 words, which is not emitted; its earlier words are
    words 150 to 169, and word 150 is in chunk 0, emitted before. *)
Lemma C10_counterexample :
  let pre := [sentence 0 90; sentence 90 90; sentence 180 20] in
  let sent := sentence 200 140 in
  let chunk0 := join [SPACE] (sentence_words 0 90 ++ sentence_words 90 90) in
  let cur := drop 60 (sentence_words 90 90) ++ sentence_words 180 20 in
  NoDup (List.concat (List.map split (pre ++ [sent])))
  /\ chunk_loop ([], []) pre = ([chunk0], cur)
  /\ CHUNK_WORDS < length cur + length (split sent)
  /\ length cur <= MIN_WORDS
  /\ word_no 150 ∈ take (length cur - OVERLAP_WORDS) cur
  /\ chunk0 ∈ assemble (pre ++ [sent])
  /\ word_no 150 ∈ split chunk0.
Proof.
  cbn zeta.
  split; [decide_by_compute|].
  split; [vm_compute; reflexivity|].
  split; [vm_compute; lia|].
  split; [vm_compute; lia|].
  split; [decide_by_compute|].
  split; decide_by_compute.
Qed.

End LostWordsClaim.

(** ** Regular expression substitution *)

Section ReFacts.
Import Re.
Variable p : pattern.
Variable repl : str -> str.

(** Skipping the rest of a match is dropping it. *)
Lemma sub_from_drop (skip : nat) (s : str) :
  sub_from p repl skip s = sub p repl (drop skip s).
Proof.
  revert skip. induction s as [|c r IH]; intros skip.
  - destruct skip; reflexivity.
  - destruct skip as [|k]; [reflexivity|]. cbn [sub_from drop]. apply IH.
Qed.

(** The scan at a character: either a match starts here and the scan
    resumes after it, or the character is copied. *)
Lemma sub_cons (c : char) (r : str) :
  sub p repl (c :: r)
  = match re_match p (c :: r) with
    | Some (S n) => repl (take (S n) (c :: r)) ++ sub p repl (drop n r)
    | _ => c :: sub p repl r
    end.
Proof.
  unfold sub at 1. cbn [sub_from].
  destruct (re_match p (c :: r)) as [[|n]|]; try reflexivity.
  rewrite sub_from_drop. reflexivity.
Qed.

(** A property of characters that the replacement keeps is kept by the
    substitution. *)
Lemma sub_Forall (P : char -> Prop) (s : str) :
  (forall m, Forall P m -> Forall P (repl m)) ->
  Forall P s -> Forall P (sub p repl s).
Proof.
  intros Hrepl. unfold sub. generalize 0 as skip.
  induction s as [|c r IH]; intros skip Hs; [constructor|].
  assert (Hr : Forall P r) by (inversion Hs; assumption).
  cbn [sub_from]. destruct skip as [|k]; [|apply IH, Hr].
  destruct (re_match p (c :: r)) as [[|n]|].
  - constructor; [inversion Hs; assumption|apply IH, Hr].
  - apply Forall_app. split; [|apply IH, Hr].
    apply Hrepl, Forall_take, Hs.
  - constructor; [inversion Hs; assumption|apply IH, Hr].
Qed.

(** Where no match starts anywhere, nothing changes. *)
Lemma sub_no_match (s : str) :
  (forall k, k < length s -> re_match p (drop k s) = None) ->
  sub p repl s = s.
Proof.
  induction s as [|c r IH]; intros Hno; [reflexivity|].
  rewrite sub_cons.
  assert (H0 : re_match p (c :: r) = None) by (apply (Hno 0); cbn; lia).
  rewrite H0. f_equal. apply IH. intros k Hk. apply (Hno (S k)). cbn. lia.
Qed.

End ReFacts.

Section RunFacts.
Import Re Normalizer.

(** A greedy repetition that ends the pattern takes the whole run. *)
Lemma re_star_run (cls : char -> bool) (s : str) :
  re_star cls (fun _ => Some 0) s = Some (run cls s).
Proof.
  induction s as [|c r IH]; [reflexivity|]. cbn [re_star run].
  destruct (cls c); [rewrite IH|]; reflexivity.
Qed.

Lemma run_le (cls : char -> bool) (s : str) : run cls s <= length s.
Proof. induction s as [|c r IH]; cbn; [lia|]. destruct (cls c); cbn; lia. Qed.

(** The character after the run, if any, is not in the class. *)
Lemma drop_run_head (cls : char -> bool) (s : str) (c : char) (r : str) :
  drop (run cls s) s = c :: r -> cls c = false.
Proof.
  induction s as [|a s IH]; cbn; [discriminate|].
  destruct (cls a) eqn:Ha; cbn; [exact IH|].
  intros E. injection E as <- _. exact Ha.
Qed.

Lemma no_adjacent_cons (bad : char -> char -> bool) (a : char) (s : str) :
  no_adjacent bad (a :: s)
  <-> (forall b r, s = b :: r -> bad a b = false) /\ no_adjacent bad s.
Proof.
  cbn [no_adjacent]. destruct s as [|b r].
  - split; [intros [_ H]; split; [discriminate|exact H]|].
    intros [_ H]. split; [exact I|exact H].
  - split.
    + intros [H1 H2]. split; [|exact H2].
      intros b' r' E. injection E as <- <-. exact H1.
    + intros [H1 H2]. split; [eapply H1; reflexivity|exact H2].
Qed.

Lemma no_adjacent_drop (bad : char -> char -> bool) (k : nat) (s : str) :
  no_adjacent bad s -> no_adjacent bad (drop k s).
Proof.
  revert s. induction k as [|k IH]; intros s Hs; [exact Hs|].
  destruct s as [|a s]; [exact I|]. cbn [drop]. apply IH.
  apply no_adjacent_cons in Hs. tauto.
Qed.


End RunFacts.

(** ** TextNormalizer *)

Section WhitespaceFacts.
Import Re Normalizer.

Lemma match_blanks (s : str) :
  re_match re_blanks s
  = match s with
    | c :: r => if blank c then Some (S (run blank r)) else None
    | [] => None
    end.
Proof.
  destruct s as [|c r]; [reflexivity|].
  cbn [re_match re_blanks].
  change (re_match []) with (fun _ : str => Some 0).
  rewrite re_star_run. destruct (blank c); reflexivity.
Qed.

Lemma collapse_blanks_copy (c : char) (r : str) :
  blank c = false -> collapse_blanks (c :: r) = c :: collapse_blanks r.
Proof.
  intros Hc. unfold collapse_blanks. rewrite sub_cons, match_blanks, Hc.
  reflexivity.
Qed.

Lemma collapse_blanks_run (c : char) (r : str) :
  blank c = true ->
  collapse_blanks (c :: r)
  = SPACE :: collapse_blanks (drop (run blank r) r).
Proof.
  intros Hc. unfold collapse_blanks. rewrite sub_cons, match_blanks, Hc.
  reflexivity.
Qed.


(** After [[ \t]+] has been replaced by one space there is no tab and
    no two spaces in a row. *)
Lemma collapse_blanks_tidy (s : str) :
  Forall (fun c => c <> TAB) (collapse_blanks s)
  /\ no_adjacent space_space (collapse_blanks s).
Proof.
  remember (length s) as n eqn:Hn.
  assert (Hle : length s <= n) by lia. clear Hn. revert s Hle.
  induction n as [|n IH]; intros s Hle.
  - destruct s; [|cbn in Hle; lia]. split; [constructor|exact I].
  - destruct s as [|c r]; [split; [constructor|exact I]|].
    cbn in Hle. destruct (blank c) eqn:Hc.
    + rewrite (collapse_blanks_run c r Hc).
      pose proof (run_le blank r) as Hrun.
      destruct (IH (drop (run blank r) r)) as [H1 H2];
        [rewrite length_drop; lia|].
      split; [constructor; [discriminate|exact H1]|].
      apply no_adjacent_cons. split; [|exact H2].
      intros b t E.
      destruct (drop (run blank r) r) as [|c' r'] eqn:Ed.
      * discriminate.
      * pose proof (drop_run_head _ _ _ _ Ed) as Hc'.
        rewrite (collapse_blanks_copy c' r' Hc') in E.
        injection E as <- _. unfold space_space.
        destruct (N.eqb_spec c' SPACE) as [-> |]; [discriminate Hc'|].
        apply andb_false_r.
    + rewrite (collapse_blanks_copy c r Hc).
      destruct (IH r) as [H1 H2]; [lia|].
      split.
      * constructor; [|exact H1]. intros ->. discriminate.
      * apply no_adjacent_cons. split; [|exact H2].
        intros b t _. unfold space_space.
        destruct (N.eqb_spec c SPACE) as [-> |]; [discriminate Hc|].
        reflexivity.
Qed.


End WhitespaceFacts.

Section NewlineFacts.
Import Re Normalizer.

(** [ *\n *] matches exactly when the run of spaces at the start is
    followed by a newline, and takes the spaces after it too. *)
Lemma match_newline (s : str) :
  re_match re_newline s
  = match drop (run space s) s with
    | c :: t =>
        if (c =? NEWLINE)%N
        then Some (run space s + S (run space t)) else None
    | [] => None
    end.
Proof.
  change (re_match re_newline s)
    with (re_star space
            (fun s' : str =>
               match s' with
               | c :: r =>
                   if (c =? NEWLINE)%N
                   then S <$> re_star space (fun _ => Some 0) r
                   else None
               | [] => None
               end) s).
  induction s as [|c r IH]; [reflexivity|].
  cbn [re_star run]. destruct (space c) eqn:Hc.
  - rewrite IH. cbn [drop].
    destruct (drop (run space r) r) as [|c0 t]; cbn.
    + apply N.eqb_eq in Hc. subst c. reflexivity.
    + destruct (c0 =? NEWLINE)%N; [reflexivity|].
      apply N.eqb_eq in Hc. subst c. reflexivity.
  - cbn [drop]. destruct (c =? NEWLINE)%N; [|reflexivity].
    rewrite re_star_run. reflexivity.
Qed.

Lemma trim_newlines_match (s t : str) :
  drop (run space s) s = NEWLINE :: t ->
  trim_newlines s = NEWLINE :: trim_newlines (drop (run space t) t).
Proof.
  intros Ed. destruct s as [|c r]; [discriminate|].
  unfold trim_newlines. rewrite sub_cons, match_newline, Ed.
  cbn [N.eqb Pos.eqb NEWLINE].
  replace (run space (c :: r) + S (run space t))
    with (S (run space (c :: r) + run space t)) by lia.
  cbn [const app]. f_equal. f_equal.
  change (drop (run space (c :: r) + run space t) r)
    with (drop (S (run space (c :: r) + run space t)) (c :: r)).
  replace (S (run space (c :: r) + run space t))
    with (run space (c :: r) + S (run space t)) by lia.
  rewrite <- drop_drop, Ed. reflexivity.
Qed.

Lemma trim_newlines_copy (c : char) (r : str) :
  (forall t, drop (run space (c :: r)) (c :: r) <> NEWLINE :: t) ->
  trim_newlines (c :: r) = c :: trim_newlines r.
Proof.
  intros Hno. unfold trim_newlines. rewrite sub_cons, match_newline.
  destruct (drop (run space (c :: r)) (c :: r)) as [|c0 t]; [reflexivity|].
  destruct (N.eqb_spec c0 NEWLINE) as [-> |]; [|reflexivity].
  exfalso. eapply Hno. reflexivity.
Qed.

(** The two cases of the scan at the start of a non-empty text. *)
Lemma newline_cases (s : str) :
  (exists t, drop (run space s) s = NEWLINE :: t)
  \/ (forall t, drop (run space s) s <> NEWLINE :: t).
Proof.
  destruct (drop (run space s) s) as [|c0 t]; [right; discriminate|].
  destruct (N.eqb_spec c0 NEWLINE) as [-> |Hn]; [left; eauto|].
  right. intros t' E. injection E as -> _. contradiction.
Qed.

(** An output that starts with a space copies a space of the input. *)
Lemma trim_newlines_head_space (s rest : str) :
  trim_newlines s = SPACE :: rest -> exists r, s = SPACE :: r.
Proof.
  destruct s as [|c r]; [discriminate|].
  destruct (newline_cases (c :: r)) as [[t Ed]|Hno].
  - rewrite (trim_newlines_match _ _ Ed). discriminate.
  - rewrite (trim_newlines_copy _ _ Hno). intros E. injection E as -> _.
    eauto.
Qed.

(** An output that starts with a newline comes from a match at the
    start of the input. *)
Lemma trim_newlines_head_newline (s rest : str) :
  trim_newlines s = NEWLINE :: rest ->
  exists t, drop (run space s) s = NEWLINE :: t.
Proof.
  destruct s as [|c r]; [discriminate|].
  destruct (newline_cases (c :: r)) as [[t Ed]|Hno]; [eauto|].
  rewrite (trim_newlines_copy _ _ Hno). intros E. injection E as -> _.
  exfalso. apply (Hno r). reflexivity.
Qed.

Lemma untidy_pair_false (a b : char) :
  untidy_pair a b = false
  <-> ~ (a = SPACE /\ b = SPACE) /\ ~ (a = SPACE /\ b = NEWLINE)
      /\ ~ (a = NEWLINE /\ b = SPACE).
Proof.
  unfold untidy_pair.
  destruct (N.eqb_spec a SPACE), (N.eqb_spec b SPACE),
    (N.eqb_spec b NEWLINE), (N.eqb_spec a NEWLINE);
    cbn; intuition (subst; try congruence; try discriminate).
Qed.

(** After [ *\n *] has been replaced by a newline, a text that had no
    two spaces in a row has no two spaces in a row and no space next to
    a newline. *)
Lemma trim_newlines_tidy (s : str) :
  no_adjacent space_space s -> no_adjacent untidy_pair (trim_newlines s).
Proof.
  remember (length s) as n eqn:Hn.
  assert (Hle : length s <= n) by lia. clear Hn. revert s Hle.
  induction n as [|n IH]; intros s Hle Hs.
  - destruct s; [exact I|cbn in Hle; lia].
  - destruct s as [|c r]; [exact I|]. cbn in Hle.
    destruct (newline_cases (c :: r)) as [[t Ed]|Hno].
    + rewrite (trim_newlines_match _ _ Ed).
      assert (Hlen : length t < length (c :: r)).
      { apply (f_equal length) in Ed. rewrite length_drop in Ed.
        cbn in Ed |- *. lia. }
      assert (Ht : no_adjacent space_space t).
      { apply (no_adjacent_drop _ (run space (c :: r))) in Hs.
        rewrite Ed in Hs. apply no_adjacent_cons in Hs. tauto. }
      pose proof (run_le space t) as Hrun.
      apply no_adjacent_cons. split.
      * intros b rest E. apply untidy_pair_false.
        split; [intros [H _]; discriminate|].
        split; [intros [H _]; discriminate|].
        intros [_ ->].
        destruct (trim_newlines_head_space _ _ E) as [r' Er'].
        pose proof (drop_run_head _ _ _ _ Er'). discriminate.
      * apply IH; [rewrite length_drop; cbn in Hlen; lia|].
        apply no_adjacent_drop, Ht.
    + rewrite (trim_newlines_copy _ _ Hno).
      apply no_adjacent_cons in Hs as [Hh Hs].
      apply no_adjacent_cons. split; [|apply IH; [lia|exact Hs]].
      intros b rest E. apply untidy_pair_false. split; [|split].
      * intros [-> ->].
        destruct (trim_newlines_head_space _ _ E) as [r' ->].
        specialize (Hh _ _ eq_refl). discriminate.
      * intros [-> ->].
        destruct (trim_newlines_head_newline _ _ E) as [t Et].
        apply (Hno t). exact Et.
      * intros [-> _]. apply (Hno r). reflexivity.
Qed.



End NewlineFacts.

Section HyphenFacts.
Import Re Normalizer.

Lemma match_hyphen_break (s : str) :
  re_match re_hyphen_break s
  = match s with
    | a :: h :: n :: b :: _ =>
        if ascii_lower a && (h =? HYPHEN)%N && (n =? NEWLINE)%N
           && ascii_lower b
        then Some 4 else None
    | _ => None
    end.
Proof.
  destruct s as [|a [|h [|n [|b r]]]]; cbn;
    repeat match goal with
           | |- context [if ?x then _ else _] => destruct x; cbn
           end; reflexivity.
Qed.

(** The scan of the hyphen fix never changes the first character. *)
Lemma hyphen_fix_cases (c : char) (r : str) :
  hyphen_fix (c :: r) = c :: hyphen_fix r
  \/ exists b r',
       r = HYPHEN :: NEWLINE :: b :: r'
       /\ ascii_lower c = true /\ ascii_lower b = true
       /\ hyphen_fix (c :: r) = c :: b :: hyphen_fix r'.
Proof.
  unfold hyphen_fix. rewrite sub_cons, match_hyphen_break.
  destruct r as [|h [|n [|b r']]]; auto.
  destruct (ascii_lower c) eqn:Hc; [|auto].
  destruct (N.eqb_spec h HYPHEN) as [-> |]; [|auto].
  destruct (N.eqb_spec n NEWLINE) as [-> |]; [|auto].
  destruct (ascii_lower b) eqn:Hb; [|auto].
  right. exists b, r'. auto.
Qed.

Lemma hyphen_fix_head (s : str) (b : char) (rest : str) :
  hyphen_fix s = b :: rest -> exists r, s = b :: r.
Proof.
  destruct s as [|c r]; [discriminate|].
  destruct (hyphen_fix_cases c r) as [E|(b' & r' & _ & _ & _ & E)];
    rewrite E; intros E'; injection E' as -> _; eauto.
Qed.

Lemma lower_not_untidy (a b : char) :
  ascii_lower a = true -> untidy_pair a b = false.
Proof.
  intros Ha. apply untidy_pair_false.
  repeat split; intros [H1 H2]; subst; discriminate.
Qed.

(** The hyphen fix keeps a tidy text tidy. *)
Lemma hyphen_fix_no_adjacent (s : str) :
  no_adjacent untidy_pair s -> no_adjacent untidy_pair (hyphen_fix s).
Proof.
  remember (length s) as n eqn:Hn.
  assert (Hle : length s <= n) by lia. clear Hn. revert s Hle.
  induction n as [|n IH]; intros s Hle Hs.
  - destruct s; [exact I|cbn in Hle; lia].
  - destruct s as [|c r]; [exact I|]. cbn in Hle.
    destruct (hyphen_fix_cases c r)
      as [E|(b & r' & -> & Hc & Hb & E)]; rewrite E.
    + apply no_adjacent_cons in Hs as [Hh Hs].
      apply no_adjacent_cons. split; [|apply IH; [lia|exact Hs]].
      intros b rest Eb. destruct (hyphen_fix_head _ _ _ Eb) as [r' ->].
      eapply Hh. reflexivity.
    + apply (no_adjacent_drop _ 3) in Hs. cbn [drop] in Hs.
      apply no_adjacent_cons in Hs as [Hh Hs].
      apply no_adjacent_cons. split; [intros; apply lower_not_untidy, Hc|].
      apply no_adjacent_cons. split.
      * intros b' rest Eb. destruct (hyphen_fix_head _ _ _ Eb) as [r'' ->].
        eapply Hh. reflexivity.
      * apply IH; [cbn in Hle; lia|exact Hs].
Qed.

Lemma groups_1_2_Forall (P : char -> Prop) (m : str) :
  Forall P m -> Forall P (groups_1_2 m).
Proof.
  intros H. apply Forall_app. split; [apply Forall_take|apply Forall_drop];
    exact H.
Qed.

End HyphenFacts.

Section CharacterFacts.
Import Re Normalizer.

Lemma replace1_absent (k : char) (v s : str) :
  Forall (fun c => c <> k) s -> replace1 k v s = s.
Proof.
  induction 1 as [|c s Hc _ IH]; [reflexivity|].
  unfold replace1 in *. cbn [List.flat_map]. rewrite IH.
  destruct (N.eqb_spec c k); [contradiction|reflexivity].
Qed.

Lemma replace_table_absent (table : list (char * str)) (s : str) :
  Forall (fun c => ~ In c (List.map fst table)) s ->
  replace_table table s = s.
Proof.
  induction table as [|[k v] table IH]; intros Hs; [reflexivity|].
  unfold replace_table in *. cbn [List.fold_left fst snd].
  rewrite replace1_absent.
  - apply IH. eapply Forall_impl; [exact Hs|].
    intros c Hc Hin. apply Hc. right. exact Hin.
  - eapply Forall_impl; [exact Hs|].
    intros c Hc ->. apply Hc. left. reflexivity.
Qed.

(** After a table of replacements whose values bring back none of its
    keys, no key is left. *)
Lemma replace_table_clean (table : list (char * str))
    (Q : char -> Prop) (s : str) :
  Forall (fun kv =>
            Forall (fun c => Q c /\ ~ In c (List.map fst table)) (snd kv))
         table ->
  Forall Q s ->
  Forall (fun c => Q c /\ ~ In c (List.map fst table))
         (replace_table table s).
Proof.
  revert Q s. induction table as [|[k v] table IH]; intros Q s Hv Hs.
  - cbn. eapply Forall_impl; [exact Hs|]. intros c Hc. split; [exact Hc|].
    intros [].
  - inversion Hv as [|? ? Hv1 Hv2]; subst. cbn [fst snd List.map] in *.
    unfold replace_table. cbn [List.fold_left fst snd].
    fold (replace_table table (replace1 k v s)).
    assert (H1 : Forall (fun c => Q c /\ c <> k) (replace1 k v s)).
    { unfold replace1. clear -Hs Hv1.
      induction Hs as [|c s Hc _ IHs]; cbn [List.flat_map]; [constructor|].
      apply Forall_app. split; [|exact IHs].
      destruct (N.eqb_spec c k) as [-> |Hn].
      - eapply Forall_impl; [exact Hv1|]. intros c [Hq Hin].
        split; [exact Hq|]. intros ->. apply Hin. left. reflexivity.
      - constructor; [auto|constructor]. }
    assert (H2 : Forall (fun kv =>
                  Forall (fun c => (Q c /\ c <> k)
                                   /\ ~ In c (List.map fst table)) (snd kv))
                  table).
    { eapply Forall_impl; [exact Hv2|]. intros kv Hkv.
      eapply Forall_impl; [exact Hkv|]. intros c [Hq Hin].
      split; [split; [exact Hq|]|].
      - intros ->. apply Hin. left. reflexivity.
      - intros Hi. apply Hin. right. exact Hi. }
    specialize (IH _ _ H2 H1).
    eapply Forall_impl; [exact IH|]. intros c [[Hq Hk] Hin].
    split; [exact Hq|]. intros [<- |Hi]; [apply Hk; reflexivity|auto].
Qed.

Lemma match_zero_width (s : str) :
  re_match re_zero_width s
  = match s with
    | c :: _ => if zero_width c then Some 1 else None
    | [] => None
    end.
Proof. destruct s as [|c r]; cbn; [|destruct (zero_width c)]; reflexivity. Qed.

Lemma remove_zero_width_clean (s : str) :
  Forall (fun c => zero_width c = false) (sub re_zero_width erase s).
Proof.
  induction s as [|c r IH]; [constructor|].
  rewrite sub_cons, match_zero_width.
  destruct (zero_width c) eqn:Hc; [exact IH|]. constructor; assumption.
Qed.


(** Character normalization leaves only plain characters. *)
Lemma character_normalize_plain (text : str) :
  Forall plain (character_normalize text).
Proof.
  unfold character_normalize.
  assert (H1 : Forall (fun c => True /\ ~ In c (List.map fst ligatures))
                 (replace_table ligatures text)).
  { apply replace_table_clean; [|apply Forall_forall; auto].
    repeat constructor; cbn; intuition discriminate. }
  assert (H2 : Forall (fun c => (True /\ ~ In c (List.map fst ligatures))
                                /\ ~ In c (List.map fst quotes))
                 (replace_table quotes (replace_table ligatures text))).
  { apply replace_table_clean; [|exact H1].
    repeat constructor; cbn; intuition discriminate. }
  pose proof (remove_zero_width_clean
                (replace_table quotes (replace_table ligatures text))) as H3.
  assert (H4 := sub_Forall re_zero_width erase _ _
                  (fun m _ => Forall_nil_2 _) H2).
  rewrite Forall_forall in H3, H4. apply Forall_forall. intros c Hc.
  specialize (H3 c Hc). specialize (H4 c Hc). unfold plain. tauto.
Qed.


End CharacterFacts.

Section NormalizerClaims.
Import Re Normalizer.
Context {U : UnicodeDB}.

Lemma plain_space : plain SPACE.
Proof. unfold plain. cbn. intuition discriminate. Qed.

Lemma plain_newline : plain NEWLINE.
Proof. unfold plain. cbn. intuition discriminate. Qed.

(** The normalizer's output has only plain characters. *)
Lemma normalize_plain (text : str) : Forall plain (normalize text).
Proof.
  unfold normalize, hyphen_fix, whitespace_normalize, trim_newlines,
    collapse_blanks, remove_artifacts.
  apply sub_Forall; [apply groups_1_2_Forall|].
  apply sub_Forall;
    [intros; constructor; [apply plain_newline|constructor]|].
  apply sub_Forall;
    [intros; constructor; [apply plain_space|constructor]|].
  do 3 (apply sub_Forall; [intros; constructor|]).
  apply character_normalize_plain.
Qed.

(** The normalizer's output is tidy. *)
Lemma normalize_tidy (text : str) : tidy (normalize text).
Proof.
  unfold normalize, whitespace_normalize.
  set (t := remove_artifacts (character_normalize text)).
  destruct (collapse_blanks_tidy t) as [Htab Hsp]. split.
  - unfold hyphen_fix, trim_newlines.
    apply sub_Forall; [apply groups_1_2_Forall|].
    apply sub_Forall; [|exact Htab].
    intros. constructor; [discriminate|constructor].
  - apply hyphen_fix_no_adjacent, trim_newlines_tidy, Hsp.
Qed.


End NormalizerClaims.

Section NormalizerExamples.
Import Normalizer.



End NormalizerExamples.


(** ** ChunkAssembler: what every chunk looks like *)

Section AssemblerShape.
Import Assembler ChunkShapes Samples.

Lemma assemble_elem (good : list str) (c : str) :
  c ∈ assemble good ->
  exists b, b ∈ assemble_words (List.map split good)
            /\ c = join [SPACE] b /\ split c = b.
Proof.
  intros Hc. apply list_elem_of_lookup in Hc as [k Hk].
  destruct (assemble_lookup good k c Hk) as (b & Hb & E1 & E2).
  exists b. split; [eapply list_elem_of_lookup_2; eauto|auto].
Qed.

(** Only buffers of more than 80 words are ever emitted. *)
Lemma words_loop_min (ws : list (list str))
    (st : list (list str) * list str) :
  Forall (fun b => MIN_WORDS < length b) (fst st) ->
  Forall (fun b => MIN_WORDS < length b) (fst (words_loop st ws)).
Proof.
  revert st. induction ws as [|w ws IH]; intros [emitted cur] H; [exact H|].
  cbn [words_loop List.fold_left]. apply IH. unfold words_step.
  destruct (length cur + length w <=? CHUNK_WORDS); [exact H|].
  destruct (Nat.ltb_spec MIN_WORDS (length cur)); [|exact H].
  cbn [fst] in *. apply Forall_app. split; [exact H|].
  constructor; [assumption|constructor].
Qed.

Lemma assemble_words_min (ws : list (list str)) :
  Forall (fun b => MIN_WORDS < length b) (assemble_words ws).
Proof.
  unfold assemble_words.
  pose proof (words_loop_min ws ([], []) (Forall_nil_2 _)) as H.
  destruct (words_loop ([], []) ws) as [emitted cur]. cbn [fst] in H.
  unfold words_flush.
  destruct (Nat.ltb_spec MIN_WORDS (length cur)); [|exact H].
  apply Forall_app. split; [exact H|]. constructor; [assumption|constructor].
Qed.

(** X1.  Every chunk the assembler returns has more than 80 words (the
    final flush included) and is in normal form: it is its own words
    joined by single spaces, so it has no leading, trailing or doubled
    whitespace. *)
Theorem X1_chunk_min_words_normal_form (good : list str) (c : str) :
  c ∈ assemble good ->
  80 < length (split c) /\ join [SPACE] (split c) = c.
Proof.
  intros Hc. destruct (assemble_elem good c Hc) as (b & Hb & E1 & E2).
  pose proof (assemble_words_min (List.map split good)) as Hmin.
  rewrite Forall_forall in Hmin. specialize (Hmin b Hb).
  rewrite E2. split; [exact Hmin|symmetry; exact E1].
Qed.

Lemma X1_chunk_min_words_normal_form_witness :
  80 < length (split chunk_b) /\ join [SPACE] (split chunk_b) = chunk_b.
Proof.
  refine (X1_chunk_min_words_normal_form
            [sentence 0 60; sentence 60 60; sentence 120 70] chunk_b _).
  decide_by_compute.
Defined.

(** When no sentence has more than [m] words the buffer and every
    emitted buffer stay within [chunk_bound m]. *)
Lemma words_loop_bound (m : nat) (ws : list (list str))
    (st : list (list str) * list str) :
  Forall (fun w => length w <= m) ws ->
  Forall (fun b => length b <= chunk_bound m) (fst st) ->
  length (snd st) <= chunk_bound m ->
  Forall (fun b => length b <= chunk_bound m) (fst (words_loop st ws))
  /\ length (snd (words_loop st ws)) <= chunk_bound m.
Proof.
  intros Hws. revert st.
  induction Hws as [|w ws Hw _ IH]; intros [emitted cur] He Hc; [auto|].
  cbn [words_loop List.fold_left]. apply IH; unfold words_step;
    cbn [fst snd] in *;
    destruct (Nat.leb_spec (length cur + length w) CHUNK_WORDS);
    cbn [fst snd]; try assumption.
  - destruct (MIN_WORDS <? length cur); [|exact He].
    apply Forall_app. split; [exact He|]. constructor; [exact Hc|constructor].
  - rewrite length_app. unfold chunk_bound. lia.
  - rewrite length_app. unfold tail_slice. rewrite length_drop.
    unfold chunk_bound, OVERLAP_WORDS. lia.
Qed.

(** X2.  When no sentence has more than [m] words, no chunk has more
    than [max(180, 30 + m)] words; in particular sentences of at most
    150 words give chunks of at most 180 words. *)
Theorem X2_chunk_max_words (m : nat) (good : list str) (c : str) :
  Forall (fun sent => length (split sent) <= m) good ->
  c ∈ assemble good ->
  length (split c) <= Nat.max 180 (30 + m).
Proof.
  intros Hgood Hc. destruct (assemble_elem good c Hc) as (b & Hb & _ & ->).
  assert (Hws : Forall (fun w => length w <= m) (List.map split good)).
  { apply Forall_forall. intros w Hw.
    apply list_elem_of_In, in_map_iff in Hw as (sent & <- & Hs).
    rewrite Forall_forall in Hgood. apply Hgood, list_elem_of_In, Hs. }
  unfold assemble_words in Hb.
  destruct (words_loop_bound m _ ([], []) Hws (Forall_nil_2 _))
    as [He Hcur]; [cbn; lia|].
  destruct (words_loop ([], []) (List.map split good)) as [emitted cur].
  cbn [fst snd words_flush] in *.
  assert (Hall : Forall (fun b => length b <= chunk_bound m)
                        (emitted ++ [cur])).
  { apply Forall_app. split; [exact He|]. constructor; [exact Hcur|].
    constructor. }
  rewrite Forall_forall in Hall. apply (Hall b).
  destruct (MIN_WORDS <? length cur); [exact Hb|].
  apply elem_of_app. left. exact Hb.
Qed.

Lemma X2_chunk_max_words_witness :
  length (split chunk_a) <= Nat.max 180 (30 + 70).
Proof.
  refine (X2_chunk_max_words 70
            [sentence 0 60; sentence 60 60; sentence 120 70] chunk_a _ _);
    decide_by_compute.
Defined.

Lemma segment_of_app_r {A} (b l k : list A) :
  segment_of b l -> segment_of b (l ++ k).
Proof.
  intros (l1 & l2 & ->). exists l1, (l2 ++ k).
  now rewrite <- !app_assoc.
Qed.

Lemma suffix_segment_of {A} (b l : list A) : b `suffix_of` l -> segment_of b l.
Proof. intros [l1 ->]. exists l1, []. now rewrite app_nil_r. Qed.

(** The buffer is always the end of the words read so far, and every
    emitted buffer is a run of consecutive words of them. *)
Lemma words_loop_segments (ws : list (list str)) (history : list str)
    (st : list (list str) * list str) :
  Forall (fun b => segment_of b history) (fst st) ->
  snd st `suffix_of` history ->
  Forall (fun b => segment_of b (history ++ List.concat ws))
         (fst (words_loop st ws))
  /\ snd (words_loop st ws) `suffix_of` (history ++ List.concat ws).
Proof.
  revert history st.
  induction ws as [|w ws IH]; intros history [emitted cur] He Hc.
  - cbn. rewrite app_nil_r. auto.
  - cbn [words_loop List.fold_left List.concat].
    rewrite app_assoc. cbn [fst snd] in *.
    assert (He' : Forall (fun b => segment_of b (history ++ w)) emitted).
    { eapply Forall_impl; [exact He|]. intros b. apply segment_of_app_r. }
    apply IH; unfold words_step;
      destruct (length cur + length w <=? CHUNK_WORDS); cbn [fst snd];
      try assumption.
    + destruct (MIN_WORDS <? length cur); [|exact He'].
      apply Forall_app. split; [exact He'|].
      constructor; [|constructor].
      apply segment_of_app_r, suffix_segment_of, Hc.
    + apply suffix_app, Hc.
    + apply suffix_app. etransitivity; [|exact Hc].
      apply suffix_drop.
Qed.

(** X3.  The assembler neither invents nor reorders words: the words of
    every chunk are a run of consecutive words of the kept sentences,
    taken in order. *)
Theorem X3_chunk_is_run_of_sentence_words (good : list str) (c : str) :
  c ∈ assemble good ->
  segment_of (split c) (List.concat (List.map split good)).
Proof.
  intros Hc. destruct (assemble_elem good c Hc) as (b & Hb & _ & ->).
  unfold assemble_words in Hb.
  destruct (words_loop_segments (List.map split good) [] ([], []))
    as [He Hcur]; [constructor|reflexivity|].
  destruct (words_loop ([], []) (List.map split good)) as [emitted cur].
  cbn [fst snd words_flush app] in *.
  assert (Hall : Forall (fun b => segment_of b
                                    (List.concat (List.map split good)))
                        (emitted ++ [cur])).
  { apply Forall_app. split; [exact He|].
    constructor; [apply suffix_segment_of, Hcur|constructor]. }
  rewrite Forall_forall in Hall. apply (Hall b).
  destruct (MIN_WORDS <? length cur); [exact Hb|].
  apply elem_of_app. left. exact Hb.
Qed.

Lemma X3_chunk_is_run_of_sentence_words_witness :
  segment_of (split chunk_b)
    (List.concat
       (List.map split [sentence 0 60; sentence 60 60; sentence 120 70])).
Proof.
  refine (X3_chunk_is_run_of_sentence_words
            [sentence 0 60; sentence 60 60; sentence 120 70] chunk_b _).
  decide_by_compute.
Defined.

Lemma words_loop_fits (ws : list (list str)) (emitted : list (list str))
    (cur : list str) :
  length cur + length (List.concat ws) <= CHUNK_WORDS ->
  words_loop (emitted, cur) ws = (emitted, cur ++ List.concat ws).
Proof.
  revert cur. induction ws as [|w ws IH]; intros cur H.
  - cbn. now rewrite app_nil_r.
  - cbn [List.concat] in *. rewrite length_app in H.
    assert (E : words_step (emitted, cur) w = (emitted, cur ++ w)).
    { unfold words_step.
      destruct (Nat.leb_spec (length cur + length w) CHUNK_WORDS);
        [reflexivity|lia]. }
    change (words_loop (emitted, cur) (w :: ws))
      with (words_loop (words_step (emitted, cur) w) ws).
    rewrite E, IH.
    + now rewrite <- app_assoc.
    + rewrite length_app. lia.
Qed.

(** X4.  A text of at most 180 words in all is never cut: the assembler
    returns the single chunk of all its words when there are more than
    80 of them, and no chunk at all otherwise (the short text is
    dropped). *)
Theorem X4_short_input_one_chunk_or_none (good : list str) :
  length (List.concat (List.map split good)) <= 180 ->
  assemble good
  = if 80 <? length (List.concat (List.map split good))
    then [join [SPACE] (List.concat (List.map split good))]
    else [].
Proof.
  intros H. rewrite assemble_words_join_all. unfold assemble_words.
  rewrite words_loop_fits by exact H. cbn [words_flush app].
  unfold MIN_WORDS.
  destruct (80 <? length (List.concat (List.map split good))); reflexivity.
Qed.

Lemma X4_short_input_one_chunk_or_none_witness :
  assemble [sentence 0 30; sentence 30 40]
  = if 80 <? length (List.concat
                       (List.map split [sentence 0 30; sentence 30 40]))
    then [join [SPACE]
            (List.concat (List.map split [sentence 0 30; sentence 30 40]))]
    else [].
Proof.
  refine (X4_short_input_one_chunk_or_none
            [sentence 0 30; sentence 30 40] _).
  vm_compute. lia.
Defined.

(** Emissions are paid for by sentences: a sentence emits at most the
    buffer, which holds at least one earlier sentence's words. *)
Lemma words_loop_count (ws : list (list str)) (seen : nat)
    (st : list (list str) * list str) :
  length (fst st) + (if decide (snd st = []) then 0 else 1) <= seen ->
  length (fst (words_loop st ws))
  + (if decide (snd (words_loop st ws) = []) then 0 else 1)
  <= seen + length ws.
Proof.
  revert seen st. induction ws as [|w ws IH]; intros seen [emitted cur] H.
  - cbn in *. lia.
  - cbn [words_loop List.fold_left length].
    replace (seen + S (length ws)) with (S seen + length ws) by lia.
    apply IH. cbn [fst snd] in *. unfold words_step.
    destruct (length cur + length w <=? CHUNK_WORDS); cbn [fst snd].
    + destruct (decide (cur ++ w = [])); destruct (decide (cur = [])); lia.
    + destruct (Nat.ltb_spec MIN_WORDS (length cur)) as [Hbig|Hsmall].
      * rewrite length_app. cbn [length].
        destruct (decide (cur = [])) as [-> |];
          [cbn in Hbig; unfold MIN_WORDS in Hbig; lia|].
        destruct (decide (tail_slice OVERLAP_WORDS cur ++ w = [])); lia.
      * destruct (decide (tail_slice OVERLAP_WORDS cur ++ w = []));
          destruct (decide (cur = [])); lia.
Qed.

(** X5.  The assembler returns at most one chunk per kept sentence, and
    none when there is no sentence. *)
Theorem X5_at_most_one_chunk_per_sentence (good : list str) :
  length (assemble good) <= length good.
Proof.
  rewrite assemble_words_join_all. unfold join_all.
  rewrite length_map. unfold assemble_words.
  assert (H := words_loop_count (List.map split good) 0 ([], [])).
  rewrite length_map in H.
  assert (H0 : length (fst (@nil (list (list N)), @nil (list N)))
               + (if decide (snd (@nil (list (list N)), @nil (list N)) = [])
                  then 0 else 1) <= 0).
  { cbn [fst snd length].
    destruct (decide (@nil (list N) = [])); [lia|contradiction]. }
  specialize (H H0). clear H0.
  destruct (words_loop ([], []) (List.map split good)) as [emitted cur].
  cbn [fst snd words_flush] in *.
  destruct (Nat.ltb_spec MIN_WORDS (length cur)) as [Hbig|Hsmall]; [|lia].
  rewrite length_app. cbn [length].
  destruct (decide (cur = [])) as [-> |]; [cbn in Hbig|]; lia.
Qed.

End AssemblerShape.

(** ** DatasetExporter: records and splits *)

Section ExporterRecords.
Import Exporter Samples.

(** Replacing a character that is not whitespace by a non-empty string
    without whitespace does not move any word boundary. *)
Lemma split_from_replace1 (k : char) (v : str) (s acc : str) :
  isspace k = false -> v <> [] ->
  Forall (fun c => isspace c = false) v ->
  split_from (replace1 k v acc) (replace1 k v s)
  = List.map (replace1 k v) (split_from acc s).
Proof.
  intros Hk Hv Hvs.
  assert (Hnil : forall a : str, replace1 k v a = [] <-> a = []).
  { intros [|c a]; [split; reflexivity|].
    unfold replace1. cbn [List.flat_map].
    destruct (N.eqb_spec c k); split; try discriminate.
    destruct v; [contradiction|discriminate]. }
  assert (Happ : forall a b : str,
             replace1 k v (a ++ b) = replace1 k v a ++ replace1 k v b).
  { intros a b. unfold replace1. apply flat_map_app. }
  revert acc. induction s as [|c r IH]; intros acc.
  - change (replace1 k v []) with (@nil N). cbn [split_from].
    destruct acc as [|a acc]; [reflexivity|]. cbn [List.map].
    destruct (replace1 k v (a :: acc)) eqn:E; [|reflexivity].
    apply (proj1 (Hnil _)) in E. discriminate.
  - change (replace1 k v (c :: r))
      with ((if (c =? k)%N then v else [c]) ++ replace1 k v r).
    destruct (N.eqb_spec c k) as [-> |Hck].
    + rewrite split_from_nonspace by exact Hvs.
      cbn [split_from]. rewrite Hk.
      rewrite <- IH, Happ. unfold replace1 at 4. cbn [List.flat_map].
      rewrite N.eqb_refl, app_nil_r. reflexivity.
    + cbn [app split_from]. destruct (isspace c) eqn:Hc.
      * destruct acc as [|a acc]; [exact (IH [])|].
        destruct (replace1 k v (a :: acc)) eqn:E;
          [apply (proj1 (Hnil _)) in E; discriminate|].
        rewrite <- E. cbn [List.map]. f_equal. exact (IH []).
      * rewrite <- IH, Happ. unfold replace1 at 4. cbn [List.flat_map].
        replace (c =? k)%N with false by (symmetry; apply N.eqb_neq, Hck).
        rewrite app_nil_r. reflexivity.
Qed.

Lemma split_replace1 (k : char) (v : str) (s : str) :
  isspace k = false -> v <> [] ->
  Forall (fun c => isspace c = false) v ->
  split (replace1 k v s) = List.map (replace1 k v) (split s).
Proof. intros. apply (split_from_replace1 k v s []); assumption. Qed.

(** The cleaning of a chunk rewrites words in place. *)
Lemma clean_chunk_word_count (c : str) :
  length (split (clean_chunk c)) = length (split c).
Proof.
  unfold clean_chunk.
  repeat (rewrite split_replace1;
          [rewrite length_map
          |reflexivity|discriminate
          |repeat constructor]).
  reflexivity.
Qed.

Lemma make_records_lookup (chunks : list str) (i : nat) (r : record) :
  make_records chunks !! i = Some r ->
  r_id r = i
  /\ chunks !! i = Some (r_text r)
  /\ r_word_count r = length (split (r_text r)).
Proof.
  unfold make_records. rewrite list_lookup_imap.
  destruct (chunks !! i) as [c|]; [|discriminate].
  cbn. intros E. injection E as <-. auto.
Qed.

Lemma export_records_shape {R : PyRandom} (raw : list str) (g0 : rng)
    a g' :
  export raw g0 = Some (a, g') ->
  a_records a = make_records (List.map clean_chunk raw)
  /\ exists shuffled g3,
       shuffle record (a_records a) (seed 42) = (shuffled, g3)
       /\ a_train a = take (train_end (length shuffled)) shuffled
       /\ a_val a = drop (train_end (length shuffled))
                      (take (val_end (length shuffled)) shuffled)
       /\ a_test a = drop (val_end (length shuffled)) shuffled.
Proof.
  unfold export. intros E.
  apply bind_Some in E as (ps & Ep & E).
  apply bind_Some in E as ([ns g2] & En & E).
  destruct (shuffle record (make_records (List.map clean_chunk raw))
              (seed 42)) as [shuffled g4] eqn:Es.
  injection E as <- <-. cbn [a_records a_train a_val a_test].
  split; [reflexivity|]. exists shuffled, g4. auto.
Qed.

(** X6.  The export makes one record per chunk, in order: record [i]
    has id [i], holds the cleaned text of chunk [i], and its word count
    is the number of words of chunk [i] as loaded, because the cleaning
    only rewrites characters inside words. *)
Theorem X6_records_follow_chunks {R : PyRandom} (raw_chunks : list str)
    (g0 : rng) a g' :
  export raw_chunks g0 = Some (a, g') ->
  length (a_records a) = length raw_chunks
  /\ forall i r,
       a_records a !! i = Some r ->
       r_id r = i
       /\ exists c, raw_chunks !! i = Some c
                    /\ r_text r = clean_chunk c
                    /\ r_word_count r = length (split c).
Proof.
  intros E. destruct (export_records_shape _ _ _ _ E) as [Hr _].
  rewrite Hr. split.
  - unfold make_records. rewrite length_imap. apply length_map.
  - intros i r Hi.
    destruct (make_records_lookup _ _ _ Hi) as (Hid & Ht & Hw).
    split; [exact Hid|].
    change (List.map clean_chunk raw_chunks) with (clean_chunk <$> raw_chunks)
      in Ht.
    rewrite list_lookup_fmap in Ht.
    destruct (raw_chunks !! i) as [c|]; [|discriminate].
    cbn in Ht. injection Ht as Ht. exists c.
    split; [reflexivity|]. split; [auto|].
    rewrite Hw, <- Ht. apply clean_chunk_word_count.
Qed.

Lemma X6_records_follow_chunks_witness :
  exists a g',
    export (R := ToyRandom.toy) [chunk_a; chunk_b] 7%N = Some (a, g')
    /\ length (a_records a) = 2
    /\ forall i r,
         a_records a !! i = Some r ->
         r_id r = i
         /\ exists c, [chunk_a; chunk_b] !! i = Some c
                      /\ r_text r = clean_chunk c
                      /\ r_word_count r = length (split c).
Proof.
  destruct (export (R := ToyRandom.toy) [chunk_a; chunk_b] 7%N)
    as [[a g']|] eqn:E; [|vm_compute in E; discriminate].
  exists a, g'. split; [reflexivity|].
  exact (X6_records_follow_chunks (R := ToyRandom.toy) _ _ _ _ E).
Defined.

End ExporterRecords.

Section ExporterSplits.
Import Exporter Samples.

Lemma imap_ids (chunks : list str) (start : nat) :
  List.map r_id
    (imap (fun i c => {| r_id := start + i; r_text := c;
                         r_word_count := length (split c) |}) chunks)
  = seq start (length chunks).
Proof.
  revert start. induction chunks as [|c chunks IH]; intros start;
    [reflexivity|].
  cbn [imap List.map length seq r_id]. f_equal; [lia|].
  rewrite <- (IH (S start)). f_equal. apply imap_ext.
  intros i x _. cbn. f_equal. lia.
Qed.

(** Records differ by their ids. *)
Lemma make_records_NoDup (chunks : list str) : NoDup (make_records chunks).
Proof.
  apply (NoDup_fmap_1 r_id).
  change (r_id <$> make_records chunks)
    with (List.map r_id (make_records chunks)).
  unfold make_records. pose proof (imap_ids chunks 0) as H.
  cbn [Nat.add] in H. rewrite H. apply NoDup_seq.
Qed.

Lemma three_way_cut {A} (l : list A) (i j : nat) :
  i <= j -> take i l ++ drop i (take j l) ++ drop j l = l.
Proof.
  intros Hij. rewrite app_assoc.
  replace (take i l) with (take i (take j l))
    by (rewrite take_take; f_equal; lia).
  rewrite take_drop. apply take_drop.
Qed.

(** X7.  Train, validation and test partition the records: put end to
    end they are the shuffled records, so (with a shuffle that reorders)
    every record is in exactly one of the three lists and the three
    sizes add up to the number of records, whatever that number is. *)
Theorem X7_splits_partition_records {R : PyRandom} (raw_chunks : list str)
    (g0 : rng) a g' :
  shuffle_contract R ->
  export raw_chunks g0 = Some (a, g') ->
  Permutation (a_train a ++ a_val a ++ a_test a) (a_records a)
  /\ NoDup (a_train a ++ a_val a ++ a_test a)
  /\ length (a_train a) + length (a_val a) + length (a_test a)
     = length raw_chunks.
Proof.
  intros HR E.
  destruct (export_records_shape _ _ _ _ E)
    as (Hr & shuffled & g3 & Es & -> & -> & ->).
  assert (Hp : Permutation shuffled (a_records a)).
  { specialize (HR record (a_records a) (seed 42)). rewrite Es in HR.
    exact HR. }
  rewrite three_way_cut
    by (unfold train_end, val_end;
        apply Nat.Div0.div_le_mono; lia).
  split; [exact Hp|]. split.
  - rewrite Hp, Hr. apply make_records_NoDup.
  - pose proof (f_equal length
                  (three_way_cut shuffled (train_end (length shuffled))
                     (val_end (length shuffled))
                     ltac:(unfold train_end, val_end;
                           apply Nat.Div0.div_le_mono; lia))) as Hl.
    rewrite !length_app in Hl. rewrite Nat.add_assoc in Hl. rewrite Hl.
    rewrite (Permutation_length Hp), Hr.
    unfold make_records. rewrite length_imap. apply length_map.
Qed.

(** The toy generator's shuffle is a rotation. *)
Lemma toy_shuffle_contract : shuffle_contract ToyRandom.toy.
Proof.
  intros A l g. cbn. unfold ToyRandom.toy_shuffle. cbn [fst].
  rewrite Permutation_app_comm, take_drop. reflexivity.
Qed.

Lemma X7_splits_partition_records_witness :
  exists a g',
    export (R := ToyRandom.toy) [chunk_a; chunk_b; chunk_a] 5%N
    = Some (a, g')
    /\ Permutation (a_train a ++ a_val a ++ a_test a) (a_records a)
    /\ NoDup (a_train a ++ a_val a ++ a_test a)
    /\ length (a_train a) + length (a_val a) + length (a_test a) = 3.
Proof.
  destruct (export (R := ToyRandom.toy) [chunk_a; chunk_b; chunk_a] 5%N)
    as [[a g']|] eqn:E; [|vm_compute in E; discriminate].
  exists a, g'. split; [reflexivity|].
  exact (X7_splits_partition_records (R := ToyRandom.toy) _ _ _ _
           toy_shuffle_contract E).
Defined.

(** X8.  The cut indices are the integer parts of 0.8 n and 0.9 n, so
    small exports have empty splits: the training list is empty exactly
    when there are fewer than 2 records, the validation list exactly
    when there are fewer than 6, and the test list only when there is
    no record at all (a single record goes to the test list). *)
Theorem X8_small_exports_have_empty_splits {R : PyRandom}
    (raw_chunks : list str) (g0 : rng) a g' :
  shuffle_contract R ->
  export raw_chunks g0 = Some (a, g') ->
  let n := length raw_chunks in
  length (a_train a) = n * 8 / 10
  /\ length (a_val a) = n * 9 / 10 - n * 8 / 10
  /\ length (a_test a) = n - n * 9 / 10
  /\ (a_train a = [] <-> n < 2)
  /\ (a_val a = [] <-> n < 6)
  /\ (a_test a = [] <-> n = 0).
Proof.
  intros HR E n.
  destruct (export_records_shape _ _ _ _ E)
    as (Hr & shuffled & g3 & Es & -> & -> & ->).
  assert (Hn : length shuffled = n).
  { specialize (HR record (a_records a) (seed 42)). rewrite Es in HR.
    cbn [fst] in HR. rewrite (Permutation_length HR), Hr.
    unfold make_records. rewrite length_imap. apply length_map. }
  rewrite length_take, !length_drop, length_take, Hn.
  unfold train_end, val_end.
  pose proof (Nat.Div0.div_le_upper_bound (n * 8) 10 n ltac:(lia)) as H8.
  pose proof (Nat.Div0.div_le_upper_bound (n * 9) 10 n ltac:(lia)) as H9.
  assert (H89 : n * 8 / 10 <= n * 9 / 10)
    by (apply Nat.Div0.div_le_mono; lia).
  assert (L : forall (l : list record), l = [] <-> length l = 0).
  { intros l. split; [intros ->; reflexivity|apply nil_length_inv]. }
  split; [lia|]. split; [lia|]. split; [lia|].
  rewrite !L, length_take, !length_drop, length_take, Hn.
  pose proof (Nat.div_mod_eq (n * 8) 10) as D8.
  pose proof (Nat.mod_upper_bound (n * 8) 10 ltac:(lia)) as M8.
  pose proof (Nat.div_mod_eq (n * 9) 10) as D9.
  pose proof (Nat.mod_upper_bound (n * 9) 10 ltac:(lia)) as M9.
  repeat split; intros; lia.
Qed.

Lemma X8_small_exports_have_empty_splits_witness :
  exists a g',
    export (R := ToyRandom.toy) [chunk_a] 5%N = Some (a, g')
    /\ length (a_train a) = 0 /\ length (a_val a) = 0
    /\ length (a_test a) = 1.
Proof.
  destruct (export (R := ToyRandom.toy) [chunk_a] 5%N)
    as [[a g']|] eqn:E; [|vm_compute in E; discriminate].
  exists a, g'. split; [reflexivity|].
  destruct (X8_small_exports_have_empty_splits (R := ToyRandom.toy) _ _ _ _
              toy_shuffle_contract E) as (H1 & H2 & H3 & _).
  cbn in H1, H2, H3. auto.
Defined.

End ExporterSplits.

Section ExporterPairs.
Import Exporter Samples.

(** X9.  The pair list starts with the positive pairs in chunk order:
    for every [i] with [i + 1 < len(chunks)], pair [i] is chunk [i] with
    chunk [i + 1] and label 1.  Every later pair has label 0. *)
Theorem X9_positive_pairs_first_in_order {R : PyRandom}
    (raw_chunks : list str) (g0 : rng) a g' :
  export raw_chunks g0 = Some (a, g') ->
  (forall i, i + 1 < length raw_chunks ->
     exists c1 c2,
       a_chunks a !! i = Some c1 /\ a_chunks a !! (i + 1) = Some c2
       /\ a_pairs a !! i
          = Some {| text_a := c1; text_b := c2; label := 1 |})
  /\ (forall i p, length raw_chunks - 1 <= i ->
        a_pairs a !! i = Some p -> label p = 0%Z).
Proof.
  intros E.
  destruct (export_pairs_shape _ _ _ _ E)
    as (Hc & ps & ns & g2 & Ep & En & Ea).
  assert (Hlen : length (a_chunks a) = length raw_chunks)
    by (rewrite Hc; apply length_map).
  destruct (positive_pairs_total (a_chunks a)) as (ps' & Ep' & Lp & _).
  rewrite Ep in Ep'. injection Ep' as <-.
  assert (Hneg : Forall (fun p => label p = 0%Z) ns).
  { destruct (2 <=? length (a_chunks a)).
    - eapply negative_pairs_labels; eauto.
    - injection En as <- _. constructor. }
  rewrite Ea. split.
  - intros i Hi.
    destruct (positive_pair_in_range (a_chunks a) i ltac:(lia))
      as (c1 & c2 & H1 & H2 & Hp).
    exists c1, c2. split; [exact H1|]. split; [exact H2|].
    unfold positive_pairs in Ep. apply mapM_Some in Ep.
    assert (Hseq : seq 0 (length (a_chunks a) - 1) !! i = Some i)
      by (apply lookup_seq; lia).
    destruct (Forall2_lookup_l _ _ _ _ _ Ep Hseq) as (p & Hpi & Hpp).
    rewrite Hp in Hpp. injection Hpp as <-.
    rewrite lookup_app_l; [exact Hpi|]. apply lookup_lt_Some in Hpi. lia.
  - intros i p Hi Hp.
    rewrite lookup_app_r in Hp by lia.
    rewrite Forall_forall in Hneg.
    apply (Hneg p). eapply list_elem_of_lookup_2; eauto.
Qed.

Lemma X9_positive_pairs_first_in_order_witness :
  exists a g',
    export (R := ToyRandom.toy) [chunk_a; chunk_b; chunk_a] 5%N
    = Some (a, g')
    /\ a_pairs a !! 1
       = Some {| text_a := chunk_b; text_b := chunk_a; label := 1 |}.
Proof.
  destruct (export (R := ToyRandom.toy) [chunk_a; chunk_b; chunk_a] 5%N)
    as [[a g']|] eqn:E; [|vm_compute in E; discriminate].
  exists a, g'. split; [reflexivity|].
  destruct (proj1 (X9_positive_pairs_first_in_order
                     (R := ToyRandom.toy) _ _ _ _ E) 1 ltac:(cbn; lia))
    as (c1 & c2 & H1 & H2 & Hp).
  destruct (export_pairs_shape _ _ _ _ E) as (Hc & _).
  rewrite Hc in H1, H2.
  assert (E1 : Some c1 = Some chunk_b)
    by (rewrite <- H1; vm_compute; reflexivity).
  assert (E2 : Some c2 = Some chunk_a)
    by (rewrite <- H2; vm_compute; reflexivity).
  injection E1 as ->. injection E2 as ->. exact Hp.
Defined.

(** X10.  After the cleaning a chunk has none of the five characters it
    replaces (the curly quotes U+201C, U+201D, U+2018, U+2019 and the em
    dash U+2014), and cleaning a cleaned chunk changes nothing. *)
Theorem X10_clean_chunk_clean_and_idempotent (c : str) :
  Forall (fun x => ~ In x [8220%N; 8221%N; 8216%N; 8217%N; 8212%N])
         (clean_chunk c)
  /\ clean_chunk (clean_chunk c) = clean_chunk c.
Proof.
  assert (Et : forall s,
             clean_chunk s
             = replace_table
                 [ (8220%N, [34%N]); (8221%N, [34%N]); (8216%N, [39%N]);
                   (8217%N, [39%N]); (8212%N, [45%N]) ] s)
    by reflexivity.
  assert (H : Forall (fun x => True /\ ~ In x [8220%N; 8221%N; 8216%N;
                                               8217%N; 8212%N])
                     (clean_chunk c)).
  { rewrite Et.
    exact (replace_table_clean
             [ (8220%N, [34%N]); (8221%N, [34%N]); (8216%N, [39%N]);
               (8217%N, [39%N]); (8212%N, [45%N]) ]
             (fun _ => True) c
             ltac:(repeat constructor; cbn; intuition discriminate)
             ltac:(apply Forall_forall; auto)). }
  split.
  - eapply Forall_impl; [exact H|]. cbn beta. tauto.
  - rewrite (Et (clean_chunk c)).
    apply (replace_table_absent
             [ (8220%N, [34%N]); (8221%N, [34%N]); (8216%N, [39%N]);
               (8217%N, [39%N]); (8212%N, [45%N]) ]).
    eapply Forall_impl; [exact H|]. cbn beta. tauto.
Qed.

End ExporterPairs.

(** ** QualityReporter *)

Section ReporterFacts.
Import Assembler Exporter Reporter Samples.

Lemma fold_min_above (b : nat) (l : list nat) (x : nat) :
  b < x -> Forall (fun y => b < y) l -> b < List.fold_left Nat.min l x.
Proof.
  intros Hx Hl. revert x Hx. induction Hl as [|y l Hy _ IH]; intros x Hx;
    [exact Hx|].
  cbn. apply IH. lia.
Qed.

(** X11.  On the chunks the assembler returns the report counts no
    short chunk, and when there is a chunk its minimum word count is
    above 80. *)
Theorem X11_assembled_chunks_are_never_short (good : list str) :
  short_chunks (assemble good) = 0
  /\ (assemble good <> [] -> 80 < min_of (word_counts (assemble good))).
Proof.
  assert (H : Forall (fun w => 80 < w) (word_counts (assemble good))).
  { unfold word_counts. apply Forall_forall. intros w Hw.
    apply list_elem_of_In, in_map_iff in Hw as (c & <- & Hc).
    apply list_elem_of_In in Hc.
    destruct (assemble_elem good c Hc) as (b & Hb & _ & ->).
    pose proof (assemble_words_min (List.map split good)) as Hmin.
    rewrite Forall_forall in Hmin. exact (Hmin b Hb). }
  split.
  - unfold short_chunks.
    induction H as [|w l Hw _ IH]; [reflexivity|]. cbn [List.filter].
    destruct (Nat.ltb_spec w 80); [lia|exact IH].
  - intros Hne. unfold min_of.
    destruct (word_counts (assemble good)) as [|x l] eqn:E.
    + unfold word_counts in E. apply map_eq_nil in E. contradiction.
    + inversion H; subst. apply fold_min_above; assumption.
Qed.

Lemma size_list_to_set_le (l : list str) :
  size (list_to_set l : gset str) <= length l.
Proof.
  induction l as [|x l IH]; [reflexivity|]. cbn [list_to_set length].
  rewrite size_union_alt, size_singleton.
  assert (Hd : size (list_to_set l ∖ {[x]} : gset str)
               <= size (list_to_set l : gset str)).
  { apply subseteq_size. intros y Hy.
    apply elem_of_difference in Hy. tauto. }
  lia.
Qed.

(** X12.  The duplicate count of the report is zero exactly when the
    chunk texts are pairwise different. *)
Theorem X12_no_duplicates_iff_distinct (chunks : list str) :
  duplicate_chunks chunks = 0 <-> NoDup chunks.
Proof.
  unfold duplicate_chunks. split.
  - intros H. pose proof (size_list_to_set_le chunks) as Hle.
    assert (Heq : size (list_to_set chunks : gset str) = length chunks)
      by lia.
    clear H Hle. induction chunks as [|x l IH]; [constructor|].
    cbn [list_to_set length] in Heq.
    pose proof (size_list_to_set_le l) as Hl.
    destruct (decide (x ∈ l)) as [Hin|Hnin].
    + exfalso.
      assert (Hsub : ({[x]} ∪ list_to_set l : gset str) = list_to_set l).
      { apply set_eq. intros y. rewrite elem_of_union, elem_of_singleton,
          elem_of_list_to_set. split; [intros [-> |]|]; auto. }
      rewrite Hsub in Heq. lia.
    + constructor; [exact Hnin|]. apply IH.
      rewrite size_union in Heq.
      * rewrite size_singleton in Heq. lia.
      * intros y Hy1 Hy2. apply elem_of_singleton in Hy1 as ->.
        apply elem_of_list_to_set in Hy2. contradiction.
  - intros H. rewrite (size_list_to_set chunks H). lia.
Qed.

(** A counter holds, for each label it has seen, how often it has seen
    it, and nothing else. *)
Lemma counter_lookup (labels : list Z) (k : Z) :
  counter labels !! k
  = if decide (count_occ Z.eq_dec labels k = 0) then None
    else Some (count_occ Z.eq_dec labels k).
Proof.
  unfold counter.
  assert (G : forall (m : gmap Z nat),
             List.fold_left
               (fun m k => <[k := S (default 0 (m !! k))]> m) labels m !! k
             = if decide (count_occ Z.eq_dec labels k = 0) then m !! k
               else Some (count_occ Z.eq_dec labels k
                          + default 0 (m !! k))).
  { induction labels as [|x labels IH]; intros m; [reflexivity|].
    cbn [List.fold_left count_occ]. rewrite IH.
    destruct (Z.eq_dec x k) as [-> |Hxk].
    - rewrite lookup_insert_eq. unfold default at 1. cbn [from_option id].
      destruct (decide (count_occ Z.eq_dec labels k = 0)) as [E|E];
        destruct (decide (S (count_occ Z.eq_dec labels k) = 0));
        try lia.
      + rewrite E. reflexivity.
      + f_equal. lia.
    - rewrite lookup_insert_ne by exact Hxk. reflexivity. }
  rewrite G, lookup_empty. cbn [default].
  destruct (decide (count_occ Z.eq_dec labels k = 0)); [reflexivity|].
  f_equal. lia.
Qed.

Lemma count_occ_labels (ps : list pair) (v k : Z) :
  Forall (fun p => label p = v) ps ->
  count_occ Z.eq_dec (List.map label ps) k
  = if decide (v = k) then length ps else 0.
Proof.
  induction 1 as [|p ps Hp _ IH]; cbn [List.map count_occ length].
  - destruct (decide (v = k)); reflexivity.
  - rewrite IH, Hp.
    destruct (Z.eq_dec v k); destruct (decide (v = k)); try contradiction;
      reflexivity.
Qed.

(** X13.  Export followed by report: with at least two chunks the label
    balance of the report is [len(chunks) - 1] pairs with label 1 and
    [len(chunks)] pairs with label 0 and no other label; with fewer than
    two chunks it is empty, neither label being a key. *)
Theorem X13_report_label_balance {U : UnicodeDB} {R : PyRandom}
    (chunks : list str) (g0 : rng) :
  sample_contract R ->
  exists rep,
    export_and_report chunks g0 = Some rep
    /\ report_pair_label_balance rep
       = if 2 <=? length chunks
         then <[0%Z := length chunks]> {[ 1%Z := length chunks - 1 ]}
         else ∅.
Proof.
  intros HR. unfold export_and_report.
  destruct (export_total chunks g0 HR) as (a & g' & E). rewrite E.
  cbn [mbind option_bind]. eexists. split; [reflexivity|].
  cbn [build_report report_pair_label_balance]. unfold pair_label_balance.
  destruct (export_pairs_shape _ _ _ _ E)
    as (Hc & ps & ns & g2 & Ep & En & ->).
  assert (Hlen : length (a_chunks a) = length chunks)
    by (rewrite Hc; apply length_map).
  destruct (positive_pairs_total (a_chunks a)) as (ps' & Ep' & Lp & Fp).
  rewrite Ep in Ep'. injection Ep' as <-.
  rewrite Hlen in *.
  assert (Hns : Forall (fun p => label p = 0%Z) ns
                /\ length ns = if 2 <=? length chunks
                               then length chunks else 0).
  { destruct (Nat.leb_spec 2 (length chunks)) as [H2|H2].
    - split; [eapply negative_pairs_labels; eauto|].
      destruct (negative_pairs_total (a_chunks a) (length chunks)
                  (seed 42) HR ltac:(lia)) as (ns' & g2' & En' & Ln & _).
      rewrite En in En'. injection En' as <- _. exact Ln.
    - injection En as <- _. split; [constructor|reflexivity]. }
  destruct Hns as [Fn Ln].
  apply map_eq. intros k.
  rewrite counter_lookup, List.map_app, count_occ_app,
    (count_occ_labels ps 1 k Fp), (count_occ_labels ns 0 k Fn), Lp, Ln.
  destruct (Nat.leb_spec 2 (length chunks)) as [H2|H2].
  - destruct (decide (1%Z = k)) as [<- |H1].
    + rewrite lookup_insert_ne by discriminate.
      rewrite lookup_singleton_eq.
      destruct (decide (0%Z = 1%Z)); [discriminate|].
      destruct (decide (length chunks - 1 + 0 = 0)); [lia|].
      f_equal. lia.
    + destruct (decide (0%Z = k)) as [<- |H0].
      * rewrite lookup_insert_eq.
        destruct (decide (0 + length chunks = 0)); [lia|reflexivity].
      * rewrite lookup_insert_ne by exact H0.
        rewrite lookup_singleton_ne by exact H1.
        destruct (decide (0 + 0 = 0)); [reflexivity|lia].
  - rewrite lookup_empty.
    assert (Hz : length chunks - 1 = 0) by lia. rewrite Hz.
    destruct (decide (1%Z = k)); destruct (decide (0%Z = k));
      destruct (decide _); try reflexivity; lia.
Qed.

Lemma X13_report_label_balance_witness :
  exists rep,
    export_and_report (U := AsciiDB) (R := ToyRandom.toy)
      [chunk_a; chunk_b; chunk_a] 5%N = Some rep
    /\ report_pair_label_balance rep
       = <[0%Z := 3]> {[ 1%Z := 2 ]}.
Proof.
  exact (X13_report_label_balance (U := AsciiDB) (R := ToyRandom.toy)
           [chunk_a; chunk_b; chunk_a] 5%N toy_sample_contract).
Defined.

End ReporterFacts.

(** ** SentenceSegmenter *)

Section SegmenterFacts.
Import Normalizer Segmenter.

(** A whitespace character ends the token before it. *)
Lemma split_from_app_space (a b : str) (c : char) (acc : str) :
  isspace c = true ->
  split_from acc (a ++ c :: b) = split_from acc a ++ split b.
Proof.
  intros Hc. revert acc. induction a as [|x a IH]; intros acc.
  - cbn. rewrite Hc. destruct acc; reflexivity.
  - cbn. destruct (isspace x).
    + destruct acc; [apply IH|]. cbn. f_equal. apply IH.
    + apply IH.
Qed.

Lemma split_from_trailing_space (t : str) (acc : str) :
  Forall (fun c => isspace c = true) t ->
  split_from acc t = split_from acc [].
Proof.
  intros Ht. revert acc. induction Ht as [|c t Hc _ IH]; intros acc;
    [reflexivity|].
  cbn. rewrite Hc. destruct acc; [apply IH|]. rewrite IH. reflexivity.
Qed.

Lemma split_from_app_trailing (a t : str) (acc : str) :
  Forall (fun c => isspace c = true) t ->
  split_from acc (a ++ t) = split_from acc a.
Proof.
  intros Ht. revert acc. induction a as [|x a IH]; intros acc.
  - apply split_from_trailing_space, Ht.
  - cbn. destruct (isspace x); [destruct acc|]; rewrite ?IH; reflexivity.
Qed.

Lemma run_Forall (cls : char -> bool) (s : str) :
  Forall (fun c => cls c = true) (take (run cls s) s).
Proof.
  induction s as [|c s IH]; cbn; [constructor|].
  destruct (cls c) eqn:Hc; cbn; constructor; assumption.
Qed.

Lemma split_lstrip (s : str) : split (lstrip s) = split s.
Proof.
  unfold lstrip, split. induction s as [|c s IH]; [reflexivity|].
  cbn. destruct (isspace c) eqn:Hc; cbn; rewrite ?Hc;
    [exact IH|reflexivity].
Qed.

Lemma rstrip_tail_space (s : str) :
  Forall (fun c => isspace c = true)
         (drop (length s - run isspace (reverse s)) s).
Proof.
  pose proof (run_Forall isspace (reverse s)) as H.
  rewrite take_reverse in H. apply Forall_reverse in H.
  rewrite reverse_involutive in H. exact H.
Qed.

Lemma split_rstrip (s : str) : split (rstrip s) = split s.
Proof.
  unfold rstrip, split.
  set (n := length s - run isspace (reverse s)).
  rewrite <- (take_drop n s) at 2.
  symmetry. apply split_from_app_trailing, rstrip_tail_space.
Qed.

(** [strip] changes no token. *)
Lemma split_strip (s : str) : split (strip s) = split s.
Proof. unfold strip. rewrite split_rstrip. apply split_lstrip. Qed.

Lemma lstrip_head (s : str) (c : char) (r : str) :
  lstrip s = c :: r -> isspace c = false.
Proof. apply drop_run_head. Qed.

Lemma rstrip_last (s : str) (c : char) :
  last (rstrip s) = Some c -> isspace c = false.
Proof.
  unfold rstrip. rewrite <- head_reverse, <- drop_reverse.
  intros H. destruct (drop (run isspace (reverse s)) (reverse s)) eqn:E;
    [discriminate|].
  injection H as ->. eapply drop_run_head. exact E.
Qed.

Lemma strip_head (s : str) (c : char) :
  head (strip s) = Some c -> isspace c = false.
Proof.
  unfold strip, rstrip.
  destruct (lstrip s) as [|x r] eqn:E; [rewrite take_nil; discriminate|].
  destruct (length (x :: r) - run isspace (reverse (x :: r)));
    [discriminate|].
  cbn. intros H. injection H as <-. eapply lstrip_head. exact E.
Qed.

(** The pieces that [re.split] returns hold the tokens of the text. *)
Lemma split_sentences_from_tokens (s : str) (mode : scan) (acc : str) :
  (mode = InGap -> acc = []) ->
  List.concat (List.map split (split_sentences_from mode acc s))
  = split (acc ++ s).
Proof.
  revert mode acc. induction s as [|c r IH]; intros mode acc Hgap.
  - cbn. now rewrite !app_nil_r.
  - cbn [split_sentences_from]. destruct mode as [|after_end].
    + rewrite (Hgap eq_refl). cbn [app]. destruct (isspace c) eqn:Hc.
      * rewrite IH by reflexivity. cbn [app]. unfold split. cbn.
        rewrite Hc. reflexivity.
      * rewrite IH by discriminate. reflexivity.
    + destruct (after_end && isspace c) eqn:Hc.
      * apply andb_true_iff in Hc as [_ Hc].
        cbn [List.map List.concat]. rewrite IH by reflexivity.
        cbn [app]. unfold split at 3.
        rewrite split_from_app_space by exact Hc. reflexivity.
      * rewrite IH by discriminate. now rewrite <- app_assoc.
Qed.

Lemma sublist_concat {A} (l1 l2 : list (list A)) :
  l1 `sublist_of` l2 -> List.concat l1 `sublist_of` List.concat l2.
Proof.
  induction 1; cbn.
  - constructor.
  - apply sublist_app; [reflexivity|assumption].
  - apply sublist_inserts_l. assumption.
Qed.

Lemma sublist_map {A B} (f : A -> B) (l1 l2 : list A) :
  l1 `sublist_of` l2 -> List.map f l1 `sublist_of` List.map f l2.
Proof. induction 1; cbn; constructor; assumption. Qed.

Lemma sublist_filter_bool {A} (f : A -> bool) (l : list A) :
  List.filter f l `sublist_of` l.
Proof.
  induction l as [|x l IHl]; cbn [List.filter]; [constructor|].
  destruct (f x); constructor; exact IHl.
Qed.

(** The tokens of the kept sentences are tokens of the text, in order. *)
Lemma good_sentences_tokens (isalnum_char : char -> bool) (text : str) :
  List.concat (List.map split (good_sentences isalnum_char text))
  `sublist_of` split text.
Proof.
  unfold good_sentences.
  assert (Hs : List.concat (List.map split (split_sentences text))
               = split text)
    by (apply (split_sentences_from_tokens text (InText false) []);
        discriminate).
  rewrite <- Hs.
  replace (List.map split (split_sentences text))
    with (List.map split (List.map strip (split_sentences text))).
  - apply sublist_concat, sublist_map, sublist_filter_bool.
  - rewrite List.map_map. apply List.map_ext. intros s. apply split_strip.
Qed.

(** X14.  Sentence splitting loses no token and cuts none: the tokens
    of the candidate sentences, taken in order, are exactly the tokens
    of the text, and stripping a candidate changes none of its tokens.
    The tokens of the kept sentences are therefore tokens of the text in
    their original order. *)
Theorem X14_sentences_keep_the_tokens (isalnum_char : char -> bool)
    (text : str) :
  List.concat (List.map split (split_sentences text)) = split text
  /\ (forall s, split (strip s) = split s)
  /\ List.concat (List.map split (good_sentences isalnum_char text))
     `sublist_of` split text.
Proof.
  split; [apply (split_sentences_from_tokens text (InText false) []);
          discriminate|].
  split; [apply split_strip|apply good_sentences_tokens].
Qed.

(** X15.  Every kept sentence has at least 40 characters, at most a
    quarter of them symbols, no whitespace at either end, and at least
    one token; the kept sentences are candidates in their original
    order. *)
Theorem X15_kept_sentences (isalnum_char : char -> bool) (text : str)
    (s : str) :
  s ∈ good_sentences isalnum_char text ->
  40 <= length s
  /\ 4 * symbol_count isalnum_char s <= length s
  /\ (forall c, head s = Some c -> isspace c = false)
  /\ (forall c, last s = Some c -> isspace c = false)
  /\ split s <> [].
Proof.
  unfold good_sentences. intros Hs.
  apply list_elem_of_In, filter_In in Hs as [Hin Hk].
  apply in_map_iff in Hin as (x & <- & _).
  unfold keeps in Hk. apply andb_true_iff in Hk as [H40 Hsym].
  apply negb_true_iff, Nat.ltb_ge in H40, Hsym.
  split; [exact H40|]. split; [exact Hsym|].
  split; [apply strip_head|]. split; [apply rstrip_last|].
  destruct (strip x) as [|c r] eqn:E; [cbn in H40; lia|].
  pose proof (strip_head x c) as Hc. rewrite E in Hc.
  specialize (Hc eq_refl). unfold split. cbn. rewrite Hc.
  rewrite <- (app_nil_r r).
  intros Hnil.
  assert (Hw : Forall is_word (split_from [c] (r ++ [])))
    by (apply split_from_words; constructor; [exact Hc|constructor]).
  assert (Hne : forall (t : str) (acc : str),
             acc <> [] -> split_from acc t <> []).
  { induction t as [|y t IHt]; intros acc Hacc; cbn.
    - destruct acc; [contradiction|discriminate].
    - destruct (isspace y); [destruct acc; [contradiction|discriminate]|].
      apply IHt. destruct acc; discriminate. }
  apply (Hne (r ++ []) [c]); [discriminate|exact Hnil].
Qed.

Lemma X15_kept_sentences_witness :
  40 <= length (Samples.sentence 60 60)
  /\ 4 * symbol_count ascii_alnum (Samples.sentence 60 60)
     <= length (Samples.sentence 60 60)
  /\ (forall c, head (Samples.sentence 60 60) = Some c -> isspace c = false)
  /\ (forall c, last (Samples.sentence 60 60) = Some c -> isspace c = false)
  /\ split (Samples.sentence 60 60) <> [].
Proof.
  refine (X15_kept_sentences ascii_alnum sample_text
            (Samples.sentence 60 60) _).
  decide_by_compute.
Defined.

Lemma split_from_chars (P : char -> Prop) (s acc : str) :
  Forall P acc -> Forall P s -> Forall (Forall P) (split_from acc s).
Proof.
  intros Hacc Hs. revert acc Hacc.
  induction Hs as [|c r Hc _ IH]; intros acc Hacc.
  - cbn. destruct acc; [constructor|].
    constructor; [assumption|constructor].
  - cbn. destruct (isspace c).
    + destruct acc; [apply IH; constructor|].
      constructor; [assumption|apply IH; constructor].
    + apply IH. apply Forall_app. split; [assumption|].
      constructor; [assumption|constructor].
Qed.

Lemma join_chars (P : char -> Prop) (sep : str) (l : list str) :
  Forall P sep -> Forall (Forall P) l -> Forall P (join sep l).
Proof.
  intros Hsep. induction 1 as [|x l Hx Hl IH]; [constructor|].
  cbn [join]. destruct l as [|y l]; [exact Hx|].
  apply Forall_app. split; [exact Hx|].
  apply Forall_app. split; [exact Hsep|exact IH].
Qed.

Lemma segment_sublist {A} (b l : list A) :
  ChunkShapes.segment_of b l -> b `sublist_of` l.
Proof.
  intros (before & after & ->).
  apply sublist_inserts_l, sublist_inserts_r. reflexivity.
Qed.

(** The words of a chunk of [chunk_text] are tokens of the unquoted
    text, in order. *)
Lemma chunk_text_tokens (isalnum_char : char -> bool) (text c : str) :
  c ∈ chunk_text isalnum_char text ->
  split c `sublist_of` split (unquote text)
  /\ Assembler.MIN_WORDS < length (split c)
  /\ c = join [SPACE] (split c).
Proof.
  unfold chunk_text. intros Hc.
  set (good := good_sentences isalnum_char (unquote text)) in *.
  destruct (assemble_elem good c Hc) as (b & Hb & E1 & E2).
  pose proof (assemble_words_min (List.map split good)) as Hmin.
  rewrite Forall_forall in Hmin. specialize (Hmin b Hb).
  rewrite E2. split; [|split; [exact Hmin|exact E1]].
  etransitivity; [|apply (good_sentences_tokens isalnum_char)].
  fold good. apply segment_sublist.
  unfold Assembler.assemble_words in Hb.
  destruct (words_loop_segments (List.map split good) [] ([], []))
    as [He Hcur]; [constructor|reflexivity|].
  destruct (Assembler.words_loop ([], []) (List.map split good))
    as [emitted cur].
  cbn [fst snd Assembler.words_flush app] in *.
  assert (Hall : Forall (fun b => ChunkShapes.segment_of b
                                    (List.concat (List.map split good)))
                        (emitted ++ [cur])).
  { apply Forall_app. split; [exact He|].
    constructor; [apply suffix_segment_of, Hcur|constructor]. }
  rewrite Forall_forall in Hall. apply (Hall b).
  destruct (Assembler.MIN_WORDS <? length cur); [exact Hb|].
  apply elem_of_app. left. exact Hb.
Qed.

(** X16.  BLOCKS 5 and 6 together: every chunk made from a cleaned text
    has more than 80 words, each of them a token of the text after the
    quote replacement, in the order of the text; it contains none of the
    six replaced characters; and the chunk cleaning of BLOCK 8 leaves it
    as it is. *)
Theorem X16_chunks_of_a_text (isalnum_char : char -> bool)
    (text c : str) :
  c ∈ chunk_text isalnum_char text ->
  80 < length (split c)
  /\ split c `sublist_of` split (unquote text)
  /\ Forall (fun x => ~ In x [8220%N; 8221%N; 8216%N; 8217%N; 8212%N;
                              8230%N]) c
  /\ Exporter.clean_chunk c = c.
Proof.
  intros Hc.
  destruct (chunk_text_tokens isalnum_char text c Hc) as (Hsub & Hmin & E).
  set (table := [ (8220%N, [34%N]); (8221%N, [34%N]); (8216%N, [39%N]);
                  (8217%N, [39%N]); (8212%N, [45%N]);
                  (8230%N, lit "...") ]).
  set (P := fun x : char => ~ In x (List.map fst table)).
  assert (Hu : Forall P (unquote text)).
  { assert (H : Forall (fun x => True /\ P x) (replace_table table text)).
    { apply (replace_table_clean table (fun _ => True) text).
      - repeat constructor; cbn; intuition discriminate.
      - apply Forall_forall; auto. }
    eapply Forall_impl; [exact H|]. cbn beta. tauto. }
  assert (Hw : Forall (Forall P) (split c)).
  { assert (Ht : Forall (Forall P) (split (unquote text)))
      by (apply split_from_chars; [constructor|exact Hu]).
    rewrite Forall_forall in Ht. apply Forall_forall. intros w Hin.
    apply Ht. eapply elem_of_sublist; [exact Hin|exact Hsub]. }
  assert (Hchars : Forall P c).
  { rewrite E. apply join_chars; [|exact Hw].
    constructor; [|constructor]. subst P. cbn. intuition discriminate. }
  split; [exact Hmin|]. split; [exact Hsub|]. split; [exact Hchars|].
  assert (Et : Exporter.clean_chunk c
               = replace_table
                   [ (8220%N, [34%N]); (8221%N, [34%N]); (8216%N, [39%N]);
                     (8217%N, [39%N]); (8212%N, [45%N]) ] c)
    by reflexivity.
  rewrite Et. apply replace_table_absent.
  eapply Forall_impl; [exact Hchars|]. subst P. cbn. tauto.
Qed.

Lemma X16_chunks_of_a_text_witness :
  80 < length (split Samples.chunk_a)
  /\ split Samples.chunk_a `sublist_of` split (unquote sample_text)
  /\ Forall (fun x => ~ In x [8220%N; 8221%N; 8216%N; 8217%N; 8212%N;
                              8230%N]) Samples.chunk_a
  /\ Exporter.clean_chunk Samples.chunk_a = Samples.chunk_a.
Proof.
  refine (X16_chunks_of_a_text ascii_alnum sample_text Samples.chunk_a _).
  decide_by_compute.
Defined.

End SegmenterFacts.

(** ** Boundary protection *)

Section CleanerFacts.
Import Re Normalizer Cleaner.

Section Pair.
Variables p q : char -> bool.











End Pair.


Context {U : UnicodeDB}.


End CleanerFacts.


(** ** Loading the dictionary *)

Section LexiconFacts.
Import Segmenter Lexicon.
Context {U : UnicodeDB}.

Lemma split_from_nil (s acc : str) :
  split_from acc s = [] <-> acc = [] /\ Forall (fun c => isspace c = true) s.
Proof.
  revert acc. induction s as [|c s IH]; intros acc; cbn.
  - destruct acc; split; try discriminate; auto.
    intros [E _]. discriminate.
  - destruct (isspace c) eqn:Hc.
    + destruct acc.
      * rewrite IH. split; intros [_ H]; split; auto.
        inversion H; assumption.
      * split; [discriminate|intros [E _]; discriminate].
    + rewrite IH. split.
      * intros [E _]. destruct acc; discriminate.
      * intros [_ H]. inversion H; congruence.
Qed.

Lemma split_nil (s : str) : split s = [] <-> blank_line s.
Proof. unfold split, blank_line. rewrite split_from_nil. tauto. Qed.

Lemma add_line_None (word_set : gset str) (line : str) :
  add_line word_set line = None <-> blank_line line.
Proof.
  unfold add_line. rewrite split_strip, <- split_nil.
  destruct (split line); split; congruence.
Qed.

Lemma add_line_Some (word_set word_set' : gset str) (line : str) :
  add_line word_set line = Some word_set' ->
  forall w, w ∈ word_set' <-> w ∈ word_set \/ (w <> [] /\ entry_of line w).
Proof.
  unfold add_line, entry_of. rewrite split_strip.
  destruct (split line) as [|first rest]; [discriminate|].
  intros [= <-] w. cbv zeta. destruct (lower first) as [|c l] eqn:E.
  - split; [auto|]. intros [H|[Hw (f & r & [= <- <-] & Hl)]]; [exact H|].
    congruence.
  - rewrite elem_of_union, elem_of_singleton. split.
    + intros [->|H]; [right|left; exact H].
      split; [discriminate|]. exists first, rest. auto.
    + intros [H|[_ (f & r & [= <- <-] & Hl)]]; [right; exact H|left].
      congruence.
Qed.

Lemma load_from_spec (lines : list str) (word_set : gset str) :
  match load_from word_set lines with
  | None => Exists blank_line lines
  | Some loaded =>
      Forall (fun line => ~ blank_line line) lines
      /\ forall w, w ∈ loaded
                   <-> w ∈ word_set
                       \/ (w <> [] /\ exists line,
                              line ∈ lines /\ entry_of line w)
  end.
Proof.
  revert word_set. induction lines as [|line rest IH]; intros word_set.
  - cbn. split; [constructor|]. intros w. split; [auto|].
    intros [H|[_ (line & Hin & _)]]; [exact H|]. inversion Hin.
  - cbn [load_from]. destruct (add_line word_set line) as [ws|] eqn:E.
    + cbn. specialize (IH ws).
      destruct (load_from ws rest) as [loaded|].
      * destruct IH as [Hnb Hw]. split.
        { constructor; [|exact Hnb]. rewrite <- (add_line_None word_set).
          congruence. }
        intros w. rewrite Hw, (add_line_Some _ _ _ E w). split.
        { intros [[H|[Hne He]]|[Hne (l & Hin & He)]]; auto.
          - right. split; [exact Hne|]. exists line. split; [left|exact He].
          - right. split; [exact Hne|]. exists l. split; [right|]; auto. }
        { intros [H|[Hne (l & Hin & He)]]; auto.
          inversion Hin; subst; [left; right; auto|].
          right. split; [exact Hne|]. exists l. auto. }
      * apply Exists_cons_tl, IH.
    + cbn. apply Exists_cons_hd. apply (add_line_None word_set), E.
Qed.

(** X18.  Loading the dictionary fails with the [IndexError] exactly
    when some line of the file is empty or all whitespace.  Otherwise
    the lexicon holds exactly the lowercased first tokens of the lines
    that are not the empty string; the rest of each line is ignored. *)
Theorem X18_dictionary_loading (lines : list str) :
  match load (Some lines) with
  | None => Exists blank_line lines
  | Some word_set =>
      Forall (fun line => ~ blank_line line) lines
      /\ forall w, w ∈ word_set
                   <-> w <> [] /\ exists line,
                          line ∈ lines /\ entry_of line w
  end.
Proof.
  cbn [load]. pose proof (load_from_spec lines ∅) as H.
  destruct (load_from ∅ lines) as [loaded|]; [|exact H].
  destruct H as [Hnb Hw]. split; [exact Hnb|].
  intros w. rewrite Hw. split; [|auto].
  intros [H|H]; [|exact H]. apply elem_of_empty in H. contradiction.
Qed.

End LexiconFacts.

(** ** Drop-cap repair *)

Section DropCapFacts.
Import Re Normalizer DropCap.

(** A greedy repetition gives nothing back when what follows cannot
    start with a character of the class. *)
Lemma re_star_greedy (cls : char -> bool) (k : str -> option nat)
    (s : str) :
  (forall c r, cls c = true -> k (c :: r) = None) ->
  re_star cls k s
  = (fun n => run cls s + n) <$> k (drop (run cls s) s).
Proof.
  intros Hk. induction s as [|c r IH]; cbn [re_star run].
  - cbn. destruct (k []); reflexivity.
  - destruct (cls c) eqn:Hc.
    + rewrite IH. cbn [drop].
      destruct (k (drop (run cls r) r)) as [n|] eqn:E; cbn.
      * reflexivity.
      * apply Hk, Hc.
    + cbn. destruct (k (c :: r)); reflexivity.
Qed.

Lemma run_app_all (cls : char -> bool) (u x : str) :
  Forall (fun c => cls c = true) u ->
  run cls (u ++ x) = length u + run cls x.
Proof.
  induction 1 as [|c u Hc _ IH]; [reflexivity|].
  cbn. rewrite Hc, IH. reflexivity.
Qed.

Lemma take_run_drop (cls : char -> bool) (s : str) :
  s = take (run cls s) s ++ drop (run cls s) s.
Proof. symmetry. apply take_drop. Qed.

Lemma lower_not_space (c : char) : ascii_lower c = true -> isspace c = false.
Proof.
  unfold ascii_lower, isspace. rewrite andb_true_iff, !N.leb_le.
  intros [H1 H2].
  repeat (apply orb_false_iff; split);
    try apply andb_false_iff; rewrite ?N.leb_gt, ?N.eqb_neq; lia.
Qed.

(** The shape of a match of [re_at_start], and what replaces it. *)
Lemma match_at_start (s : str) (n : nat) :
  re_match re_at_start s = Some n ->
  exists f ws word rest,
    s = f :: ws ++ word ++ rest
    /\ ascii_lower f = true
    /\ ws <> [] /\ Forall (fun c => isspace c = true) ws
    /\ word <> [] /\ Forall (fun c => ascii_lower c = true) word
    /\ n = S (length ws + length word)
    /\ repl_at_start (take n s) = capital f ++ SPACE :: word.
Proof.
  destruct s as [|f r]; [discriminate|]. cbn [re_match re_at_start].
  destruct (ascii_lower f) eqn:Hf; [|discriminate].
  destruct r as [|c r]; [discriminate|].
  destruct (isspace c) eqn:Hc; [|discriminate].
  rewrite re_star_greedy.
  2:{ intros x y Hx. destruct (ascii_lower x) eqn:E; [|reflexivity].
      rewrite (lower_not_space x E) in Hx. discriminate. }
  set (j := run isspace r).
  destruct (drop j r) as [|c2 r2] eqn:Er; [discriminate|].
  destruct (ascii_lower c2) eqn:Hc2; [|discriminate].
  rewrite re_star_run. cbn. intros [= <-].
  set (w := run ascii_lower r2).
  exists f, (c :: take j r), (c2 :: take w r2), (drop w r2).
  assert (Hws : Forall (fun x => isspace x = true) (c :: take j r))
    by (constructor; [exact Hc|apply run_Forall]).
  assert (Hword : Forall (fun x => ascii_lower x = true) (c2 :: take w r2))
    by (constructor; [exact Hc2|apply run_Forall]).
  assert (Es : r = take j r ++ c2 :: take w r2 ++ drop w r2).
  { rewrite (take_drop w r2), <- Er. symmetry. apply take_drop. }
  assert (Hj : j = length (take j r))
    by (symmetry; apply length_take_le, run_le).
  assert (Hw : w = length (take w r2))
    by (symmetry; apply length_take_le, run_le).
  repeat split; try assumption; try discriminate.
  - cbn [app]. rewrite <- Es. reflexivity.
  - cbn [length]. rewrite <- Hj, <- Hw. lia.
  - cbn [take repl_at_start].
    assert (Et : forall x, x = take j r ++ c2 :: take w r2 ++ drop w r2 ->
                 take (j + S w) x = take j r ++ c2 :: take w r2).
    { intros x ->. rewrite take_app_add' by exact Hj.
      cbn [take]. rewrite take_app_length' by exact Hw. reflexivity. }
    rewrite (Et r Es).
    change (c :: take j r ++ c2 :: take w r2)
      with ((c :: take j r) ++ (c2 :: take w r2)).
    assert (Hrun : run isspace ((c :: take j r) ++ (c2 :: take w r2))
                   = length (c :: take j r)).
    { rewrite (run_app_all isspace _ _ Hws). cbn [run].
      rewrite (lower_not_space c2 Hc2). lia. }
    rewrite Hrun, drop_app_length. reflexivity.
Qed.

(** The shape of a match of [re_after_boundary]. *)
Lemma match_after_boundary (s : str) (n : nat) :
  re_match re_after_boundary s = Some n ->
  exists b ws f ws' word rest,
    s = b :: ws ++ f :: ws' ++ word ++ rest
    /\ boundary_char b = true
    /\ ws <> [] /\ Forall (fun c => isspace c = true) ws
    /\ ascii_lower f = true
    /\ ws' <> [] /\ Forall (fun c => isspace c = true) ws'
    /\ word <> [] /\ Forall (fun c => ascii_lower c = true) word
    /\ n = S (length ws + S (length ws' + length word))
    /\ repl_after_boundary (take n s)
       = b :: ws ++ capital f ++ SPACE :: word.
Proof.
  destruct s as [|b r]; [discriminate|].
  change (re_match re_after_boundary (b :: r))
    with (if boundary_char b
          then S <$> match r with
                     | c :: r' =>
                         if isspace c
                         then S <$> re_star isspace (re_match re_at_start) r'
                         else None
                     | [] => None
                     end
          else None).
  destruct (boundary_char b) eqn:Hb; [|discriminate].
  destruct r as [|c r]; [discriminate|].
  destruct (isspace c) eqn:Hc; [|discriminate].
  rewrite re_star_greedy.
  2:{ intros x y Hx. cbn [re_match re_at_start].
      destruct (ascii_lower x) eqn:E; [|reflexivity].
      rewrite (lower_not_space x E) in Hx. discriminate. }
  set (j := run isspace r).
  destruct (re_match re_at_start (drop j r)) as [m|] eqn:Em; [|discriminate].
  cbn. intros [= <-].
  destruct (match_at_start _ _ Em)
    as (f & ws' & word & rest & Es & Hf & Hne' & Hws' & Hne & Hword & -> & Hr).
  exists b, (c :: take j r), f, ws', word, rest.
  assert (Hws : Forall (fun x => isspace x = true) (c :: take j r))
    by (constructor; [exact Hc|apply run_Forall]).
  assert (Hj : j = length (take j r))
    by (symmetry; apply length_take_le, run_le).
  assert (Er : r = take j r ++ f :: ws' ++ word ++ rest)
    by (rewrite <- Es; symmetry; apply take_drop).
  repeat split; try assumption; try discriminate.
  - cbn [app]. rewrite <- Er. reflexivity.
  - cbn [length]. rewrite <- Hj. lia.
  - unfold repl_after_boundary.
    set (n := S (length ws' + length word)) in *.
    assert (Et : take (S (S (j + n))) (b :: c :: r)
                 = (b :: c :: take j r) ++ take n (drop j r)).
    { cbn [take app]. do 2 f_equal.
      assert (Ex : forall x, x = take j r ++ drop j r ->
                   take (j + n) x = take j r ++ take n (drop j r)).
      { intros x ->. apply take_app_add', Hj. }
      apply Ex. symmetry. apply take_drop. }
    rewrite Et.
    assert (Hrun : run isspace (drop 1 ((b :: c :: take j r)
                                        ++ take n (drop j r)))
                   = S j).
    { cbn [drop app].
      change (c :: take j r ++ take n (drop j r))
        with ((c :: take j r) ++ take n (drop j r)).
      rewrite (run_app_all isspace _ _ Hws). cbn [length]. rewrite <- Hj.
      rewrite Es. unfold n. cbn [take run].
      rewrite (lower_not_space f Hf). lia. }
    rewrite Hrun.
    change (1 + S j) with (S (S j)).
    assert (Hl : S (S j) = length (b :: c :: take j r))
      by (cbn [length]; rewrite <- Hj; reflexivity).
    rewrite take_app_length' by exact Hl.
    rewrite drop_app_length' by exact Hl.
    rewrite Hr. reflexivity.
Qed.

Lemma count_from_drop (p : pattern) (skip : nat) (s : str) :
  count_from p skip s = count_from p 0 (drop skip s).
Proof.
  revert skip. induction s as [|c r IH]; intros skip.
  - destruct skip; reflexivity.
  - destruct skip as [|k]; [reflexivity|]. cbn [count_from drop]. apply IH.
Qed.

Lemma count_cons (p : pattern) (c : char) (r : str) :
  count_from p 0 (c :: r)
  = match re_match p (c :: r) with
    | Some (S n) => S (count_from p 0 (drop n r))
    | _ => count_from p 0 r
    end.
Proof.
  cbn [count_from].
  destruct (re_match p (c :: r)) as [[|n]|]; try reflexivity.
  rewrite count_from_drop. reflexivity.
Qed.

(** Without a match the substitution changes nothing. *)
Lemma count_zero_sub (p : pattern) (repl : str -> str) (s : str) :
  count_from p 0 s = 0 -> sub p repl s = s.
Proof.
  induction s as [|c r IH]; [reflexivity|].
  rewrite count_cons, sub_cons.
  destruct (re_match p (c :: r)) as [[|n]|]; try discriminate;
    intros H; f_equal; apply IH, H.
Qed.

(** *** Tokens across the pieces of a match *)

Lemma split_from_spaces (ws x acc : str) :
  ws <> [] -> Forall (fun c => isspace c = true) ws ->
  split_from acc (ws ++ x) = emit acc ++ split x.
Proof.
  intros Hne Hws. destruct Hws as [|c ws Hc Hws]; [contradiction|].
  clear Hne. cbn [app split_from]. rewrite Hc.
  assert (E : split_from [] (ws ++ x) = split x).
  { unfold split. induction Hws as [|d ws Hd _ IH]; [reflexivity|].
    cbn [app split_from]. rewrite Hd. exact IH. }
  rewrite E. destruct acc; reflexivity.
Qed.

Lemma lower_letters (w : str) :
  Forall (fun c => ascii_lower c = true) w ->
  Forall (fun c => isspace c = false) w.
Proof. intros H. eapply Forall_impl; [exact H|exact lower_not_space]. Qed.

Lemma capital_letters (f : char) :
  ascii_lower f = true ->
  capital f <> [] /\ Forall (fun c => isspace c = false) (capital f).
Proof.
  intros Hf. unfold capital.
  destruct (f =? 110)%N; [split; [discriminate|repeat constructor]|].
  destruct (f =? 116)%N; [split; [discriminate|repeat constructor]|].
  destruct (f =? 105)%N; [split; [discriminate|repeat constructor]|].
  split; [discriminate|]. constructor; [|constructor].
  revert Hf. unfold ascii_lower, isspace.
  rewrite andb_true_iff, !N.leb_le. intros [H1 H2].
  repeat (apply orb_false_iff; split);
    try apply andb_false_iff; rewrite ?N.leb_gt, ?N.eqb_neq; lia.
Qed.

Lemma capital_differs (f : char) :
  ascii_lower f = true -> [f] <> capital f.
Proof.
  unfold capital, ascii_lower. rewrite andb_true_iff, !N.leb_le.
  intros [H1 H2].
  destruct (f =? 110)%N; [discriminate|].
  destruct (f =? 116)%N; [discriminate|].
  destruct (N.eqb_spec f 105); [subst; discriminate|].
  intros [= E]. lia.
Qed.

(** The tokens of a matched one-letter word and of what follows it. *)
Lemma split_at_start (f : char) (ws word x : str) :
  ascii_lower f = true ->
  ws <> [] -> Forall (fun c => isspace c = true) ws ->
  Forall (fun c => ascii_lower c = true) word ->
  split (f :: ws ++ word ++ x) = [f] :: split_from word x.
Proof.
  intros Hf Hne Hws Hword. unfold split. cbn [split_from].
  rewrite (lower_not_space f Hf). cbn [app].
  rewrite split_from_spaces by assumption. cbn [emit app]. f_equal.
  unfold split. apply split_from_nonspace, lower_letters, Hword.
Qed.

Lemma split_repaired_start (f : char) (word x : str) :
  ascii_lower f = true ->
  Forall (fun c => ascii_lower c = true) word ->
  split (capital f ++ SPACE :: word ++ x) = capital f :: split_from word x.
Proof.
  intros Hf Hword. destruct (capital_letters f Hf) as [Hne Hcap].
  unfold split. rewrite split_from_nonspace by exact Hcap. cbn [app].
  change (SPACE :: word ++ x) with ([SPACE] ++ word ++ x).
  rewrite split_from_spaces;
    [|discriminate|constructor; [reflexivity|constructor]].
  destruct (capital f); [contradiction|]. cbn [emit app]. f_equal.
  unfold split. apply split_from_nonspace, lower_letters, Hword.
Qed.

Lemma repaired_refl (l : list str) : Forall2 repaired l l.
Proof. induction l; constructor; [left; reflexivity|assumption]. Qed.

Lemma changed_refl (l : list str) : changed l l = 0.
Proof.
  induction l as [|t l IH]; [reflexivity|]. cbn [changed].
  destruct (decide (t = t)); [exact IH|contradiction].
Qed.

Lemma changed_app (a a' b b' : list str) :
  length a = length a' ->
  changed (a ++ b) (a' ++ b') = changed a a' + changed b b'.
Proof.
  revert a'. induction a as [|t a IH]; intros [|t' a'] E;
    try discriminate; [reflexivity|].
  cbn [app changed]. rewrite IH by (cbn in E; lia). lia.
Qed.

(** The scan after a boundary keeps every token but the matched
    one-letter words, and counts each of them once. *)
Lemma scan_tokens (s acc : str) :
  Forall2 repaired
    (split_from acc s)
    (split_from acc (sub re_after_boundary repl_after_boundary s))
  /\ changed
       (split_from acc s)
       (split_from acc (sub re_after_boundary repl_after_boundary s))
     = count_from re_after_boundary 0 s.
Proof.
  revert acc.
  induction s as [s IH] using (induction_ltof1 _ (@length char)).
  unfold ltof in IH. intros acc.
  destruct s as [|c r]; [split; [apply repaired_refl|apply changed_refl]|].
  rewrite sub_cons, count_cons.
  destruct (re_match re_after_boundary (c :: r)) as [n|] eqn:Em.
  - destruct (match_after_boundary _ _ Em)
      as (b & ws & f & ws' & word & rest & Es & Hb & Hne & Hws & Hf & Hne'
          & Hws' & Hnw & Hword & -> & Hr).
    rewrite Hr. injection Es as -> ->.
    assert (Ed : drop (length ws + S (length ws' + length word))
                      (ws ++ f :: ws' ++ word ++ rest) = rest).
    { rewrite drop_app_add' by reflexivity. cbn [drop].
      rewrite drop_app_add' by reflexivity. apply drop_app_length. }
    rewrite Ed.
    change (b :: ws ++ f :: ws' ++ word ++ rest)
      with ([b] ++ ws ++ f :: ws' ++ word ++ rest).
    change ((b :: ws ++ capital f ++ SPACE :: word) ++ ?x)
      with ([b] ++ (ws ++ capital f ++ SPACE :: word) ++ x).
    rewrite <- !app_assoc.
    assert (Hpre : forall x,
               split_from acc ([b] ++ ws ++ x)
               = split_from acc [b] ++ split x).
    { intros x. cbn [app split_from]. destruct (isspace b) eqn:Hsb.
      - destruct acc; rewrite split_from_spaces by assumption;
          reflexivity.
      - rewrite split_from_spaces by assumption.
        destruct acc; reflexivity. }
    rewrite !Hpre.
    rewrite split_at_start by assumption.
    cbn [app]. rewrite split_repaired_start by assumption.
    destruct (IH rest) with (acc := word) as [H2 Hc].
    { cbn [length]. rewrite !length_app. cbn [length].
      rewrite !length_app. lia. }
    split.
    + apply Forall2_app; [apply repaired_refl|].
      constructor; [|exact H2].
      right. exists f. auto.
    + rewrite changed_app by reflexivity. rewrite changed_refl.
      cbn [changed]. rewrite Hc.
      destruct (decide ([f] = capital f)) as [E|_]; [|reflexivity].
      destruct (capital_differs f Hf E).
  - cbn [split_from]. destruct (isspace c).
    + destruct (IH r) with (acc := @nil char) as [H2 Hc]; [cbn; lia|].
      destruct acc; [split; assumption|].
      split; [constructor; [left; reflexivity|exact H2]|].
      cbn [changed]. destruct (decide (n :: acc = n :: acc));
        [exact Hc|contradiction].
    + apply IH. cbn. lia.
Qed.

(** X19.  The drop-cap repair keeps the tokens of the text, except that
    tokens of one lowercase letter may become their capital form ([n] to
    [In], [t] to [The], [i] to [I], another letter to its upper case):
    no token is added, removed or cut.  The counter is the number of
    tokens changed, and with no fix the text is returned as it is. *)
Theorem X19_dropcap_changes_one_letter_words (text : str) :
  Forall2 repaired (split text) (split (fst (dropcap text)))
  /\ changed (split text) (split (fst (dropcap text)))
     = snd (dropcap text)
  /\ (snd (dropcap text) = 0 -> fst (dropcap text) = text).
Proof.
  unfold dropcap.
  destruct (re_match re_at_start text) as [[|n]|] eqn:Em; cbn [fst snd];
    try (destruct (scan_tokens text []) as [H1 H2];
         split; [exact H1|split; [exact H2|apply count_zero_sub]]).
  destruct (match_at_start _ _ Em)
    as (f & ws & word & rest & Es & Hf & Hne & Hws & Hnw & Hword & En & Hr).
  rewrite Hr, En. subst text.
  assert (Ed : drop (S (length ws + length word))
                    (f :: ws ++ word ++ rest) = rest).
  { cbn [drop]. rewrite drop_app_add' by reflexivity.
    apply drop_app_length. }
  rewrite Ed, <- app_assoc. cbn [app].
  rewrite split_at_start, split_repaired_start by assumption.
  destruct (scan_tokens rest word) as [H1 H2].
  split; [|split; [|discriminate]].
  - constructor; [|exact H1]. right. exists f. auto.
  - cbn [changed]. rewrite H2.
    destruct (decide ([f] = capital f)) as [E|_]; [|reflexivity].
    destruct (capital_differs f Hf E).
Qed.

End DropCapFacts.

(** ** The report of an export *)

Section ReportConsistency.
Import Exporter Reporter.

Lemma fold_min_le (l : list nat) (x : nat) :
  List.fold_left Nat.min l x <= x
  /\ Forall (fun y => List.fold_left Nat.min l x <= y) l.
Proof.
  revert x. induction l as [|y l IH]; intros x; cbn; [auto|].
  destruct (IH (Nat.min x y)) as [H1 H2]. split; [lia|].
  constructor; [lia|exact H2].
Qed.

Lemma fold_max_ge (l : list nat) (x : nat) :
  x <= List.fold_left Nat.max l x
  /\ Forall (fun y => y <= List.fold_left Nat.max l x) l.
Proof.
  revert x. induction l as [|y l IH]; intros x; cbn; [auto|].
  destruct (IH (Nat.max x y)) as [H1 H2]. split; [lia|].
  constructor; [lia|exact H2].
Qed.

(** The two extremes of the report bound every count. *)
Lemma min_max_bound (counts : list nat) :
  Forall (fun y => min_of counts <= y /\ y <= max_of counts) counts.
Proof.
  destruct counts as [|x l]; [constructor|]. unfold min_of, max_of.
  destruct (fold_min_le l x) as [H1 H2].
  destruct (fold_max_ge l x) as [H3 H4].
  constructor; [auto|].
  apply Forall_and. split; assumption.
Qed.

Lemma filter_length_le {A} (f : A -> bool) (l : list A) :
  length (List.filter f l) <= length l.
Proof.
  induction l as [|x l IH]; cbn; [lia|]. destruct (f x); cbn; lia.
Qed.

Context {U : UnicodeDB} {R : PyRandom}.

(** X20.  The report of an export is consistent: it counts as many
    records as chunks, the three split sizes add up to that number, the
    word and character extremes bound the counts of every chunk, the
    short chunks are at most all chunks, and the duplicates are fewer
    than the chunks when there is a chunk. *)
Theorem X20_report_is_consistent (chunks : list str) (g0 : rng)
    (r : report) :
  shuffle_contract R ->
  export_and_report chunks g0 = Some r ->
  total_chunks r = length chunks
  /\ total_records r = total_chunks r
  /\ split_train r + split_val r + split_test r = total_chunks r
  /\ (forall c, c ∈ chunks ->
        word_min r <= length (split c) <= word_max r
        /\ char_min r <= length c <= char_max r)
  /\ short_chunks_under_80w r <= total_chunks r
  /\ (chunks <> [] -> report_duplicate_chunks r < total_chunks r).
Proof.
  intros HR E. unfold export_and_report in E.
  apply bind_Some in E as ([a g'] & Ea & E). injection E as <-.
  cbn [build_report total_chunks total_records split_train split_val
         split_test word_min word_max char_min char_max
         short_chunks_under_80w report_duplicate_chunks].
  destruct (export_records_shape _ _ _ _ Ea)
    as (Hr & shuffled & g3 & Es & Et & Ev & Ete).
  assert (Hp : Permutation shuffled (a_records a)).
  { specialize (HR record (a_records a) (seed 42)). rewrite Es in HR.
    exact HR. }
  assert (Hn : length (a_records a) = length chunks).
  { rewrite Hr. unfold make_records. rewrite length_imap.
    apply length_map. }
  split; [reflexivity|]. split; [exact Hn|]. split; [|split; [|split]].
  - rewrite Et, Ev, Ete.
    pose proof (f_equal length
                  (three_way_cut shuffled (train_end (length shuffled))
                     (val_end (length shuffled))
                     ltac:(unfold train_end, val_end;
                           apply Nat.Div0.div_le_mono; lia))) as Hl.
    rewrite !length_app in Hl. rewrite Nat.add_assoc in Hl. rewrite Hl.
    rewrite (Permutation_length Hp). exact Hn.
  - intros c Hc. split.
    + pose proof (min_max_bound (word_counts chunks)) as H.
      rewrite Forall_forall in H. apply H. unfold word_counts.
      apply list_elem_of_In, in_map_iff. exists c.
      split; [reflexivity|apply list_elem_of_In, Hc].
    + pose proof (min_max_bound (char_counts chunks)) as H.
      rewrite Forall_forall in H. apply H. unfold char_counts.
      apply list_elem_of_In, in_map_iff. exists c.
      split; [reflexivity|apply list_elem_of_In, Hc].
  - unfold short_chunks. etransitivity; [apply filter_length_le|].
    unfold word_counts. rewrite length_map. reflexivity.
  - intros Hne. unfold duplicate_chunks.
    destruct chunks as [|c l]; [contradiction|].
    assert (Hpos : 0 < size (list_to_set (c :: l) : gset str)).
    { cbn [list_to_set]. rewrite size_union_alt, size_singleton. lia. }
    cbn [length] in *. lia.
Qed.

End ReportConsistency.

Lemma X20_report_is_consistent_witness :
  exists r,
    Reporter.export_and_report (U := AsciiDB) (R := ToyRandom.toy)
      [Samples.chunk_a; Samples.chunk_b] 0%N = Some r
    /\ Reporter.total_chunks r = 2
    /\ Reporter.total_records r = Reporter.total_chunks r
    /\ Reporter.split_train r + Reporter.split_val r
       + Reporter.split_test r = Reporter.total_chunks r
    /\ (forall c, c ∈ [Samples.chunk_a; Samples.chunk_b] ->
          Reporter.word_min r <= length (split c) <= Reporter.word_max r
          /\ Reporter.char_min r <= length c <= Reporter.char_max r)
    /\ Reporter.short_chunks_under_80w r <= Reporter.total_chunks r
    /\ ([Samples.chunk_a; Samples.chunk_b] <> [] ->
        Reporter.report_duplicate_chunks r < Reporter.total_chunks r).
Proof.
  destruct (Reporter.export_and_report (U := AsciiDB) (R := ToyRandom.toy)
              [Samples.chunk_a; Samples.chunk_b] 0%N) as [r|] eqn:E.
  - exists r. split; [reflexivity|].
    exact (X20_report_is_consistent (U := AsciiDB) (R := ToyRandom.toy)
             [Samples.chunk_a; Samples.chunk_b] 0%N r
             toy_shuffle_contract E).
  - exfalso. revert E. vm_compute. discriminate.
Defined.

(** ** The counters of the repair passes *)

Section RepairerAccounting.
Import Repairer.
Context {U : UnicodeDB}.
Variable word_set : gset str.

(** A merge removes no character of a token. *)
Lemma joins_to_concat (tokens out : list str) :
  joins_to word_set tokens out -> List.concat out = List.concat tokens.
Proof.
  induction 1 as [| |a b rest out Hm Hj IH|a b rest out Hm Hj IH];
    cbn [List.concat]; try reflexivity.
  - rewrite IH, app_assoc. reflexivity.
  - rewrite IH. reflexivity.
Qed.

(** Every join is counted as a broken pair, and a broken pair needs a
    token after it. *)
Lemma join_step_counters (tokens : list str) (st : join_state) :
  js_i st < length tokens ->
  let st' := join_step word_set tokens st in
  js_joins st' - js_joins st <= js_broken st' - js_broken st
  /\ js_joins st <= js_joins st' /\ js_broken st <= js_broken st'
  /\ js_i st < js_i st'
  /\ js_broken st' + (length tokens - 1 - js_i st')
     <= js_broken st + (length tokens - 1 - js_i st).
Proof.
  intros Hi. unfold join_step.
  destruct (tokens !! js_i st) as [a|] eqn:Ea.
  2:{ apply lookup_ge_None in Ea. lia. }
  destruct (tokens !! (js_i st + 1)) as [b|] eqn:Eb.
  - apply lookup_lt_Some in Eb.
    destruct ((length a <=? 2) && isalpha a && isalpha b);
      [destruct (bool_decide (lower (a ++ b) ∈ word_set))|];
      cbn; lia.
  - cbn. lia.
Qed.

Lemma join_while_counters (tokens : list str) (fuel : nat)
    (st : join_state) :
  js_joins st <= js_broken st ->
  let st' := join_while fuel word_set tokens st in
  js_joins st' <= js_broken st'
  /\ js_broken st' + (length tokens - 1 - js_i st')
     <= js_broken st + (length tokens - 1 - js_i st).
Proof.
  revert st. induction fuel as [|fuel IH]; intros st Hst; cbn zeta;
    cbn [join_while]; [lia|].
  destruct (Nat.ltb_spec (js_i st) (length tokens)) as [Hi|Hi]; [|lia].
  pose proof (join_step_counters tokens st Hi) as Hs. cbn zeta in Hs.
  destruct (IH (join_step word_set tokens st)) as [H1 H2]; [lia|].
  split; [exact H1|lia].
Qed.

(** X21.  The counters of the join pass: every join is one of the
    broken pairs counted, there are fewer broken pairs than tokens,
    every join makes one token less, and the tokens of the result,
    written without spaces, are the tokens of the input written without
    spaces: the pass changes no character of a token. *)
Theorem X21_join_pass_accounting (text : str) :
  word_set <> ∅ ->
  let '(joined, broken_pairs, joins) := join_pass word_set text in
  joins <= broken_pairs
  /\ broken_pairs <= length (split text) - 1
  /\ length (split joined) + joins = length (split text)
  /\ List.concat (split joined) = List.concat (split text).
Proof.
  intros Hne. unfold join_pass. rewrite decide_False by exact Hne.
  destruct (join_tokens_scan word_set (split text))
    as (out & Hj & Hf & Hc & _).
  destruct (join_while_counters (split text) (length (split text))
              join_init) as [H1 H2]; [cbn; lia|].
  fold (join_tokens word_set (split text)) in H1, H2.
  cbn [join_init js_broken js_i] in H2.
  assert (Hout : Forall is_word out).
  { eapply joins_to_preserves; [|exact Hj|apply split_words].
    intros a b [Ha1 Ha2] [Hb1 Hb2]. split.
    - destruct a; [contradiction|discriminate].
    - apply Forall_app. auto. }
  rewrite Hf, (split_join out Hout).
  split; [exact H1|]. split; [lia|]. split; [lia|].
  apply joins_to_concat, Hj.
Qed.

(** Pieces joined by single spaces keep their tokens apart. *)
Lemma split_join_pieces (pieces : list str) :
  split (join [SPACE] pieces) = List.concat (List.map split pieces).
Proof.
  induction pieces as [|x l IH]; [reflexivity|].
  destruct l as [|y l].
  - cbn. now rewrite app_nil_r.
  - change (join [SPACE] (x :: y :: l))
      with (x ++ SPACE :: join [SPACE] (y :: l)).
    unfold split at 1.
    rewrite split_from_app_space by reflexivity.
    rewrite IH. reflexivity.
Qed.

Lemma split_word (w : str) : is_word w -> split w = [w].
Proof.
  intros Hw. rewrite <- (split_join [w]); [reflexivity|].
  constructor; [exact Hw|constructor].
Qed.

(** The tokens of what the split pass appends for one token. *)
Lemma split_token_tokens (tok : str) :
  [] ∉ word_set ->
  (forall s, Forall (fun c => isspace c = false) s ->
             Forall (fun c => isspace c = false) (lower s)) ->
  is_word tok ->
  let '(piece, fixed_one) := split_token word_set tok in
  length (split piece) = (if fixed_one then 2 else 1)
  /\ Forall (fun t => t = tok \/ t ∈ word_set) (split piece).
Proof.
  intros Hempty Hlow Htok. unfold split_token.
  destruct (bool_decide (lower tok ∈ word_set) || negb (isalpha tok)
            || (length tok <? 4)).
  { rewrite (split_word tok Htok). split; [reflexivity|].
    constructor; [left; reflexivity|constructor]. }
  pose proof (split_search_first word_set (lower tok)
                (seq 1 (length tok - 1))) as Hs.
  destruct (split_search word_set (lower tok) (seq 1 (length tok - 1)))
    as [piece|].
  2:{ rewrite (split_word tok Htok). split; [reflexivity|].
      constructor; [left; reflexivity|constructor]. }
  destruct Hs as (_ & cut & _ & _ & -> & Hl & Hr & _).
  assert (Hns : Forall (fun c => isspace c = false) (lower tok))
    by (apply Hlow, Htok).
  assert (Wl : is_word (take cut (lower tok))).
  { split; [intros E; rewrite E in Hl; contradiction|].
    apply Forall_take, Hns. }
  assert (Wr : is_word (drop cut (lower tok))).
  { split; [intros E; rewrite E in Hr; contradiction|].
    apply Forall_drop, Hns. }
  unfold split at 1 2. cbn [app].
  rewrite !split_from_app_space by reflexivity.
  fold (split (take cut (lower tok))).
  rewrite (split_word _ Wl), (split_word _ Wr).
  split; [reflexivity|].
  constructor; [right; exact Hl|].
  constructor; [right; exact Hr|constructor].
Qed.

(** X22.  The counter of the split pass, for a lexicon without the
    empty string and a [str.lower] that brings no whitespace into a
    token: every split makes one token more, and every token of the
    result is a token of the input or a word of the lexicon. *)
Theorem X22_split_pass_accounting (text : str) :
  [] ∉ word_set ->
  (forall s, Forall (fun c => isspace c = false) s ->
             Forall (fun c => isspace c = false) (lower s)) ->
  let '(splitted, split_fixes) := split_pass word_set text in
  length (split splitted) = length (split text) + split_fixes
  /\ Forall (fun t => t ∈ split text \/ t ∈ word_set) (split splitted).
Proof.
  intros Hempty Hlow. unfold split_pass.
  destruct (decide (word_set = ∅)) as [_|_].
  { split; [lia|]. apply Forall_forall. auto. }
  rewrite split_tokens_map, split_join_pieces, List.map_map.
  pose proof (split_words text) as Hw.
  assert (G : forall tokens, Forall is_word tokens ->
    length (List.concat
              (List.map (fun tok => split (fst (split_token word_set tok)))
                 tokens))
    = length tokens
      + length (List.filter (fun tok => snd (split_token word_set tok))
                  tokens)
    /\ Forall (fun t => t ∈ tokens \/ t ∈ word_set)
         (List.concat
            (List.map (fun tok => split (fst (split_token word_set tok)))
               tokens))).
  { induction 1 as [|tok tokens Htok _ [IH1 IH2]]; [split; [reflexivity|constructor]|].
    cbn [List.map List.concat List.filter].
    pose proof (split_token_tokens tok Hempty Hlow Htok) as Ht.
    destruct (split_token word_set tok) as [piece fixed_one].
    cbn [fst snd]. destruct Ht as [Hl Hf]. split.
    - rewrite length_app, Hl, IH1.
      destruct fixed_one; cbn [length]; lia.
    - apply Forall_app. split.
      + eapply Forall_impl; [exact Hf|]. cbn beta.
        intros t [-> |Ht]; [left; left|right; exact Ht].
      + eapply Forall_impl; [exact IH2|]. cbn beta.
        intros t [Ht|Ht]; [left; right; exact Ht|right; exact Ht]. }
  exact (G (split text) Hw).
Qed.

End RepairerAccounting.

Lemma X21_join_pass_accounting_witness :
  let '(joined, broken_pairs, joins) :=
    Repairer.join_pass (U := AsciiDB) {[ lit "the" ]} (lit "t he c at") in
  joins <= broken_pairs
  /\ broken_pairs <= length (split (lit "t he c at")) - 1
  /\ length (split joined) + joins = length (split (lit "t he c at"))
  /\ List.concat (split joined) = List.concat (split (lit "t he c at")).
Proof.
  refine (X21_join_pass_accounting (U := AsciiDB) {[ lit "the" ]}
            (lit "t he c at") _).
  intros E.
  apply (f_equal (fun s : gset str => bool_decide (lit "the" ∈ s))) in E.
  vm_compute in E. discriminate.
Defined.

Lemma X22_split_pass_accounting_witness :
  let '(splitted, split_fixes) :=
    Repairer.split_pass (U := AsciiDB) {[ lit "the"; lit "cat" ]}
      (lit "Thecat sat") in
  length (split splitted) = length (split (lit "Thecat sat")) + split_fixes
  /\ Forall (fun t => t ∈ split (lit "Thecat sat")
                      \/ t ∈ ({[ lit "the"; lit "cat" ]} : gset str))
       (split splitted).
Proof.
  refine (X22_split_pass_accounting (U := AsciiDB)
            {[ lit "the"; lit "cat" ]} (lit "Thecat sat") _ _).
  - intros E. apply elem_of_union in E as [E|E];
      apply elem_of_singleton in E; discriminate.
  - exact ascii_lower_keeps_nonspace.
Defined.

(** ** The corpus file and the normalized text *)

Section CorpusFacts.
Import Exporter.

Lemma split_from_paragraph (c x acc : str) :
  split_from acc (c ++ [NEWLINE; NEWLINE] ++ x)
  = split_from acc c ++ split x.
Proof.
  change (c ++ [NEWLINE; NEWLINE] ++ x) with (c ++ NEWLINE :: NEWLINE :: x).
  rewrite split_from_app_space by reflexivity. reflexivity.
Qed.

Lemma paragraph_inj (c c' x x' : str) :
  NEWLINE ∉ c -> NEWLINE ∉ c' ->
  c ++ [NEWLINE; NEWLINE] ++ x = c' ++ [NEWLINE; NEWLINE] ++ x' ->
  c = c' /\ x = x'.
Proof.
  revert c'. induction c as [|a c IH]; intros [|a' c'] Hc Hc' E.
  - cbn in E. injection E as ->. auto.
  - cbn in E. injection E as <- _. exfalso. apply Hc'. constructor.
  - cbn in E. injection E as -> _. exfalso. apply Hc. constructor.
  - cbn [app] in E. injection E as -> E.
    destruct (IH c') as [-> ->]; auto.
    + intros H. apply Hc. now constructor.
    + intros H. apply Hc'. now constructor.
Qed.

(** X23.  The corpus file holds the chunks and nothing else: its tokens
    are the tokens of the chunks in order, and two lists of chunks
    without a newline that give the same corpus are the same list. *)
Theorem X23_corpus_holds_the_chunks (chunks chunks' : list str) :
  split (make_corpus chunks) = List.concat (List.map split chunks)
  /\ (Forall (fun c => NEWLINE ∉ c) chunks ->
      Forall (fun c => NEWLINE ∉ c) chunks' ->
      make_corpus chunks = make_corpus chunks' -> chunks = chunks').
Proof.
  split.
  - unfold make_corpus.
    induction chunks as [|c l IH]; [reflexivity|].
    cbn [List.map List.concat]. unfold split at 1.
    rewrite <- app_assoc, split_from_paragraph.
    fold (split c). rewrite IH. reflexivity.
  - unfold make_corpus. intros H. revert chunks'.
    induction H as [|c l Hc _ IH]; intros chunks' H' E.
    + destruct chunks' as [|c' l']; [reflexivity|].
      cbn in E. destruct c'; discriminate.
    + destruct H' as [|c' l' Hc' Hl'].
      * cbn in E. destruct c; discriminate.
      * cbn [List.map List.concat] in E. rewrite <- !app_assoc in E.
        destruct (paragraph_inj _ _ _ _ Hc Hc' E) as [-> E'].
        f_equal. apply IH; assumption.
Qed.

End CorpusFacts.

Section NormalizerPostcondition.
Import Normalizer.
Context {U : UnicodeDB}.

(** X24.  Whatever the input, the normalized text has no ligature, no
    curly quote, no en dash, em dash or minus sign, no zero-width
    character and no tab, and its spaces are single and touch no
    newline. *)
Theorem X24_normalized_text_is_plain_and_tidy (text : str) :
  Forall plain (normalize text) /\ tidy (normalize text).
Proof. split; [apply normalize_plain|apply normalize_tidy]. Qed.

End NormalizerPostcondition.

(** ** BLOCK 4 as a whole *)

Section Block4Facts.
Import Re Normalizer Repairer DropCap Cleaner Block4.







Context {U : UnicodeDB}.


End Block4Facts.


(** ** From the extracted text to the report *)

Section PipelineFacts.
Import Lexicon Reporter Pipeline.
Context {U : UnicodeDB} {R : PyRandom}.

(** X26.  After the extraction the run can only fail in the dictionary
    loader, on a file with an empty or all-whitespace line; with a
    [random.sample] that keeps its contract every other run reaches the
    report.  That report counts no short chunk, as many records as
    chunks, and a minimum word count above 80 when there is a chunk. *)
Theorem X26_run_fails_only_on_blank_dictionary_line
    (isalnum_char : char -> bool) (dictionary : option (list str))
    (raw_text : str) (g0 : rng) :
  sample_contract R ->
  match run_text isalnum_char dictionary raw_text g0 with
  | None => exists lines, dictionary = Some lines /\ Exists blank_line lines
  | Some r =>
      (forall lines, dictionary = Some lines ->
                     Forall (fun line => ~ blank_line line) lines)
      /\ short_chunks_under_80w r = 0
      /\ total_records r = total_chunks r
      /\ (total_chunks r <> 0 -> 80 < word_min r)
  end.
Proof.
  intros HR. unfold run_text.
  assert (Hload : match load dictionary with
                  | None => exists lines, dictionary = Some lines
                                          /\ Exists blank_line lines
                  | Some _ => forall lines, dictionary = Some lines ->
                                Forall (fun line => ~ blank_line line) lines
                  end).
  { destruct dictionary as [lines|]; cbn [load]; [|discriminate].
    pose proof (load_from_spec lines ∅) as H.
    destruct (load_from ∅ lines) as [loaded|].
    - intros l [= <-]. apply H.
    - exists lines. auto. }
  destruct (load dictionary) as [word_set|]; cbn; [|exact Hload].
  set (good := Segmenter.good_sentences isalnum_char
                 (Segmenter.unquote (Block4.clean word_set raw_text))).
  unfold Segmenter.chunk_text. fold good.
  unfold export_and_report.
  destruct (export_total (Assembler.assemble good) g0 HR)
    as (a & g' & Ea).
  rewrite Ea. cbn.
  assert (Hw : Forall (fun w => 80 < w)
                 (word_counts (Assembler.assemble good))).
  { unfold word_counts. apply Forall_forall. intros w Hw.
    apply list_elem_of_In, in_map_iff in Hw as (c & <- & Hc).
    apply list_elem_of_In in Hc.
    destruct (assemble_elem good c Hc) as (b & Hb & _ & ->).
    pose proof (assemble_words_min (List.map split good)) as Hmin.
    rewrite Forall_forall in Hmin. exact (Hmin b Hb). }
  split; [exact Hload|]. split; [|split].
  - unfold short_chunks.
    induction Hw as [|w l Hw _ IH]; [reflexivity|]. cbn [List.filter].
    destruct (Nat.ltb_spec w 80); [lia|exact IH].
  - destruct (export_records_shape _ _ _ _ Ea) as [Hr _].
    rewrite Hr. unfold Exporter.make_records.
    rewrite length_imap. apply length_map.
  - intros Hne. unfold min_of.
    destruct (word_counts (Assembler.assemble good)) as [|x l] eqn:E.
    + unfold word_counts in E. apply map_eq_nil in E.
      rewrite E in Hne. contradiction.
    + inversion Hw; subst. apply fold_min_above; assumption.
Qed.

End PipelineFacts.

Lemma X26_run_fails_only_on_blank_dictionary_line_witness :
  match Pipeline.run_text (U := AsciiDB) (R := ToyRandom.toy)
          Segmenter.ascii_alnum (Some [lit "the 23135851162"; lit "of"])
          Segmenter.sample_text 0%N with
  | None => exists lines,
      Some [lit "the 23135851162"; lit "of"] = Some lines
      /\ Exists Lexicon.blank_line lines
  | Some r =>
      (forall lines, Some [lit "the 23135851162"; lit "of"] = Some lines ->
                     Forall (fun line => ~ Lexicon.blank_line line) lines)
      /\ Reporter.short_chunks_under_80w r = 0
      /\ Reporter.total_records r = Reporter.total_chunks r
      /\ (Reporter.total_chunks r <> 0 -> 80 < Reporter.word_min r)
  end.
Proof.
  exact (X26_run_fails_only_on_blank_dictionary_line
           (U := AsciiDB) (R := ToyRandom.toy)
           Segmenter.ascii_alnum (Some [lit "the 23135851162"; lit "of"])
           Segmenter.sample_text 0%N toy_sample_contract).
Defined.
